(** * Rate-limited translation scheduler: a shallow embedding of
      [src/lib/translationMiddleware.ts] and the properties of its
      classifier, cache, rate limiter, batch scheduler and entry points. *)

From Stdlib Require Import ZArith List Bool Lia Arith String Ascii.
From Stdlib Require Import Permutation.
Import ListNotations.

Local Open Scope Z_scope.

(* ================================================================== *)
(** * JavaScript strings *)
(* ================================================================== *)

(** A JavaScript string is a sequence of UTF-16 code units.  A code unit is
    kept as a [Z]; every literal of the development lies in [0, 65535]. *)
Module JsString.

Definition char16 := Z.
Definition jsstring := list char16.

(** ASCII literal of the development -> code units. *)
Definition lit (s : string) : jsstring :=
  map (fun a => Z.of_N (N_of_ascii a)) (list_ascii_of_string s).

(** [String.length] *)
Definition jslength (s : jsstring) : Z := Z.of_nat (List.length s).

Fixpoint eqb (a b : jsstring) : bool :=
  match a, b with
  | [], [] => true
  | x :: a', y :: b' => (x =? y) && eqb a' b'
  | _, _ => false
  end.

(** ECMAScript [WhiteSpace] and [LineTerminator] code points: the set that
    [String.prototype.trim] strips and that the regular-expression class
    [\s] matches. *)
Definition isLineTerminator (c : char16) : bool :=
  (c =? 10) || (c =? 13) || (c =? 8232) || (c =? 8233).

Definition isWhiteSpace (c : char16) : bool :=
  (c =? 9) || (c =? 11) || (c =? 12) || (c =? 32) || (c =? 160)
  || (c =? 5760) || ((8192 <=? c) && (c <=? 8202))
  || (c =? 8239) || (c =? 8287) || (c =? 12288) || (c =? 65279)
  || isLineTerminator c.

Fixpoint trimStart (s : jsstring) : jsstring :=
  match s with
  | c :: s' => if isWhiteSpace c then trimStart s' else s
  | [] => []
  end.

Fixpoint trimEnd (s : jsstring) : jsstring :=
  match s with
  | [] => []
  | c :: s' =>
      match trimEnd s' with
      | [] => if isWhiteSpace c then [] else [c]
      | t => c :: t
      end
  end.

(** [String.prototype.trim] *)
Definition trim (s : jsstring) : jsstring := trimEnd (trimStart s).

(** [String.prototype.startsWith] *)
Fixpoint startsWith (p s : jsstring) : bool :=
  match p, s with
  | [], _ => true
  | x :: p', y :: s' => (x =? y) && startsWith p' s'
  | _ :: _, [] => false
  end.

(** The prefix test returning what follows the prefix. *)
Fixpoint stripPrefix (p s : jsstring) : option jsstring :=
  match p, s with
  | [], _ => Some s
  | x :: p', y :: s' => if x =? y then stripPrefix p' s' else None
  | _ :: _, [] => None
  end.

(** The part of [String.prototype.toLowerCase] that the Unicode tables do
    not decide: ASCII letters.  Used to instantiate the host function where
    a concrete run is evaluated. *)
Definition asciiLower (s : jsstring) : jsstring :=
  map (fun c => if (65 <=? c) && (c <=? 90) then c + 32 else c) s.

End JsString.
Import JsString.

(* ================================================================== *)
(** * Control-command recognition *)
(* ================================================================== *)

Module SlashCommand.

(** [/^https?:\/\/|^ftp:\/\/|^file:\/\/|^\/\//] tested with
    [String.prototype.match]: every alternative is anchored at the start,
    so the test is a choice of prefixes. *)
Definition matchesUrlStart (s : jsstring) : bool :=
  startsWith (lit "http://") s || startsWith (lit "https://") s
  || startsWith (lit "ftp://") s || startsWith (lit "file://") s
  || startsWith (lit "//") s.

(** [TranslationMiddleware.isSlashCommand], the private method. *)
Definition isSlashCommand (text : jsstring) : bool :=
  let trimmedText := trim text in
  if negb (startsWith (lit "/") trimmedText) then false
  else if startsWith (lit "//") trimmedText then false
  else if matchesUrlStart trimmedText then false
  else true.

(** The exported utility function [isSlashCommand], written a second time
    in the source with the same three tests. *)
Definition isSlashCommand_exported (text : jsstring) : bool :=
  let trimmedText := trim text in
  if negb (startsWith (lit "/") trimmedText) then false
  else if startsWith (lit "//") trimmedText then false
  else if matchesUrlStart trimmedText then false
  else true.

(** The two-clause description: a single leading slash. *)
Definition singleSlashPrefix (text : jsstring) : bool :=
  startsWith (lit "/") (trim text) && negb (startsWith (lit "//") (trim text)).

End SlashCommand.

(* ================================================================== *)
(** * Global regular-expression replacement *)
(* ================================================================== *)

(** [String.prototype.replace] with a global pattern and the replacement
    [' ']: the input is scanned from the left; at each position the pattern
    is tried against the rest of the ORIGINAL input (look-aheads see the
    unreplaced text); a match of [n] code units is replaced by one space and
    the scan resumes after it, otherwise the code unit is copied.  A matcher
    receives the code unit before the position ([None] at the start, for the
    multiline anchor) and the rest of the input, and answers the length of
    the match.  No pattern of this file matches the empty string. *)
Module Regex.

Definition matcher := option char16 -> jsstring -> option nat.

Fixpoint replaceGo (m : matcher) (prev : option char16) (skip : nat)
         (s : jsstring) : jsstring :=
  match s with
  | [] => []
  | c :: s' =>
      match skip with
      | S k => replaceGo m (Some c) k s'
      | O =>
          match m prev s with
          | Some (S n) => 32 :: replaceGo m (Some c) n s'
          | _ => c :: replaceGo m (Some c) 0 s'
          end
      end
  end.

Definition replaceAll (m : matcher) (s : jsstring) : jsstring :=
  replaceGo m None 0 s.

(** Length of the longest prefix whose code units satisfy [p]: a greedy
    [[class]*]. *)
Fixpoint spanLen (p : char16 -> bool) (s : jsstring) : nat :=
  match s with
  | c :: s' => if p c then S (spanLen p s') else O
  | [] => O
  end.

(** [String.prototype.match] with a global one-character class: the
    number of matches (0 when the result is [null]). *)
Definition countClass (p : char16 -> bool) (s : jsstring) : Z :=
  Z.of_nat (List.length (filter p s)).

(** Offset of the first occurrence of [p] in [s]. *)
Fixpoint findSub (p s : jsstring) : option nat :=
  if startsWith p s then Some O
  else match s with
       | [] => None
       | _ :: s' => option_map S (findSub p s')
       end.

Definition isAsciiLetter (c : char16) : bool :=
  ((97 <=? c) && (c <=? 122)) || ((65 <=? c) && (c <=? 90)).

Definition isAsciiDigit (c : char16) : bool := (48 <=? c) && (c <=? 57).

(** A lower-case pattern letter under the [i] flag.  Without the [u] flag
    a code unit of 128 or more never canonicalises to an ASCII one, so only
    the two ASCII cases match. *)
Definition ciEq (l c : char16) : bool := (c =? l) || (c =? l - 32).

Fixpoint stripPrefixCI (p s : jsstring) : option jsstring :=
  match p, s with
  | [], _ => Some s
  | x :: p', y :: s' => if ciEq x y then stripPrefixCI p' s' else None
  | _ :: _, [] => None
  end.

End Regex.
Import Regex.

(* ================================================================== *)
(** * Token estimate and content classifier *)
(* ================================================================== *)

Module Classifier.

(** [[\u4e00-\u9fff]] *)
Definition isCJKMain (c : char16) : bool := (19968 <=? c) && (c <=? 40959).

(** [[\u4e00-\u9fff\u3400-\u4dbf\uf900-\ufaff]], the class counted
    after preprocessing. *)
Definition isCJKIdeograph (c : char16) : bool :=
  isCJKMain c || ((13312 <=? c) && (c <=? 19903))
  || ((63744 <=? c) && (c <=? 64255)).

(** [[\u4e00-\u9fff\u3400-\u4dbf\uf900-\ufaff\u3000-\u303f\uff00-\uffef]],
    the class counted on the raw text. *)
Definition isCJKExtended (c : char16) : bool :=
  isCJKIdeograph c || ((12288 <=? c) && (c <=? 12351))
  || ((65280 <=? c) && (c <=? 65519)).

(** [estimateTokens]: [Math.ceil(chineseChars * 1.5 + otherChars / 4)].
    Both products are exact in binary64, so the value is the ceiling of
    [(6 * chineseChars + otherChars) / 4]. *)
Definition estimateTokens (text : jsstring) : Z :=
  let chineseChars := countClass isCJKMain text in
  let otherChars := jslength text - chineseChars in
  (6 * chineseChars + otherChars + 3) / 4.

(** [/https?:\/\/[^\s\u4e00-\u9fff]+/g] *)
Definition m_url : matcher := fun _ s =>
  match stripPrefix (lit "http") s with
  | Some r =>
      let '(n0, r0) := match stripPrefix (lit "s") r with
                       | Some r' => (5%nat, r')
                       | None => (4%nat, r)
                       end in
      match stripPrefix (lit "://") r0 with
      | Some r1 =>
          match spanLen (fun c => negb (isWhiteSpace c || isCJKMain c)) r1 with
          | O => None
          | S k => Some (n0 + 3 + S k)%nat
          end
      | None => None
      end
  | None => None
  end.

(** [/[a-zA-Z]:[\\\//](?![\s\S]*[\u4e00-\u9fff])[^\s]+/g]: drive
    letter, colon, a backslash or a slash, nothing of the main block in the
    whole rest of the input, then a run of non-blanks. *)
Definition m_winpath : matcher := fun _ s =>
  match s with
  | c :: colon :: sep :: rest =>
      if isAsciiLetter c && (colon =? 58) && ((sep =? 92) || (sep =? 47))
         && negb (existsb isCJKMain rest)
      then match spanLen (fun c => negb (isWhiteSpace c)) rest with
           | O => None
           | S k => Some (3 + S k)%nat
           end
      else None
  | _ => None
  end.

(** [^] under the [m] flag. *)
Definition atLineStart (prev : option char16) : bool :=
  match prev with
  | None => true
  | Some c => isLineTerminator c
  end.

Definition errorWords : list jsstring :=
  [lit "error"; lit "warning"; lit "info"; lit "debug"].

Fixpoint firstWord (ws : list jsstring) (s : jsstring)
  : option (nat * jsstring) :=
  match ws with
  | [] => None
  | w :: ws' =>
      match stripPrefixCI w s with
      | Some r => Some (List.length w, r)
      | None => firstWord ws' s
      end
  end.

(** [/^\s*(error|warning|info|debug):\s*(?![\s\S]*[\u4e00-\u9fff])/gmi].
    Both [\s*] are greedy; giving blanks back changes neither the next
    code unit wanted nor the look-ahead, so the greedy attempt decides. *)
Definition m_errprefix : matcher := fun prev s =>
  if atLineStart prev then
    let k1 := spanLen isWhiteSpace s in
    match firstWord errorWords (skipn k1 s) with
    | Some (w, r1) =>
        match stripPrefix (lit ":") r1 with
        | Some r2 =>
            let k2 := spanLen isWhiteSpace r2 in
            if existsb isCJKMain (skipn k2 r2) then None
            else Some (k1 + w + 1 + k2)%nat
        | None => None
        end
    | None => None
    end
  else None.

Definition fence : jsstring := [96; 96; 96].

(** [/```(?![\s\S]*[\u4e00-\u9fff])[\s\S]*?```/g]: the lazy body stops
    at the first closing fence. *)
Definition m_fence : matcher := fun _ s =>
  match stripPrefix fence s with
  | Some rest =>
      if existsb isCJKMain rest then None
      else match findSub fence rest with
           | Some j => Some (3 + j + 3)%nat
           | None => None
           end
  | None => None
  end.

(** [/`(?![^`]*[\u4e00-\u9fff])[^`]+`/g]: the body is the whole run up to
    the next backquote, which must exist; the look-ahead inspects that
    same run. *)
Definition m_inline : matcher := fun _ s =>
  match stripPrefix [96] s with
  | Some rest =>
      match spanLen (fun c => negb (c =? 96)) rest with
      | O => None
      | S k =>
          if existsb isCJKMain (firstn (S k) rest) then None
          else match stripPrefix [96] (skipn (S k) rest) with
               | Some _ => Some (S k + 2)%nat
               | None => None
               end
      end
  | None => None
  end.

Definition isLocalChar (c : char16) : bool :=
  isAsciiLetter c || isAsciiDigit c || (c =? 46) || (c =? 95) || (c =? 37)
  || (c =? 43) || (c =? 45).

Definition isDomainChar (c : char16) : bool :=
  isAsciiLetter c || isAsciiDigit c || (c =? 46) || (c =? 45).

(** [[a-zA-Z0-9.-]+\.[a-zA-Z]{2,}]: the greedy domain run gives code units
    back until what follows is a dot and two letters or more; [consumed]
    counts the domain code units before [s].  The answer is the length of
    domain, dot and letters. *)
Fixpoint domainTail (consumed : nat) (s : jsstring) : option nat :=
  match s with
  | c :: s' =>
      if isDomainChar c then
        match domainTail (S consumed) s' with
        | Some n => Some n
        | None =>
            if (c =? 46) && (1 <=? consumed)%nat
               && (2 <=? spanLen isAsciiLetter s')%nat
            then Some (consumed + 1 + spanLen isAsciiLetter s')%nat
            else None
        end
      else None
  | [] => None
  end.

(** [/[a-zA-Z0-9._%+-]+@[a-zA-Z0-9.-]+\.[a-zA-Z]{2,}/g] *)
Definition m_email : matcher := fun _ s =>
  match spanLen isLocalChar s with
  | O => None
  | S k =>
      match stripPrefix (lit "@") (skipn (S k) s) with
      | Some r1 =>
          match domainTail O r1 with
          | Some n => Some (S k + 1 + n)%nat
          | None => None
          end
      | None => None
      end
  end.

(** [/\s+/g] *)
Definition m_blank : matcher := fun _ s =>
  match spanLen isWhiteSpace s with
  | O => None
  | S k => Some (S k)
  end.

(** The chain of replacements that builds [preprocessedText]. *)
Definition preprocess (text : jsstring) : jsstring :=
  trim
    (replaceAll m_blank
      (replaceAll m_email
        (replaceAll m_inline
          (replaceAll m_fence
            (replaceAll m_errprefix
              (replaceAll m_winpath
                (replaceAll m_url text))))))).

(** [num / den >= pnum / pden] for the threshold [pnum / pden] (one tenth,
    eight hundredths).  The source divides and compares in binary64; for a
    denominator below 10^15, far above any string length, the rounded
    quotient is on the same side of the rounded threshold as the exact
    one, so the comparison is the integer one. *)
Definition ratioAtLeast (num den pnum pden : Z) : bool :=
  pnum * den <=? num * pden.

(** [detectChineseContent] *)
Definition detectChineseContent (text : jsstring) : bool :=
  if (jslength text =? 0) || (jslength (trim text) =? 0) then false
  else
    let chineseChars := countClass isCJKExtended text in
    if chineseChars =? 0 then false
    else
      let preprocessedText := preprocess text in
      let totalLength := jslength preprocessedText in
      let chineseCount := countClass isCJKIdeograph preprocessedText in
      if 1 <=? chineseCount then
        let ratio :=
          if 0 <? totalLength
          then ratioAtLeast chineseCount totalLength 1 10 else true in
        let originalRatio :=
          if 0 <? jslength text
          then ratioAtLeast chineseChars (jslength text) 8 100 else false in
        if (jslength text <=? 20) && (1 <=? chineseCount) then true
        else ratio || originalRatio || (5 <=? chineseCount)
      else false.

End Classifier.
Import Classifier.

(* ================================================================== *)
(** * The middleware state *)
(* ================================================================== *)

(** [Map<string, V>]: the entries in insertion order.  [set] on a key that
    is present replaces the value where it stands; on a new key it appends.
    [keys()] iterates in that order. *)
Module JsMap.

Definition t (V : Type) := list (jsstring * V).

Fixpoint get {V} (k : jsstring) (m : t V) : option V :=
  match m with
  | [] => None
  | (k', v) :: m' => if eqb k k' then Some v else get k m'
  end.

Definition has {V} (k : jsstring) (m : t V) : bool :=
  match get k m with Some _ => true | None => false end.

Fixpoint set {V} (k : jsstring) (v : V) (m : t V) : t V :=
  match m with
  | [] => [(k, v)]
  | (k', v') :: m' =>
      if eqb k k' then (k, v) :: m' else (k', v') :: set k v m'
  end.

Fixpoint delete {V} (k : jsstring) (m : t V) : t V :=
  match m with
  | [] => []
  | (k', v') :: m' => if eqb k k' then m' else (k', v') :: delete k m'
  end.

Definition size {V} (m : t V) : Z := Z.of_nat (List.length m).

Definition keys {V} (m : t V) : list jsstring := map fst m.

End JsMap.

Module RateLimitConfig.
Record t := mk { rpm : Z; tpm : Z; maxConcurrent : Z; batchSize : Z }.
End RateLimitConfig.

Module QueueItem.
(** [handle] stands for the identity of the JavaScript object (what
    [Array.prototype.includes] compares); the [resolve] and [reject]
    callbacks are represented by the settlement log of the batch. *)
Record t := mk {
  handle : nat;
  id : jsstring;
  text : jsstring;
  targetLanguage : jsstring;
  priority : Z;
  estimatedTokens : Z;
  timestamp : Z
}.
End QueueItem.

Module TokenUsage.
Record t := mk { timestamp : Z; tokens : Z }.
End TokenUsage.

Module CacheEntry.
Record t := mk { result : jsstring; timestamp : Z; tokens : Z }.
End CacheEntry.

(** A thrown value. *)
Inductive JsError := JsErr (message : jsstring).

(** How a call or an awaited promise completes. *)
Inductive Completion (A : Type) :=
| Returned (a : A)
| Thrown (e : JsError).
Arguments Returned {A} a.
Arguments Thrown {A} e.

(** How the promise of a queue item is settled. *)
Inductive Settlement :=
| Resolved (result : jsstring)
| Rejected (error : JsError).

Module Middleware.

(** Rate limit tracking: [requestTimes], [tokenUsage], [activeRequests]. *)
Record RateState := mkRate {
  requestTimes : list Z;
  tokenUsage : list TokenUsage.t;
  activeRequests : Z
}.

(** [translationCache], [cacheHitCount], [cacheMissCount]. *)
Record CacheState := mkCache {
  translationCache : JsMap.t CacheEntry.t;
  cacheHitCount : Z;
  cacheMissCount : Z
}.

(** The fields of a [TranslationMiddleware] that the scheduler uses.
    [inFlight] is the local [batchItems] of the suspended [processQueue];
    [nextHandle] numbers the queue items created so far. *)
Record State := mkState {
  rateLimitConfig : RateLimitConfig.t;
  rate : RateState;
  cache : CacheState;
  translationQueue : list QueueItem.t;
  isProcessingQueue : bool;
  inFlight : list QueueItem.t;
  nextHandle : nat
}.

Definition maxCacheSize : Z := 1000.

(** The expiry written in [getFromCache] and [cleanupCache], one hour. *)
Definition cacheTtl : Z := 3600000.

Definition defaultRateLimitConfig : RateLimitConfig.t :=
  RateLimitConfig.mk 950 75000 5 10.

Definition initialRate : RateState := mkRate [] [] 0.
Definition initialCache : CacheState := mkCache [] 0 0.

(** The state a freshly constructed middleware starts from. *)
Definition initialState : State :=
  mkState defaultRateLimitConfig initialRate initialCache [] false [] 0.

(* ---------------------------------------------------------------- *)
(** ** Rate limiter *)

Definition sumTokens (l : list TokenUsage.t) : Z :=
  fold_left (fun sum usage => sum + TokenUsage.tokens usage) l 0.

Definition inLastMinute (now time : Z) : bool := now - 60000 <? time.

(** [canMakeRequest]: prunes both sequences, then the three tests. *)
Definition canMakeRequest (cfg : RateLimitConfig.t) (now estimatedTokens : Z)
           (r : RateState) : bool * RateState :=
  let requestTimes' := filter (inLastMinute now) (requestTimes r) in
  let tokenUsage' :=
    filter (fun usage => inLastMinute now (TokenUsage.timestamp usage))
           (tokenUsage r) in
  let r' := mkRate requestTimes' tokenUsage' (activeRequests r) in
  if RateLimitConfig.rpm cfg <=? Z.of_nat (List.length requestTimes')
  then (false, r')
  else
    let currentTokenUsage := sumTokens tokenUsage' in
    if RateLimitConfig.tpm cfg <? currentTokenUsage + estimatedTokens
    then (false, r')
    else if RateLimitConfig.maxConcurrent cfg <=? activeRequests r
         then (false, r')
         else (true, r').

(** [recordRequest] *)
Definition recordRequest (now tokens : Z) (r : RateState) : RateState :=
  mkRate (requestTimes r ++ [now])
         (tokenUsage r ++ [TokenUsage.mk now tokens])
         (activeRequests r + 1).

(** [completeRequest] *)
Definition completeRequest (r : RateState) : RateState :=
  mkRate (requestTimes r) (tokenUsage r) (Z.max 0 (activeRequests r - 1)).

(** What [getPerformanceStats] reports as [requestsLastMinute] and
    [tokenUsageLastMinute]: the trailing 60 seconds of both sequences. *)
Definition requestsLastMinute (now : Z) (r : RateState) : Z :=
  Z.of_nat (List.length (filter (inLastMinute now) (requestTimes r))).

Definition tokenUsageLastMinute (now : Z) (r : RateState) : Z :=
  sumTokens
    (filter (fun usage => inLastMinute now (TokenUsage.timestamp usage))
            (tokenUsage r)).

(* ---------------------------------------------------------------- *)
(** ** Asynchronous entry points *)

(** An [async] function that suspends only on [queueTranslation]: it is
    done, or it waits for the queued translation and goes on with the
    way the promise settles. *)
Inductive Async (A : Type) :=
| Done (c : Completion A)
| AwaitQueue (text targetLanguage : jsstring) (priority : Z)
             (k : Completion jsstring -> Async A).
Arguments Done {A} c.
Arguments AwaitQueue {A} text targetLanguage priority k.

Definition ret {A} (a : A) : Async A := Done (Returned a).

Fixpoint bind {A B} (m : Async A) (f : A -> Async B) : Async B :=
  match m with
  | Done (Returned a) => f a
  | Done (Thrown e) => Done (Thrown e)
  | AwaitQueue t l p k => AwaitQueue t l p (fun o => bind (k o) f)
  end.

(** [try { m } catch (error) { h error }] *)
Fixpoint tryCatch {A} (m : Async A) (h : JsError -> Async A) : Async A :=
  match m with
  | Done (Returned a) => Done (Returned a)
  | Done (Thrown e) => h e
  | AwaitQueue t l p k => AwaitQueue t l p (fun o => tryCatch (k o) h)
  end.

(** [await this.queueTranslation(text, targetLanguage, priority)] *)
Definition awaitQueueTranslation (text targetLanguage : jsstring)
           (priority : Z) : Async jsstring :=
  AwaitQueue text targetLanguage priority (fun o => Done o).

Record TranslationResult := mkResult {
  translatedText : jsstring;
  originalText : jsstring;
  wasTranslated : bool;
  detectedLanguage : jsstring
}.

(** No way of settling the awaited promises makes the call throw. *)
Fixpoint neverThrows {A} (a : Async A) : Prop :=
  match a with
  | Done (Returned _) => True
  | Done (Thrown _) => False
  | AwaitQueue _ _ _ k => forall o, neverThrows (k o)
  end.

Section Host.

(** [String.prototype.toLowerCase], a function of the host. *)
Variable toLowerCase : jsstring -> jsstring.

(* -------------------------------------------------------------- *)
(** ** Cache *)

(** [getCacheKey]: [`${targetLanguage}:${text.trim().toLowerCase()}`] *)
Definition getCacheKey (text targetLanguage : jsstring) : jsstring :=
  targetLanguage ++ [58] ++ toLowerCase (trim text).

(** [getFromCache] *)
Definition getFromCache (now : Z) (text targetLanguage : jsstring)
           (c : CacheState) : option jsstring * CacheState :=
  let key := getCacheKey text targetLanguage in
  match JsMap.get key (translationCache c) with
  | Some cached =>
      if now - CacheEntry.timestamp cached <? cacheTtl
      then (Some (CacheEntry.result cached),
            mkCache (translationCache c) (cacheHitCount c + 1)
                    (cacheMissCount c))
      else (None,
            mkCache (JsMap.delete key (translationCache c))
                    (cacheHitCount c) (cacheMissCount c + 1))
  | None =>
      (None,
       mkCache (translationCache c) (cacheHitCount c)
               (cacheMissCount c + 1))
  end.

(** The eviction step of [storeToCache]:
    [Array.from(keys())[0]] is [undefined] on an empty map and deleting
    it changes nothing. *)
Definition evictOldest (m : JsMap.t CacheEntry.t) : JsMap.t CacheEntry.t :=
  match JsMap.keys m with
  | oldestKey :: _ => JsMap.delete oldestKey m
  | [] => m
  end.

(** [storeToCache] *)
Definition storeToCache (now : Z) (text targetLanguage result : jsstring)
           (tokens : Z) (c : CacheState) : CacheState :=
  let key := getCacheKey text targetLanguage in
  let m := translationCache c in
  let m1 := if maxCacheSize <=? JsMap.size m then evictOldest m else m in
  mkCache (JsMap.set key (CacheEntry.mk result now tokens) m1)
          (cacheHitCount c) (cacheMissCount c).


(* -------------------------------------------------------------- *)
(** ** Batch assembly *)

(** [Array.prototype.sort] with [(a, b) => b.priority - a.priority]:
    a stable sort, higher priority first. *)
Fixpoint insertByPriority (x : QueueItem.t) (l : list QueueItem.t)
  : list QueueItem.t :=
  match l with
  | [] => [x]
  | y :: l' =>
      if QueueItem.priority x <? QueueItem.priority y
      then y :: insertByPriority x l'
      else x :: y :: l'
  end.

Fixpoint sortByPriority (l : list QueueItem.t) : list QueueItem.t :=
  match l with
  | [] => []
  | x :: l' => insertByPriority x (sortByPriority l')
  end.

(** The [for ... of] loop of [processQueue] from the item it stands at,
    with the batch and the token total collected so far.  The batch
    guard [totalEstimatedTokens + item.estimatedTokens > tpm / 4] is
    written without the division.  [canMakeRequest] receives
    [item.estimatedTokens]. *)
Fixpoint collectBatch (cfg : RateLimitConfig.t) (now : Z)
         (items batchItems : list QueueItem.t) (totalEstimatedTokens : Z)
         (r : RateState) : list QueueItem.t * Z * RateState :=
  match items with
  | [] => (batchItems, totalEstimatedTokens, r)
  | item :: rest =>
      if RateLimitConfig.batchSize cfg <=? Z.of_nat (List.length batchItems)
      then (batchItems, totalEstimatedTokens, r)
      else if RateLimitConfig.tpm cfg
              <? 4 * (totalEstimatedTokens + QueueItem.estimatedTokens item)
      then (batchItems, totalEstimatedTokens, r)
      else
        let '(ok, r') :=
          canMakeRequest cfg now (QueueItem.estimatedTokens item) r in
        if ok
        then collectBatch cfg now rest (batchItems ++ [item])
               (totalEstimatedTokens + QueueItem.estimatedTokens item) r'
        else (batchItems, totalEstimatedTokens, r')
  end.

(** [items.reduce((sum, item) => sum + item.estimatedTokens, 0)] *)
Definition batchTokens (items : list QueueItem.t) : Z :=
  fold_left (fun sum item => sum + QueueItem.estimatedTokens item) items 0.

(* -------------------------------------------------------------- *)
(** ** Batch dispatch *)

(** [api.translateText], the external capability: asked at a time for a
    text and a target language, it completes with a string or throws,
    at a later time. *)
Definition TranslateText := Z -> jsstring -> jsstring -> Completion jsstring * Z.

(** What a batch leaves behind: the calls made to the capability and
    the settlement of every item. *)
Record BatchLog := mkLog {
  calls : list (jsstring * jsstring);
  settled : list (QueueItem.t * Settlement)
}.

Definition settleAll (items : list QueueItem.t) (s : Settlement)
           (log : BatchLog) : BatchLog :=
  mkLog (calls log) (settled log ++ map (fun item => (item, s)) items).

Definition logCall (text targetLanguage : jsstring) (log : BatchLog)
  : BatchLog :=
  mkLog (calls log ++ [(text, targetLanguage)]) (settled log).

(** The deduplication loop: [uniqueItems] after the items were entered. *)
Definition addToGroup (uniqueItems : JsMap.t (list QueueItem.t))
           (item : QueueItem.t) : JsMap.t (list QueueItem.t) :=
  let key := getCacheKey (QueueItem.text item)
                         (QueueItem.targetLanguage item) in
  let m := if JsMap.has key uniqueItems then uniqueItems
           else JsMap.set key [] uniqueItems in
  match JsMap.get key m with
  | Some group => JsMap.set key (group ++ [item]) m
  | None => m
  end.

Definition groupItems (items : list QueueItem.t)
  : JsMap.t (list QueueItem.t) :=
  fold_left addToGroup items [].

(** A string used as a condition. *)
Definition truthy (s : option jsstring) : bool :=
  match s with
  | Some (_ :: _) => true
  | _ => false
  end.

Definition translationFailed : JsError := JsErr (lit "Translation failed").

Definition stringOf (s : option jsstring) : jsstring :=
  match s with Some r => r | None => [] end.

(** One turn of the loop over [uniqueItems.entries()]: the cache is
    asked; on a miss the capability is called and a non-empty answer is
    stored; a non-empty result resolves every item of the group, an
    empty one rejects them, and so does a throw. *)
Definition processGroup (translateText : TranslateText)
           (duplicateItems : list QueueItem.t)
           (acc : Z * CacheState * BatchLog) : Z * CacheState * BatchLog :=
  let '(now, c, log) := acc in
  match duplicateItems with
  | [] => (now, c, log)
  | firstItem :: _ =>
      let text := QueueItem.text firstItem in
      let lang := QueueItem.targetLanguage firstItem in
      let '(cached, c1) := getFromCache now text lang c in
      let '(result, now', c2, log1) :=
        if negb (truthy cached) then
          let '(reply, now') := translateText now text lang in
          match reply with
          | Returned translated =>
              (Returned (Some translated), now',
               if truthy (Some translated)
               then storeToCache now' text lang translated
                                 (QueueItem.estimatedTokens firstItem) c1
               else c1,
               logCall text lang log)
          | Thrown error => (Thrown error, now', c1, logCall text lang log)
          end
        else (Returned cached, now, c1, log) in
      match result with
      | Returned r =>
          if truthy r
          then (now', c2, settleAll duplicateItems (Resolved (stringOf r)) log1)
          else (now', c2,
                settleAll duplicateItems (Rejected translationFailed) log1)
      | Thrown error =>
          (now', c2, settleAll duplicateItems (Rejected error) log1)
      end
  end.

Definition processGroups (translateText : TranslateText)
           (groups : JsMap.t (list QueueItem.t))
           (acc : Z * CacheState * BatchLog) : Z * CacheState * BatchLog :=
  fold_left (fun a g => processGroup translateText (snd g) a) groups acc.

(** [processBatch] on the rate limiter and the cache: the request is
    recorded once with the token total of the batch, the groups are
    served, and [completeRequest] runs in the [finally]. *)
Definition processBatch (translateText : TranslateText) (now : Z)
           (items : list QueueItem.t) (r : RateState) (c : CacheState)
  : RateState * CacheState * BatchLog :=
  match items with
  | [] => (r, c, mkLog [] [])
  | _ :: _ =>
      let r1 := recordRequest now (batchTokens items) r in
      let '(_, c1, log) :=
        processGroups translateText (groupItems items)
                      (now, c, mkLog [] []) in
      (completeRequest r1, c1, log)
  end.

(* -------------------------------------------------------------- *)
(** ** The scheduling tick *)

(** [processQueue] up to the point where the dispatched batch is
    awaited: the early return, the sort, the walk, and the synchronous
    start of [processBatch], which records the request. *)
Definition processQueue_start (now : Z) (st : State) : State :=
  if isProcessingQueue st
     || (Z.of_nat (List.length (translationQueue st)) =? 0)
  then st
  else
    let sorted := sortByPriority (translationQueue st) in
    let '(batchItems, _, r1) :=
      collectBatch (rateLimitConfig st) now sorted [] 0 (rate st) in
    match batchItems with
    | [] =>
        mkState (rateLimitConfig st) r1 (cache st) sorted false []
                (nextHandle st)
    | _ :: _ =>
        mkState (rateLimitConfig st)
                (recordRequest now (batchTokens batchItems) r1)
                (cache st) sorted true batchItems (nextHandle st)
    end.

Definition inBatch (batchItems : list QueueItem.t) (item : QueueItem.t)
  : bool :=
  existsb (fun b => Nat.eqb (QueueItem.handle b) (QueueItem.handle item))
          batchItems.

(** The rest of [processQueue], once the calls of the batch in flight
    have completed: the groups are served, [completeRequest] runs, the
    dispatched items leave the queue and the flag is released. *)
Definition processQueue_finish (translateText : TranslateText) (now : Z)
           (st : State) : State * BatchLog :=
  if isProcessingQueue st then
    let '(_, c1, log) :=
      processGroups translateText (groupItems (inFlight st))
                    (now, cache st, mkLog [] []) in
    (mkState (rateLimitConfig st) (completeRequest (rate st)) c1
             (filter (fun item => negb (inBatch (inFlight st) item))
                     (translationQueue st))
             false [] (nextHandle st),
     log)
  else (st, mkLog [] []).

(** [queueTranslation] up to the promise it returns: a cache hit is
    answered at once; otherwise the item is pushed and, when it would be
    admitted and no batch is in flight, a tick runs immediately. *)
Definition queueTranslation (now : Z) (itemId text targetLanguage : jsstring)
           (priority : Z) (st : State) : option jsstring * State :=
  let '(cachedResult, c1) := getFromCache now text targetLanguage (cache st) in
  if truthy cachedResult
  then (cachedResult,
        mkState (rateLimitConfig st) (rate st) c1 (translationQueue st)
                (isProcessingQueue st) (inFlight st) (nextHandle st))
  else
    let queueItem :=
      QueueItem.mk (nextHandle st) itemId text targetLanguage priority
                   (estimateTokens text) now in
    let '(ok, r1) :=
      canMakeRequest (rateLimitConfig st) now
                     (QueueItem.estimatedTokens queueItem) (rate st) in
    let st1 :=
      mkState (rateLimitConfig st) r1 c1
              (translationQueue st ++ [queueItem])
              (isProcessingQueue st) (inFlight st) (S (nextHandle st)) in
    (None,
     if ok && negb (isProcessingQueue st)
     then processQueue_start now st1 else st1).

(** What can happen to the scheduler: a caller enqueues, the timer
    ticks, the batch in flight completes. *)
Inductive Event :=
| Enqueue (now : Z) (itemId text targetLanguage : jsstring) (priority : Z)
| Tick (now : Z)
| BatchDone (translateText : TranslateText) (now : Z).

Definition step (st : State) (ev : Event) : State :=
  match ev with
  | Enqueue now itemId text lang priority =>
      snd (queueTranslation now itemId text lang priority st)
  | Tick now => processQueue_start now st
  | BatchDone translateText now =>
      fst (processQueue_finish translateText now st)
  end.

Definition run (evs : list Event) (st : State) : State :=
  fold_left step evs st.

Definition eventTime (ev : Event) : Z :=
  match ev with
  | Enqueue now _ _ _ _ => now
  | Tick now => now
  | BatchDone _ now => now
  end.


(* -------------------------------------------------------------- *)
(** ** Entry point for user input *)

(** [api.detectTextLanguage], which may throw. *)
Variable detectTextLanguage : jsstring -> Completion jsstring.

(** [detectLanguage] *)
Definition detectLanguage (text : jsstring) : jsstring :=
  match detectTextLanguage text with
  | Returned language => language
  | Thrown _ => if detectChineseContent text then lit "zh" else lit "en"
  end.

Definition untranslated (userInput language : jsstring) : TranslationResult :=
  mkResult userInput userInput false language.

(** The body of [translateUserInput] below the two early returns, for a
    configuration with translation enabled. *)
Definition translateOrdinaryInput (userInput : jsstring)
  : Async TranslationResult :=
  tryCatch
    (let detectedLanguage := detectLanguage userInput in
     let isChineseByCode :=
       startsWith (lit "zh") (toLowerCase detectedLanguage) in
     let isChineseByContent := detectChineseContent userInput in
     let isAsciiOnly := forallb (fun c => c <=? 127) userInput in
     let shouldTranslate :=
       isChineseByContent || (isChineseByCode && negb isAsciiOnly) in
     bind
       (if shouldTranslate then
          tryCatch
            (bind (awaitQueueTranslation userInput (lit "en") 3)
               (fun translatedText =>
                  if truthy (Some translatedText)
                     && negb (eqb (trim translatedText) (trim userInput))
                  then ret (Some (mkResult translatedText userInput true
                                           detectedLanguage))
                  else ret None))
            (fun _ => ret None)
        else ret None)
       (fun early =>
          match early with
          | Some r => ret r
          | None => ret (untranslated userInput detectedLanguage)
          end))
    (fun _ => ret (untranslated userInput (detectLanguage userInput))).

(** [translateUserInput], with [enabled] the value of
    [this.config?.enabled] once the middleware is initialised. *)
Definition translateUserInput (enabled : bool) (userInput : jsstring)
  : Async TranslationResult :=
  if SlashCommand.isSlashCommand userInput then
    ret (untranslated userInput (detectLanguage userInput))
  else if negb enabled then
    ret (untranslated userInput (detectLanguage userInput))
  else translateOrdinaryInput userInput.

(** The effect on the scheduler of starting an entry point at [now]: a
    suspended call has gone through [queueTranslation]. *)
Definition started {A} (a : Async A) (now : Z) (itemId : jsstring)
           (st : State) : State :=
  match a with
  | Done _ => st
  | AwaitQueue text lang priority _ =>
      snd (queueTranslation now itemId text lang priority st)
  end.

End Host.

End Middleware.

(* ================================================================== *)
(** * Further operations of the middleware *)
(* ================================================================== *)

Module MiddlewareMore.
Import Middleware.

(** [cleanupCache]: the keys of the entries older than one hour are
    collected, then deleted one by one. *)
Definition isExpired (now : Z) (kv : jsstring * CacheEntry.t) : bool :=
  cacheTtl <? now - CacheEntry.timestamp (snd kv).

Definition cleanupCache (now : Z) (c : CacheState) : CacheState :=
  let expired := map fst (filter (isExpired now) (translationCache c)) in
  mkCache (fold_left (fun m key => JsMap.delete key m) expired
                     (translationCache c))
          (cacheHitCount c) (cacheMissCount c).

(** [text && text.trim().length > 0] *)
Definition isValidText (text : jsstring) : bool :=
  (0 <? jslength text) && (0 <? jslength (trim text)).

(** [Promise.all] over promises that have settled: the results in order,
    or a rejection when one of them rejected. *)
Fixpoint promiseAll {A} (l : list (Completion A)) : Completion (list A) :=
  match l with
  | [] => Returned []
  | Thrown e :: _ => Thrown e
  | Returned a :: l' =>
      match promiseAll l' with
      | Returned rest => Returned (a :: rest)
      | Thrown e => Thrown e
      end
  end.

(** The reassembly loop of [translateBatch]: [translatedIndex] advances on
    the valid texts only.  The translations are as many as the valid texts,
    so the index stays in range. *)
Fixpoint reassemble (texts translatedTexts : list jsstring) : list jsstring :=
  match texts with
  | [] => []
  | originalText :: rest =>
      if isValidText originalText then
        match translatedTexts with
        | translated :: more => translated :: reassemble rest more
        | [] => [] :: reassemble rest []
        end
      else originalText :: reassemble rest translatedTexts
  end.

(** [translateBatch] once the promise of the [i]-th valid text has settled
    as [outcome i]. *)
Definition translateBatch (enabled : bool) (texts : list jsstring)
           (outcome : nat -> Completion jsstring) : list jsstring :=
  if negb enabled then texts
  else
    let validTexts := filter isValidText texts in
    match validTexts with
    | [] => texts
    | _ :: _ =>
        match promiseAll (map outcome (seq 0 (List.length validTexts))) with
        | Returned translatedTexts => reassemble texts translatedTexts
        | Thrown _ => texts
        end
    end.

(** Every way of settling the awaited promises ends in a result that
    satisfies [P]; none ends in a throw. *)
Fixpoint always {A} (P : A -> Prop) (a : Async A) : Prop :=
  match a with
  | Done (Returned r) => P r
  | Done (Thrown _) => False
  | AwaitQueue _ _ _ k => forall o, always P (k o)
  end.

(** The call has not reached [queueTranslation]. *)
Definition queuesNothing {A} (a : Async A) : Prop :=
  match a with
  | Done _ => True
  | AwaitQueue _ _ _ _ => False
  end.

(** The completion of a call whose awaited promises all settle as [o]. *)
Fixpoint finish {A} (a : Async A) (o : Completion jsstring) : Completion A :=
  match a with
  | Done c => c
  | AwaitQueue _ _ _ k => finish (k o) o
  end.

Section Host.

Variable detectTextLanguage : jsstring -> Completion jsstring.

Local Abbreviation detectLanguage :=
  (Middleware.detectLanguage detectTextLanguage).

(** [translateClaudeResponse]; the second parameter of the source is
    unused. *)
Definition translateClaudeResponse (enabled : bool) (claudeResponse : jsstring)
  : Async TranslationResult :=
  if (jslength claudeResponse =? 0) || (jslength (trim claudeResponse) =? 0)
  then ret (untranslated claudeResponse (lit "unknown"))
  else if jslength (trim claudeResponse) <? 3
  then ret (untranslated claudeResponse (lit "short"))
  else if negb enabled
  then ret (untranslated claudeResponse (detectLanguage claudeResponse))
  else
    tryCatch
      (let detectedLanguage := detectLanguage claudeResponse in
       if JsString.eqb detectedLanguage (lit "en") then
         tryCatch
           (bind (awaitQueueTranslation claudeResponse (lit "zh") 2)
              (fun translatedText =>
                 ret (mkResult translatedText claudeResponse true
                               detectedLanguage)))
           (fun _ => ret (untranslated claudeResponse detectedLanguage))
       else ret (untranslated claudeResponse detectedLanguage))
      (fun _ =>
         ret (untranslated claudeResponse (detectLanguage claudeResponse))).

(** [translateErrorMessage] *)
Definition translateErrorMessage (enabled : bool) (message : jsstring)
  : Async jsstring :=
  if negb enabled || (jslength message =? 0)
     || (jslength (trim message) =? 0)
  then ret message
  else
    tryCatch
      (let detectedLanguage := detectLanguage message in
       if JsString.eqb detectedLanguage (lit "en") then
         bind (awaitQueueTranslation message (lit "zh") 2)
           (fun result => ret (if truthy (Some result) then result else message))
       else ret message)
      (fun _ => ret message).

(** [translateErrorMessages] once the queued translation of the [i]-th
    message, if it asked for one, has settled as [outcome i]. *)
Definition translateErrorMessages (enabled : bool) (messages : list jsstring)
           (outcome : nat -> Completion jsstring) : list jsstring :=
  if negb enabled then messages
  else
    match promiseAll
            (map (fun im => finish (translateErrorMessage enabled (snd im))
                                   (outcome (fst im)))
                 (combine (seq 0 (List.length messages)) messages)) with
    | Returned translated => translated
    | Thrown _ => messages
    end.

End Host.

(* ---------------------------------------------------------------- *)
(** ** The caller: prompt execution *)

Section Caller.

Variable toLowerCase : jsstring -> jsstring.
Variable detectTextLanguage : jsstring -> Completion jsstring.

(** The translation step of [handleSendPrompt]: the text handed to the
    model.  [enabled] is what [isEnabled()] answers, the same
    configuration value the middleware reads; [o] is how the queued
    translation settles, if one is awaited.  The step starts from
    [processedPrompt = prompt], skips the middleware for a control command
    and when translation is off, and keeps the prompt when the call
    throws. *)
Definition processedPrompt (enabled : bool) (prompt : jsstring)
           (o : Completion jsstring) : jsstring :=
  let isSlashCommandInput := SlashCommand.isSlashCommand_exported prompt in
  if negb isSlashCommandInput then
    if enabled then
      match finish (translateUserInput toLowerCase detectTextLanguage
                                       enabled prompt) o with
      | Returned userInputTranslation => translatedText userInputTranslation
      | Thrown _ => prompt
      end
    else prompt
  else prompt.

End Caller.

(* ---------------------------------------------------------------- *)
(** ** The two timers *)

Section Timers.

Variable toLowerCase : jsstring -> jsstring.

(** What can happen to a middleware: an event of the scheduler (the
    one-second timer of [startQueueProcessor] is its [Tick]) or the
    five-minute timer of [startCacheCleanup]. *)
Inductive Op :=
| Scheduler (ev : Event)
| Cleanup (now : Z).

Definition stepOp (st : State) (op : Op) : State :=
  match op with
  | Scheduler ev => step toLowerCase st ev
  | Cleanup now =>
      mkState (rateLimitConfig st) (rate st) (cleanupCache now (cache st))
              (translationQueue st) (isProcessingQueue st) (inFlight st)
              (nextHandle st)
  end.

Definition runOps (ops : list Op) (st : State) : State :=
  fold_left stepOp ops st.

End Timers.

End MiddlewareMore.

(* ================================================================== *)
(** * Properties *)
(* ================================================================== *)

Module JsStringFacts.

Lemma eqb_spec (a b : jsstring) : JsString.eqb a b = true <-> a = b.
Proof.
  revert b; induction a as [|x a IH]; intros [|y b]; simpl;
    try (split; congruence).
  rewrite andb_true_iff, Z.eqb_eq, IH. split.
  - intros [-> ->]; reflexivity.
  - intros H; injection H; auto.
Qed.

Lemma eqb_refl (a : jsstring) : JsString.eqb a a = true.
Proof. apply eqb_spec; reflexivity. Qed.

Lemma eqb_neq (a b : jsstring) : JsString.eqb a b = false <-> a <> b.
Proof.
  split.
  - intros H E. apply eqb_spec in E. congruence.
  - intros H. destruct (JsString.eqb a b) eqn:E; [|reflexivity].
    apply eqb_spec in E. contradiction.
Qed.

Lemma eqb_sym (a b : jsstring) : JsString.eqb a b = JsString.eqb b a.
Proof.
  destruct (JsString.eqb a b) eqn:E.
  - apply eqb_spec in E. subst. symmetry. apply eqb_refl.
  - symmetry. apply eqb_neq. apply eqb_neq in E. congruence.
Qed.

End JsStringFacts.

Module SlashCommandFacts.
Import SlashCommand.

(** A text that starts with one slash and not with two starts with none of
    the URL prefixes: the first code unit of each of them is a letter or
    the second one is a slash. *)
Lemma url_branch_dead (t : jsstring) :
  startsWith (lit "/") t = true ->
  startsWith (lit "//") t = false ->
  matchesUrlStart t = false.
Proof.
  unfold matchesUrlStart.
  destruct t as [|c t]; [discriminate|].
  cbn [lit map list_ascii_of_string startsWith].
  intros H1 H2.
  apply andb_true_iff in H1 as [Hc _]. apply Z.eqb_eq in Hc. subst c.
  rewrite H2. reflexivity.
Qed.

Lemma two_slashes_one (t : jsstring) :
  startsWith (lit "//") t = true -> startsWith (lit "/") t = true.
Proof.
  destruct t as [|c t]; [discriminate|].
  cbn [lit map list_ascii_of_string startsWith].
  intros H. apply andb_true_iff in H as [-> _]. reflexivity.
Qed.

(** C10.  For every input, [isSlashCommand] (the method and the exported
    function alike) is true exactly when the trimmed text starts with a
    slash and does not start with two; on such a text the URL pattern
    never matches, so the third test never changes the answer. *)
Theorem isSlashCommand_single_slash (text : jsstring) :
  isSlashCommand text = singleSlashPrefix text
  /\ isSlashCommand_exported text = singleSlashPrefix text
  /\ singleSlashPrefix text && matchesUrlStart (trim text) = false.
Proof.
  unfold isSlashCommand, isSlashCommand_exported, singleSlashPrefix.
  destruct (startsWith (lit "/") (trim text)) eqn:H1; cbn [negb andb];
    [|auto].
  destruct (startsWith (lit "//") (trim text)) eqn:H2; cbn [negb andb];
    [auto|].
  rewrite (url_branch_dead _ H1 H2). auto.
Qed.

End SlashCommandFacts.

Module OrchestratorFacts.
Import Middleware SlashCommand SlashCommandFacts.

Section Host.

Variable toLowerCase : jsstring -> jsstring.
Variable detectTextLanguage : jsstring -> Completion jsstring.

Local Abbreviation translateUserInput :=
  (Middleware.translateUserInput toLowerCase detectTextLanguage).
Local Abbreviation translateOrdinaryInput :=
  (Middleware.translateOrdinaryInput toLowerCase detectTextLanguage).
Local Abbreviation detectLanguage :=
  (Middleware.detectLanguage detectTextLanguage).

(** The ordinary path either finishes with the original text or waits
    once for a translation to English at priority 3. *)
Lemma translateOrdinaryInput_shape (userInput : jsstring) :
  translateOrdinaryInput userInput
    = ret (untranslated userInput (detectLanguage userInput))
  \/ exists k,
      translateOrdinaryInput userInput
        = AwaitQueue userInput (lit "en") 3 k
      /\ (forall e, k (Thrown e)
            = ret (untranslated userInput (detectLanguage userInput)))
      /\ (forall r, exists res, k (Returned r) = ret res).
Proof.
  unfold Middleware.translateOrdinaryInput.
  destruct (detectChineseContent userInput
            || startsWith (lit "zh") (toLowerCase (detectLanguage userInput))
               && negb (forallb (fun c => c <=? 127) userInput)).
  - right. cbn [awaitQueueTranslation bind tryCatch].
    eexists. split; [reflexivity|]. split.
    + intros e. reflexivity.
    + intros r. cbn [bind tryCatch].
      destruct (truthy (Some r)
                && negb (JsString.eqb (trim r) (trim userInput)));
        cbn [ret bind tryCatch]; eexists; reflexivity.
  - left. reflexivity.
Qed.

(** C8.  An input whose trimmed text starts with one slash, not with
    two, and is not a bare URL is returned unchanged with
    [wasTranslated = false], and starting the call leaves the scheduler,
    its queue included, as it was.  An input whose trimmed text starts
    with two slashes is not a control command: it takes the path of any
    other text. *)
Theorem control_command_bypass
        (enabled : bool) (userInput : jsstring)
        (now : Z) (itemId : jsstring) (st : State) :
  (startsWith (lit "/") (trim userInput) = true ->
   startsWith (lit "//") (trim userInput) = false ->
   matchesUrlStart (trim userInput) = false ->
   translateUserInput enabled userInput
     = Done (Returned (mkResult userInput userInput false
                                (detectLanguage userInput)))
   /\ started toLowerCase (translateUserInput enabled userInput)
              now itemId st = st)
  /\ (startsWith (lit "//") (trim userInput) = true ->
      isSlashCommand userInput = false
      /\ translateUserInput enabled userInput
         = if enabled then translateOrdinaryInput userInput
           else ret (untranslated userInput (detectLanguage userInput))).
Proof.
  unfold Middleware.translateUserInput, isSlashCommand.
  split.
  - intros H1 H2 H3. rewrite H1, H2, H3. cbn [negb]. split; reflexivity.
  - intros H2.
    pose proof (two_slashes_one _ H2) as H1.
    rewrite H1, H2. cbn [negb]. split; [reflexivity|].
    destruct enabled; reflexivity.
Qed.

(** C6.  Whatever the input, no way of settling the queued translation
    makes [translateUserInput] throw; when it waits for the queue and the
    queued translation rejects, it returns the original text with
    [wasTranslated = false].  The rejection is what a throw of the
    translate capability produces for every item of the group. *)
Theorem translateUserInput_fallback (enabled : bool) (userInput : jsstring) :
  neverThrows (translateUserInput enabled userInput)
  /\ (forall text lang priority k e,
         translateUserInput enabled userInput
           = AwaitQueue text lang priority k ->
         k (Thrown e)
           = Done (Returned (mkResult userInput userInput false
                                      (detectLanguage userInput))))
  /\ (forall translateText firstItem others now c log e now',
         truthy (fst (getFromCache toLowerCase now
                        (QueueItem.text firstItem)
                        (QueueItem.targetLanguage firstItem) c)) = false ->
         translateText now (QueueItem.text firstItem)
                       (QueueItem.targetLanguage firstItem)
           = (Thrown e, now') ->
         settled (snd (processGroup toLowerCase translateText
                         (firstItem :: others) (now, c, log)))
           = settled log
             ++ map (fun item => (item, Rejected e)) (firstItem :: others)).
Proof.
  split; [|split].
  - unfold Middleware.translateUserInput.
    destruct (isSlashCommand userInput); [exact I|].
    destruct enabled; cbn [negb]; [|exact I].
    destruct (translateOrdinaryInput_shape userInput)
      as [-> | (k & -> & Hthrow & Hret)]; [exact I|].
    cbn [neverThrows]. intros [r|e].
    + destruct (Hret r) as [res ->]. exact I.
    + rewrite Hthrow. exact I.
  - intros text lang priority k e.
    unfold Middleware.translateUserInput.
    destruct (isSlashCommand userInput); [discriminate|].
    destruct enabled; cbn [negb]; [|discriminate].
    destruct (translateOrdinaryInput_shape userInput)
      as [-> | (k' & -> & Hthrow & _)]; [discriminate|].
    intros H. injection H as _ _ _ <-. apply Hthrow.
  - intros translateText firstItem others now c log e now' Hmiss Hcall.
    unfold processGroup.
    destruct (getFromCache toLowerCase now (QueueItem.text firstItem)
                (QueueItem.targetLanguage firstItem) c) as [cached c1].
    cbn [fst] in Hmiss. rewrite Hmiss. cbn [negb]. rewrite Hcall.
    reflexivity.
Qed.

End Host.

(** The host of the concrete runs: language detection is unavailable. *)
Definition noDetector : jsstring -> Completion jsstring :=
  fun _ => Thrown (JsErr (lit "detector unavailable")).

Lemma control_command_bypass_witness :
  Middleware.translateUserInput asciiLower noDetector true (lit "/help")
    = Done (Returned (mkResult (lit "/help") (lit "/help") false (lit "en")))
  /\ translationQueue
       (started asciiLower
          (Middleware.translateUserInput asciiLower noDetector true
                                         (lit "/help"))
          0 (lit "id") initialState) = []
  /\ isSlashCommand (lit "//not a command") = false
  /\ Middleware.translateUserInput asciiLower noDetector true
                                   (lit "//not a command")
     = Middleware.translateOrdinaryInput asciiLower noDetector
                                         (lit "//not a command").
Proof.
  destruct (proj1 (control_command_bypass asciiLower noDetector true
                     (lit "/help") 0 (lit "id") initialState)
              eq_refl eq_refl eq_refl) as [H1 H2].
  destruct (proj2 (control_command_bypass asciiLower noDetector true
                     (lit "//not a command") 0 (lit "id") initialState)
              eq_refl) as [H3 H4].
  split; [exact H1|]. split; [rewrite H2; reflexivity|].
  split; [exact H3|exact H4].
Defined.

(** Two queue items of one fingerprint and a capability out of quota. *)
Definition greeting (handle : nat) : QueueItem.t :=
  QueueItem.mk handle (lit "id") [20320; 22909] (lit "en") 3 3 0.

Definition outOfQuota : TranslateText :=
  fun now _ _ => (Thrown (JsErr (lit "quota")), now + 30).

Lemma translateUserInput_fallback_witness :
  (exists k,
      Middleware.translateUserInput asciiLower noDetector true [20320; 22909]
        = AwaitQueue [20320; 22909] (lit "en") 3 k
      /\ k (Thrown (JsErr (lit "quota")))
         = Done (Returned (mkResult [20320; 22909] [20320; 22909] false
                                    (lit "zh"))))
  /\ settled (snd (processGroup asciiLower outOfQuota
                     [greeting 0; greeting 1] (0, initialCache, mkLog [] [])))
     = [(greeting 0, Rejected (JsErr (lit "quota")));
        (greeting 1, Rejected (JsErr (lit "quota")))].
Proof.
  pose proof (translateUserInput_fallback asciiLower noDetector true
                [20320; 22909]) as (_ & Hreject & Hgroup).
  split.
  - eexists. split; [reflexivity|].
    exact (Hreject _ _ _ _ (JsErr (lit "quota")) eq_refl).
  - exact (Hgroup outOfQuota (greeting 0) [greeting 1] 0 initialCache
                  (mkLog [] []) (JsErr (lit "quota")) 30 eq_refl eq_refl).
Defined.

End OrchestratorFacts.

Module RateLimiterFacts.
Import Middleware.

Lemma filter_idem {A} (f : A -> bool) (l : list A) :
  filter f (filter f l) = filter f l.
Proof.
  induction l as [|x l IH]; [reflexivity|].
  simpl. destruct (f x) eqn:E; simpl; rewrite ?E, IH; reflexivity.
Qed.

(** The state after one request was recorded at time 0. *)
Definition oneRecorded : RateState := recordRequest 0 100 initialRate.

(** C7, as stated, fails: a check made 60 seconds after a request was
    recorded drops that request from both sequences. *)
Lemma canMakeRequest_prunes :
  requestTimes oneRecorded = [0]
  /\ requestTimes
       (snd (canMakeRequest defaultRateLimitConfig 60000 10 oneRecorded)) = []
  /\ tokenUsage
       (snd (canMakeRequest defaultRateLimitConfig 60000 10 oneRecorded)) = []
  /\ snd (canMakeRequest defaultRateLimitConfig 60000 10 oneRecorded)
     <> oneRecorded.
Proof.
  repeat split; try reflexivity. discriminate.
Qed.

Lemma canMakeRequest_snd (cfg : RateLimitConfig.t) (now tokens : Z)
      (r : RateState) :
  snd (canMakeRequest cfg now tokens r)
  = mkRate (filter (inLastMinute now) (requestTimes r))
           (filter (fun usage => inLastMinute now (TokenUsage.timestamp usage))
                   (tokenUsage r))
           (activeRequests r).
Proof.
  unfold canMakeRequest.
  repeat match goal with |- context [if ?b then _ else _] => destruct b end;
    reflexivity.
Qed.

(** C7, amended.  The admission check reserves nothing: it leaves
    [activeRequests] as it is and adds no entry; both sequences are replaced
    by their entries of the trailing 60 seconds, so the request count and
    the token sum of the window are what they were, and a second check at
    the same instant gives the same answer and changes nothing more. *)
Theorem canMakeRequest_only_prunes
        (cfg : RateLimitConfig.t) (now tokens : Z) (r : RateState) :
  let r' := snd (canMakeRequest cfg now tokens r) in
  activeRequests r' = activeRequests r
  /\ requestTimes r' = filter (inLastMinute now) (requestTimes r)
  /\ tokenUsage r'
     = filter (fun usage => inLastMinute now (TokenUsage.timestamp usage))
              (tokenUsage r)
  /\ requestsLastMinute now r' = requestsLastMinute now r
  /\ tokenUsageLastMinute now r' = tokenUsageLastMinute now r
  /\ canMakeRequest cfg now tokens r'
     = (fst (canMakeRequest cfg now tokens r), r').
Proof.
  cbv zeta. rewrite canMakeRequest_snd. cbn [activeRequests requestTimes tokenUsage].
  repeat split.
  - unfold requestsLastMinute. cbn [requestTimes]. rewrite filter_idem.
    reflexivity.
  - unfold tokenUsageLastMinute. cbn [tokenUsage]. rewrite filter_idem.
    reflexivity.
  - unfold canMakeRequest. cbn [activeRequests requestTimes tokenUsage].
    rewrite !filter_idem.
    repeat match goal with |- context [if ?b then _ else _] => destruct b end;
      reflexivity.
Qed.

End RateLimiterFacts.

Module JsMapFacts.
Import JsStringFacts.

(** Every key occurs once: what [set] and [delete] maintain from the empty
    map on. *)
Definition wf {V} (m : JsMap.t V) : Prop := NoDup (JsMap.keys m).

Lemma get_set_same {V} (k : jsstring) (v : V) (m : JsMap.t V) :
  JsMap.get k (JsMap.set k v m) = Some v.
Proof.
  induction m as [|[k' v'] m IH]; simpl.
  - rewrite eqb_refl. reflexivity.
  - destruct (JsString.eqb k k') eqn:E; simpl; rewrite ?E, ?eqb_refl; auto.
Qed.

Lemma get_none_notin {V} (k : jsstring) (m : JsMap.t V) :
  JsMap.get k m = None <-> ~ In k (JsMap.keys m).
Proof.
  induction m as [|[k' v'] m IH]; simpl.
  - tauto.
  - destruct (JsString.eqb k k') eqn:E.
    + apply eqb_spec in E. subst. split; [discriminate|]. intros H.
      exfalso. apply H. left. reflexivity.
    + apply eqb_neq in E. rewrite IH. split.
      * intros H [H'|H']; [congruence|tauto].
      * intros H H'. apply H. right. exact H'.
Qed.

Lemma set_fresh {V} (k : jsstring) (v : V) (m : JsMap.t V) :
  ~ In k (JsMap.keys m) -> JsMap.set k v m = m ++ [(k, v)].
Proof.
  induction m as [|[k' v'] m IH]; simpl; intros H; [reflexivity|].
  destruct (JsString.eqb k k') eqn:E.
  - apply eqb_spec in E. subst. exfalso. apply H. left. reflexivity.
  - rewrite IH; [reflexivity|]. intros H'. apply H. right. exact H'.
Qed.

Lemma keys_set {V} (k : jsstring) (v : V) (m : JsMap.t V) :
  JsMap.keys (JsMap.set k v m)
  = if JsMap.has k m then JsMap.keys m else JsMap.keys m ++ [k].
Proof.
  unfold JsMap.has.
  induction m as [|[k' v'] m IH]; simpl; [reflexivity|].
  destruct (JsString.eqb k k') eqn:E; simpl.
  - apply eqb_spec in E. subst. reflexivity.
  - rewrite IH. destruct (JsMap.get k m); reflexivity.
Qed.

Lemma size_set_le {V} (k : jsstring) (v : V) (m : JsMap.t V) :
  (JsMap.size (JsMap.set k v m) <= JsMap.size m + 1)%Z.
Proof.
  unfold JsMap.size.
  induction m as [|[k' v'] m IH]; simpl List.length; [lia|].
  destruct (JsString.eqb k k'); simpl List.length; lia.
Qed.

Lemma delete_head {V} (k : jsstring) (v : V) (m : JsMap.t V) :
  JsMap.delete k ((k, v) :: m) = m.
Proof. simpl. rewrite eqb_refl. reflexivity. Qed.

Lemma keys_delete_incl {V} (k : jsstring) (m : JsMap.t V) :
  incl (JsMap.keys (JsMap.delete k m)) (JsMap.keys m).
Proof.
  induction m as [|[k' v'] m IH]; simpl; [apply incl_refl|].
  destruct (JsString.eqb k k').
  - apply incl_tl, incl_refl.
  - simpl. intros x [H|H]; [left; exact H|right; apply IH; exact H].
Qed.

Lemma wf_delete {V} (k : jsstring) (m : JsMap.t V) :
  wf m -> wf (JsMap.delete k m).
Proof.
  unfold wf. induction m as [|[k' v'] m IH]; simpl; intros H; [exact H|].
  inversion H as [|? ? Hn Hd]; subst.
  destruct (JsString.eqb k k'); [exact Hd|].
  simpl. constructor; [|auto].
  intros Hin. apply Hn. apply (keys_delete_incl k m). exact Hin.
Qed.

Lemma get_delete_same {V} (k : jsstring) (m : JsMap.t V) :
  wf m -> JsMap.get k (JsMap.delete k m) = None.
Proof.
  unfold wf. induction m as [|[k' v'] m IH]; simpl; intros H; [reflexivity|].
  inversion H as [|? ? Hn Hd]; subst.
  destruct (JsString.eqb k k') eqn:E.
  - apply eqb_spec in E. subst. apply get_none_notin. exact Hn.
  - simpl. rewrite E. auto.
Qed.

Lemma wf_set {V} (k : jsstring) (v : V) (m : JsMap.t V) :
  wf m -> wf (JsMap.set k v m).
Proof.
  unfold wf. intros H. rewrite keys_set. unfold JsMap.has.
  destruct (JsMap.get k m) eqn:E; [exact H|].
  apply get_none_notin in E.
  apply NoDup_rev in H. rewrite <- (rev_involutive (JsMap.keys m ++ [k])).
  apply NoDup_rev. rewrite rev_app_distr. simpl. constructor; [|exact H].
  rewrite <- in_rev. exact E.
Qed.

End JsMapFacts.

Module CacheFacts.
Import Middleware JsStringFacts JsMapFacts.

(** The arguments of one [storeToCache] and the time of the call. *)
Record Put := mkPut {
  putAt : Z;
  putText : jsstring;
  putLang : jsstring;
  putResult : jsstring;
  putTokens : Z
}.

Section Host.

Variable toLowerCase : jsstring -> jsstring.

Local Abbreviation getCacheKey := (Middleware.getCacheKey toLowerCase).
Local Abbreviation getFromCache := (Middleware.getFromCache toLowerCase).
Local Abbreviation storeToCache := (Middleware.storeToCache toLowerCase).

Definition put (c : CacheState) (p : Put) : CacheState :=
  storeToCache (putAt p) (putText p) (putLang p) (putResult p) (putTokens p) c.

Definition putKey (p : Put) : jsstring := getCacheKey (putText p) (putLang p).

Definition putEntry (p : Put) : CacheEntry.t :=
  CacheEntry.mk (putResult p) (putAt p) (putTokens p).

(** The cache after a sequence of puts into the empty cache. *)
Definition afterPuts (ps : list Put) : CacheState := fold_left put ps initialCache.

Lemma evictOldest_cons (e : jsstring * CacheEntry.t) (m : JsMap.t CacheEntry.t) :
  evictOldest (e :: m) = m.
Proof. destruct e as [k v]. unfold evictOldest. simpl JsMap.keys. apply delete_head. Qed.

Lemma put_cache (c : CacheState) (p : Put) :
  translationCache (put c p)
  = JsMap.set (putKey p) (putEntry p)
      (if maxCacheSize <=? JsMap.size (translationCache c)
       then evictOldest (translationCache c) else translationCache c).
Proof. reflexivity. Qed.

Lemma put_bound (c : CacheState) (p : Put) :
  JsMap.size (translationCache c) <= maxCacheSize ->
  JsMap.size (translationCache (put c p)) <= maxCacheSize.
Proof.
  intros H. rewrite put_cache.
  pose proof (size_set_le (putKey p) (putEntry p)) as Hs.
  destruct (maxCacheSize <=? JsMap.size (translationCache c)) eqn:E.
  - apply Z.leb_le in E.
    destruct (translationCache c) as [|e m] eqn:Em.
    + unfold maxCacheSize, JsMap.size in E. simpl in E. lia.
    + rewrite evictOldest_cons. specialize (Hs m).
      unfold JsMap.size in *. simpl List.length in H. lia.
  - apply Z.leb_gt in E. specialize (Hs (translationCache c)). lia.
Qed.

Lemma afterPuts_bound (ps : list Put) :
  JsMap.size (translationCache (afterPuts ps)) <= maxCacheSize.
Proof.
  unfold afterPuts.
  assert (H0 : JsMap.size (translationCache initialCache) <= maxCacheSize)
    by (vm_compute; discriminate).
  revert H0. generalize initialCache as c.
  induction ps as [|p ps IH]; intros c H; simpl; [exact H|].
  apply IH, put_bound, H.
Qed.

Lemma afterPuts_snoc (ps : list Put) (p : Put) :
  afterPuts (ps ++ [p]) = put (afterPuts ps) p.
Proof. unfold afterPuts. rewrite fold_left_app. reflexivity. Qed.

Lemma tl_skipn {A} (n : nat) (l : list A) : tl (skipn n l) = skipn (S n) l.
Proof.
  revert l; induction n as [|n IH]; intros [|x l]; simpl; auto.
Qed.

Lemma in_skipn {A} (x : A) (n : nat) (l : list A) :
  In x (skipn n l) -> In x l.
Proof.
  revert l; induction n as [|n IH]; intros [|y l]; simpl; auto.
Qed.

(** With pairwise different keys the cache holds the most recent
    [maxCacheSize] puts, oldest first. *)
Lemma afterPuts_fifo (ps : list Put) :
  NoDup (map putKey ps) ->
  JsMap.keys (translationCache (afterPuts ps))
  = skipn (List.length ps - Z.to_nat maxCacheSize) (map putKey ps).
Proof.
  assert (HN : Z.of_nat (Z.to_nat maxCacheSize) = maxCacheSize)
    by (unfold maxCacheSize; lia).
  assert (HN1 : (1 <= Z.to_nat maxCacheSize)%nat)
    by (unfold maxCacheSize; lia).
  generalize dependent (Z.to_nat maxCacheSize). intros N HN HN1.
  induction ps as [|p ps IH] using rev_ind; intros Hnd.
  - rewrite skipn_nil. reflexivity.
  - rewrite map_app in Hnd. simpl in Hnd.
    assert (Hps : NoDup (map putKey ps)) by (eapply NoDup_app_remove_r; eauto).
    assert (Hfresh : ~ In (putKey p) (map putKey ps)).
    { apply NoDup_rev in Hnd. rewrite rev_app_distr in Hnd. simpl in Hnd.
      inversion Hnd; subst. rewrite <- in_rev in *. assumption. }
    specialize (IH Hps).
    rewrite afterPuts_snoc, put_cache.
    pose proof (afterPuts_bound ps) as Hb.
    assert (Hlen : JsMap.size (translationCache (afterPuts ps))
                   = Z.of_nat (List.length ps - (List.length ps - N))).
    { unfold JsMap.size. f_equal.
      transitivity (List.length (JsMap.keys (translationCache (afterPuts ps)))).
      - unfold JsMap.keys. rewrite length_map. reflexivity.
      - rewrite IH, length_skipn, length_map. reflexivity. }
    rewrite map_app, length_app. simpl map. simpl List.length.
    destruct (maxCacheSize <=? JsMap.size (translationCache (afterPuts ps)))
      eqn:E.
    + apply Z.leb_le in E.
      destruct (translationCache (afterPuts ps)) as [|e m] eqn:Em.
      { unfold JsMap.size in E. simpl in E. unfold maxCacheSize in E. lia. }
      rewrite evictOldest_cons.
      assert (Hm : JsMap.keys m
                   = skipn (S (List.length ps - N)) (map putKey ps)).
      { rewrite <- tl_skipn, <- IH. reflexivity. }
      rewrite set_fresh.
      * unfold JsMap.keys in *. rewrite map_app, Hm. simpl map.
        replace (List.length ps + 1 - N)%nat with (S (List.length ps - N))
          by lia.
        rewrite skipn_app, length_map.
        replace (S (List.length ps - N) - List.length ps)%nat with O by lia.
        reflexivity.
      * rewrite Hm. intros Hin. apply Hfresh.
        eapply in_skipn; eauto.
    + apply Z.leb_gt in E.
      assert (Hsmall : (List.length ps - N = 0)%nat) by lia.
      rewrite Hsmall in IH. simpl skipn in IH.
      rewrite set_fresh by (rewrite IH; exact Hfresh).
      unfold JsMap.keys in *. rewrite map_app, IH. simpl map.
      replace (List.length ps + 1 - N)%nat with O by lia. reflexivity.
Qed.

(** Every key occurs once in a cache built by [storeToCache] and
    [getFromCache] from the empty one. *)
Lemma storeToCache_wf (now : Z) (text lang result : jsstring) (tokens : Z)
      (c : CacheState) :
  wf (translationCache c) ->
  wf (translationCache (storeToCache now text lang result tokens c)).
Proof.
  intros H. unfold Middleware.storeToCache. cbn [translationCache].
  apply wf_set.
  destruct (maxCacheSize <=? JsMap.size (translationCache c)); [|exact H].
  unfold evictOldest. destruct (JsMap.keys (translationCache c)); [exact H|].
  apply wf_delete, H.
Qed.

Lemma getFromCache_wf (now : Z) (text lang : jsstring) (c : CacheState) :
  wf (translationCache c) ->
  wf (translationCache (snd (getFromCache now text lang c))).
Proof.
  intros H. unfold Middleware.getFromCache.
  destruct (JsMap.get (getCacheKey text lang) (translationCache c))
    as [cached|]; [|exact H].
  destruct (now - CacheEntry.timestamp cached <? cacheTtl); [exact H|].
  cbn [snd translationCache]. apply wf_delete, H.
Qed.

Lemma afterPuts_wf (ps : list Put) : wf (translationCache (afterPuts ps)).
Proof.
  unfold afterPuts.
  assert (H0 : wf (translationCache initialCache)) by constructor.
  revert H0. generalize initialCache as c.
  induction ps as [|p ps IH]; intros c H; simpl; [exact H|].
  apply IH. apply storeToCache_wf, H.
Qed.

Lemma getFromCache_hit (now : Z) (text lang : jsstring) (c : CacheState)
      (r : jsstring) :
  fst (getFromCache now text lang c) = Some r ->
  exists entry,
    JsMap.get (getCacheKey text lang) (translationCache c) = Some entry
    /\ CacheEntry.result entry = r
    /\ now - CacheEntry.timestamp entry < cacheTtl
    /\ translationCache (snd (getFromCache now text lang c))
       = translationCache c.
Proof.
  unfold Middleware.getFromCache.
  destruct (JsMap.get (getCacheKey text lang) (translationCache c))
    as [entry|]; [|discriminate].
  destruct (now - CacheEntry.timestamp entry <? cacheTtl) eqn:E;
    [|discriminate].
  cbn [fst snd translationCache]. intros H. injection H as <-.
  exists entry. apply Z.ltb_lt in E. auto.
Qed.

(** C4.  From the empty cache, after each put of any sequence the cache
    holds at most [maxCacheSize] entries.  A put that finds the cache at
    capacity removes the entry at the head of the insertion order and
    nothing else before it sets its own; with pairwise different keys the
    cache therefore holds the most recent [maxCacheSize] puts in the order
    they were made.  A hit of [getFromCache] does not move an entry. *)
Theorem cache_bound_fifo (ps : list Put) :
  (forall n,
      JsMap.size (translationCache (afterPuts (firstn n ps))) <= maxCacheSize)
  /\ (forall p,
         maxCacheSize <= JsMap.size (translationCache (afterPuts ps)) ->
         exists oldest rest,
           translationCache (afterPuts ps) = oldest :: rest
           /\ translationCache (put (afterPuts ps) p)
              = JsMap.set (putKey p) (putEntry p) rest)
  /\ (NoDup (map putKey ps) ->
      JsMap.keys (translationCache (afterPuts ps))
      = skipn (List.length ps - Z.to_nat maxCacheSize) (map putKey ps))
  /\ (forall now text lang r,
         fst (getFromCache now text lang (afterPuts ps)) = Some r ->
         translationCache (snd (getFromCache now text lang (afterPuts ps)))
         = translationCache (afterPuts ps)).
Proof.
  split; [|split; [|split]].
  - intros n. apply afterPuts_bound.
  - intros p Hfull. rewrite put_cache.
    apply Z.leb_le in Hfull. rewrite Hfull.
    destruct (translationCache (afterPuts ps)) as [|e m].
    + discriminate.
    + exists e, m. rewrite evictOldest_cons. auto.
  - apply afterPuts_fifo.
  - intros now text lang r H.
    destruct (getFromCache_hit _ _ _ _ _ H) as (entry & _ & _ & _ & Hsame).
    exact Hsame.
Qed.

(** C5.  In a cache where every key occurs once, a lookup made later than
    the timestamp of the entry plus the expiry reports a miss and leaves no
    entry under the key; a lookup that returns a result returns the one of
    an entry younger than the expiry; in particular what was stored at [T]
    is not returned after [T + cacheTtl]. *)
Theorem expired_entry_is_never_returned
        (now : Z) (text lang : jsstring) (c : CacheState) :
  wf (translationCache c) ->
  (forall entry,
      JsMap.get (getCacheKey text lang) (translationCache c) = Some entry ->
      CacheEntry.timestamp entry + cacheTtl < now ->
      fst (getFromCache now text lang c) = None
      /\ JsMap.get (getCacheKey text lang)
           (translationCache (snd (getFromCache now text lang c))) = None)
  /\ (forall r,
         fst (getFromCache now text lang c) = Some r ->
         exists entry,
           JsMap.get (getCacheKey text lang) (translationCache c) = Some entry
           /\ CacheEntry.result entry = r
           /\ now - CacheEntry.timestamp entry < cacheTtl)
  /\ (forall T result tokens,
         T + cacheTtl < now ->
         fst (getFromCache now text lang
                (storeToCache T text lang result tokens c)) = None).
Proof.
  intros Hwf. split; [|split].
  - intros entry Hget Hold. unfold Middleware.getFromCache. rewrite Hget.
    cbn [CacheEntry.timestamp].
    assert (E : (now - CacheEntry.timestamp entry <? cacheTtl) = false)
      by (apply Z.ltb_ge; lia).
    rewrite E. cbn [fst snd translationCache]. split; [reflexivity|].
    apply get_delete_same, Hwf.
  - intros r H.
    destruct (getFromCache_hit _ _ _ _ _ H) as (entry & H1 & H2 & H3 & _).
    exists entry. auto.
  - intros T result tokens Hold.
    unfold Middleware.getFromCache, Middleware.storeToCache.
    cbn [translationCache]. rewrite get_set_same. cbn [CacheEntry.timestamp].
    assert (E : (now - T <? cacheTtl) = false) by (apply Z.ltb_ge; lia).
    rewrite E. reflexivity.
Qed.

End Host.

Fixpoint distinctKeys (l : list jsstring) : bool :=
  match l with
  | [] => true
  | k :: l' => negb (existsb (JsString.eqb k) l') && distinctKeys l'
  end.

Lemma distinctKeys_NoDup (l : list jsstring) :
  distinctKeys l = true -> NoDup l.
Proof.
  induction l as [|k l IH]; simpl; intros H; constructor.
  - apply andb_true_iff in H as [H _]. intros Hin.
    assert (existsb (JsString.eqb k) l = true).
    { apply existsb_exists. exists k. split; [exact Hin|apply eqb_refl]. }
    rewrite H0 in H. discriminate.
  - apply andb_true_iff in H as [_ H]. auto.
Qed.

(** One thousand puts under one thousand different texts, one per
    millisecond, and the put that follows them. *)
Definition thousandPuts : list Put :=
  map (fun i => mkPut (Z.of_nat i) [20000 + Z.of_nat i] (lit "en") (lit "r") 1)
      (seq 0 1000).

Definition nextPut : Put := mkPut 1000 [21000] (lit "en") (lit "r") 1.

Definition threePuts : list Put :=
  [mkPut 1 (lit "one") (lit "zh") (lit "yi") 1;
   mkPut 2 (lit "two") (lit "zh") (lit "er") 1;
   mkPut 3 (lit "three") (lit "zh") (lit "san") 2].

Lemma cache_bound_fifo_witness :
  (exists oldest rest,
      translationCache (afterPuts asciiLower thousandPuts) = oldest :: rest
      /\ translationCache (put asciiLower (afterPuts asciiLower thousandPuts)
                               nextPut)
         = JsMap.set (putKey asciiLower nextPut) (putEntry nextPut) rest)
  /\ JsMap.keys (translationCache (afterPuts asciiLower threePuts))
     = map (putKey asciiLower) threePuts
  /\ translationCache
       (snd (Middleware.getFromCache asciiLower 10 (lit "one") (lit "zh")
               (afterPuts asciiLower threePuts)))
     = translationCache (afterPuts asciiLower threePuts).
Proof.
  split; [|split].
  - apply (proj1 (proj2 (cache_bound_fifo asciiLower thousandPuts))).
    vm_compute. discriminate.
  - rewrite (proj1 (proj2 (proj2 (cache_bound_fifo asciiLower threePuts)))).
    + reflexivity.
    + apply distinctKeys_NoDup. reflexivity.
  - exact (proj2 (proj2 (proj2 (cache_bound_fifo asciiLower threePuts)))
                 10 (lit "one") (lit "zh") (lit "yi") eq_refl).
Defined.

(** A cache holding one translation stored at time 0. *)
Definition oneStored : CacheState :=
  afterPuts asciiLower [mkPut 0 (lit "Hello") (lit "zh") [20320; 22909] 2].

Lemma expired_entry_is_never_returned_witness :
  wf (translationCache oneStored)
  /\ fst (Middleware.getFromCache asciiLower 3600001 (lit "hello ") (lit "zh")
            oneStored) = None
  /\ JsMap.get (Middleware.getCacheKey asciiLower (lit "hello ") (lit "zh"))
       (translationCache
          (snd (Middleware.getFromCache asciiLower 3600001 (lit "hello ")
                  (lit "zh") oneStored))) = None
  /\ (exists entry,
         JsMap.get (Middleware.getCacheKey asciiLower (lit "hello ") (lit "zh"))
                   (translationCache oneStored) = Some entry
         /\ CacheEntry.result entry = [20320; 22909]
         /\ 3599999 - CacheEntry.timestamp entry < cacheTtl)
  /\ fst (Middleware.getFromCache asciiLower 3600008 (lit "hello ") (lit "zh")
            (Middleware.storeToCache asciiLower 7 (lit "hello ") (lit "zh")
               [20320; 22909] 2 oneStored)) = None.
Proof.
  assert (Hwf : wf (translationCache oneStored)).
  { apply distinctKeys_NoDup. vm_compute. reflexivity. }
  destruct (expired_entry_is_never_returned asciiLower 3600001 (lit "hello ")
              (lit "zh") oneStored Hwf) as (H1 & _ & _).
  destruct (expired_entry_is_never_returned asciiLower 3599999 (lit "hello ")
              (lit "zh") oneStored Hwf) as (_ & H2 & _).
  destruct (expired_entry_is_never_returned asciiLower 3600008 (lit "hello ")
              (lit "zh") oneStored Hwf) as (_ & _ & H3).
  destruct (H1 (CacheEntry.mk [20320; 22909] 0 2)) as [Hmiss Hgone].
  - vm_compute. reflexivity.
  - vm_compute. reflexivity.
  - split; [exact Hwf|]. split; [exact Hmiss|]. split; [exact Hgone|].
    split; [exact (H2 [20320; 22909] eq_refl)|].
    apply H3. vm_compute. reflexivity.
Defined.

End CacheFacts.

Module DedupFacts.
Import Middleware JsStringFacts JsMapFacts.

Section Host.

Variable toLowerCase : jsstring -> jsstring.

Local Abbreviation getCacheKey := (Middleware.getCacheKey toLowerCase).
Local Abbreviation addToGroup := (Middleware.addToGroup toLowerCase).
Local Abbreviation groupItems := (Middleware.groupItems toLowerCase).
Local Abbreviation processGroup := (Middleware.processGroup toLowerCase).
Local Abbreviation processGroups := (Middleware.processGroups toLowerCase).
Local Abbreviation processBatch := (Middleware.processBatch toLowerCase).

(** The fingerprint of a queue item and of a call to the capability. *)
Definition fingerprint (item : QueueItem.t) : jsstring :=
  getCacheKey (QueueItem.text item) (QueueItem.targetLanguage item).

Definition callKey (call : jsstring * jsstring) : jsstring :=
  getCacheKey (fst call) (snd call).

(** A group is not empty and holds items of its key only. *)
Definition GroupOK (kg : jsstring * list QueueItem.t) : Prop :=
  snd kg <> [] /\ Forall (fun item => fingerprint item = fst kg) (snd kg).

Definition GroupsOK (gs : JsMap.t (list QueueItem.t))
           (entered : list QueueItem.t) : Prop :=
  wf gs /\ Forall GroupOK gs /\ Permutation (List.concat (map snd gs)) entered.

Lemma get_In {V} (k : jsstring) (v : V) (m : JsMap.t V) :
  JsMap.get k m = Some v -> In (k, v) m.
Proof.
  induction m as [|[k' v'] m IH]; simpl; [discriminate|].
  destruct (JsString.eqb k k') eqn:E.
  - apply eqb_spec in E. subst. intros H. injection H as ->. left. reflexivity.
  - intros H. right. auto.
Qed.

Lemma Forall_set {V} (P : jsstring * V -> Prop) (k : jsstring) (v : V)
      (m : JsMap.t V) :
  Forall P m -> P (k, v) -> Forall P (JsMap.set k v m).
Proof.
  intros Hm Hkv. induction m as [|[k' v'] m IH]; simpl.
  - constructor; [exact Hkv|constructor].
  - inversion Hm; subst.
    destruct (JsString.eqb k k'); constructor; auto.
Qed.

Lemma set_set {V} (k : jsstring) (v1 v2 : V) (m : JsMap.t V) :
  JsMap.set k v2 (JsMap.set k v1 m) = JsMap.set k v2 m.
Proof.
  induction m as [|[k' v'] m IH]; simpl.
  - rewrite eqb_refl. reflexivity.
  - destruct (JsString.eqb k k') eqn:E; simpl; rewrite ?eqb_refl, ?E, ?IH;
      reflexivity.
Qed.

Lemma concat_set_snoc (k : jsstring) (g : list QueueItem.t) (x : QueueItem.t)
      (m : JsMap.t (list QueueItem.t)) :
  JsMap.get k m = Some g ->
  Permutation (List.concat (map snd (JsMap.set k (g ++ [x]) m)))
              (List.concat (map snd m) ++ [x]).
Proof.
  induction m as [|[k' g'] m IH]; simpl; [discriminate|].
  destruct (JsString.eqb k k') eqn:E.
  - intros H. injection H as ->. simpl.
    rewrite <- !app_assoc. apply Permutation_app_head, Permutation_app_comm.
  - intros H. simpl. rewrite <- app_assoc.
    apply Permutation_app_head, IH, H.
Qed.

Lemma addToGroup_present (gs : JsMap.t (list QueueItem.t)) (item : QueueItem.t)
      (g : list QueueItem.t) :
  JsMap.get (fingerprint item) gs = Some g ->
  addToGroup gs item = JsMap.set (fingerprint item) (g ++ [item]) gs.
Proof.
  intros H. unfold Middleware.addToGroup, JsMap.has. fold (fingerprint item).
  rewrite H. cbv zeta. rewrite H. reflexivity.
Qed.

Lemma addToGroup_absent (gs : JsMap.t (list QueueItem.t)) (item : QueueItem.t) :
  JsMap.get (fingerprint item) gs = None ->
  addToGroup gs item = gs ++ [(fingerprint item, [item])].
Proof.
  intros H. unfold Middleware.addToGroup, JsMap.has. fold (fingerprint item).
  rewrite H. cbv zeta. rewrite get_set_same. simpl app.
  rewrite set_set. apply set_fresh. apply get_none_notin. exact H.
Qed.

Lemma addToGroup_ok (gs : JsMap.t (list QueueItem.t))
      (entered : list QueueItem.t) (item : QueueItem.t) :
  GroupsOK gs entered -> GroupsOK (addToGroup gs item) (entered ++ [item]).
Proof.
  intros (Hwf & Hall & Hperm).
  destruct (JsMap.get (fingerprint item) gs) as [g|] eqn:E.
  - rewrite (addToGroup_present _ _ _ E). split; [|split].
    + apply wf_set, Hwf.
    + apply Forall_set; [exact Hall|].
      pose proof (get_In _ _ _ E) as Hin.
      rewrite Forall_forall in Hall. destruct (Hall _ Hin) as [_ Hg].
      split; simpl.
      * destruct g; discriminate.
      * apply Forall_app. split; [exact Hg|]. constructor; [reflexivity|constructor].
    + eapply Permutation_trans; [apply concat_set_snoc, E|].
      apply Permutation_app_tail, Hperm.
  - rewrite (addToGroup_absent _ _ E). split; [|split].
    + rewrite <- (set_fresh _ [item]) by (apply get_none_notin; exact E).
      apply wf_set, Hwf.
    + apply Forall_app. split; [exact Hall|].
      constructor; [|constructor]. split; simpl; [discriminate|].
      constructor; [reflexivity|constructor].
    + rewrite map_app, concat_app. simpl. apply Permutation_app_tail, Hperm.
Qed.

Lemma groupItems_ok (items : list QueueItem.t) :
  GroupsOK (groupItems items) items.
Proof.
  unfold Middleware.groupItems.
  assert (H0 : GroupsOK [] []).
  { split; [constructor|]. split; [constructor|constructor]. }
  change items with ([] ++ items) at 2.
  revert H0. generalize (@nil QueueItem.t) as entered.
  generalize (@nil (jsstring * list QueueItem.t)) as gs.
  induction items as [|item items IH]; intros gs entered H; simpl.
  - rewrite app_nil_r. exact H.
  - replace (entered ++ item :: items) with ((entered ++ [item]) ++ items)
      by (rewrite <- app_assoc; reflexivity).
    apply IH, addToGroup_ok, H.
Qed.

(** What one group adds to the log: one settlement for all its items and at
    most one call, made under the key of the group. *)
Lemma processGroup_effect (translateText : TranslateText) (k : jsstring)
      (g : list QueueItem.t) (now : Z) (c : CacheState) (log : BatchLog) :
  GroupOK (k, g) ->
  exists s newCalls,
    snd (processGroup translateText g (now, c, log))
    = mkLog (calls log ++ newCalls)
            (settled log ++ map (fun item => (item, s)) g)
    /\ (newCalls = [] \/ exists call, newCalls = [call] /\ callKey call = k).
Proof.
  intros [Hne Hall]. simpl in Hne, Hall.
  destruct g as [|firstItem others]; [contradiction|].
  assert (Hk : callKey (QueueItem.text firstItem,
                        QueueItem.targetLanguage firstItem) = k).
  { inversion Hall; subst. reflexivity. }
  unfold Middleware.processGroup.
  destruct (Middleware.getFromCache toLowerCase now (QueueItem.text firstItem)
              (QueueItem.targetLanguage firstItem) c) as [cached c1].
  destruct (truthy cached) eqn:Ecached; cbn [negb].
  - rewrite Ecached. exists (Resolved (stringOf cached)), [].
    cbn [snd settleAll calls settled]. rewrite app_nil_r. auto.
  - destruct (translateText now (QueueItem.text firstItem)
                (QueueItem.targetLanguage firstItem)) as [[translated|error] now'].
    + destruct (truthy (Some translated)) eqn:Et.
      * exists (Resolved translated), [(QueueItem.text firstItem,
                                        QueueItem.targetLanguage firstItem)].
        cbn [snd settleAll logCall calls settled stringOf]. eauto.
      * exists (Rejected translationFailed),
          [(QueueItem.text firstItem, QueueItem.targetLanguage firstItem)].
        cbn [snd settleAll logCall calls settled]. eauto.
    + exists (Rejected error),
        [(QueueItem.text firstItem, QueueItem.targetLanguage firstItem)].
      cbn [snd settleAll logCall calls settled]. eauto.
Qed.

(** What holds of the log once the groups of the keys [seen] were served. *)
Definition LogOK (seen : list jsstring) (log : BatchLog) : Prop :=
  (forall item s, In (item, s) (settled log) -> In (fingerprint item) seen)
  /\ (forall item1 s1 item2 s2,
         In (item1, s1) (settled log) -> In (item2, s2) (settled log) ->
         fingerprint item1 = fingerprint item2 -> s1 = s2)
  /\ (forall call, In call (calls log) -> In (callKey call) seen)
  /\ NoDup (map callKey (calls log)).

Lemma NoDup_snoc {A} (l : list A) (x : A) :
  NoDup l -> ~ In x l -> NoDup (l ++ [x]).
Proof.
  intros Hl Hx. apply NoDup_rev in Hl.
  rewrite <- (rev_involutive (l ++ [x])). apply NoDup_rev.
  rewrite rev_app_distr. simpl. constructor; [|exact Hl].
  rewrite <- in_rev. exact Hx.
Qed.

Lemma processGroup_ok (translateText : TranslateText) (k : jsstring)
      (g : list QueueItem.t) (now : Z) (c : CacheState) (log : BatchLog)
      (seen : list jsstring) :
  GroupOK (k, g) -> ~ In k seen -> LogOK seen log ->
  LogOK (seen ++ [k]) (snd (processGroup translateText g (now, c, log)))
  /\ map fst (settled (snd (processGroup translateText g (now, c, log))))
     = map fst (settled log) ++ g.
Proof.
  intros Hg Hfresh (Hs & Hsame & Hc & Hnd).
  destruct (processGroup_effect translateText k g now c log Hg)
    as (s & newCalls & -> & HnewCalls).
  pose proof Hg as [_ Hfp]. simpl in Hfp. rewrite Forall_forall in Hfp.
  unfold LogOK. cbn [settled calls]. split; [split; [|split; [|split]]|].
  - intros item s' Hin. apply in_app_iff in Hin as [Hin|Hin].
    + apply in_app_iff. left. eapply Hs, Hin.
    + apply in_map_iff in Hin as (x & Hx & Hxin). injection Hx as <- <-.
      apply in_app_iff. right. left. symmetry. apply Hfp, Hxin.
  - intros item1 s1 item2 s2 H1 H2 Heq.
    apply in_app_iff in H1 as [H1|H1]; apply in_app_iff in H2 as [H2|H2].
    + eapply Hsame; eauto.
    + apply in_map_iff in H2 as (x & Hx & Hxin). injection Hx as <- <-.
      exfalso. apply Hfresh. rewrite <- (Hfp _ Hxin), <- Heq. eapply Hs, H1.
    + apply in_map_iff in H1 as (x & Hx & Hxin). injection Hx as <- <-.
      exfalso. apply Hfresh. rewrite <- (Hfp _ Hxin), Heq. eapply Hs, H2.
    + apply in_map_iff in H1 as (x & Hx & _). injection Hx as _ <-.
      apply in_map_iff in H2 as (y & Hy & _). injection Hy as _ <-.
      reflexivity.
  - intros call Hin. apply in_app_iff in Hin as [Hin|Hin].
    + apply in_app_iff. left. apply Hc, Hin.
    + destruct HnewCalls as [->|(call' & -> & Hk)]; [contradiction|].
      destruct Hin as [<-|[]]. apply in_app_iff. right. left. auto.
  - destruct HnewCalls as [->|(call' & -> & Hk)].
    + rewrite app_nil_r. exact Hnd.
    + rewrite map_app. simpl. apply NoDup_snoc; [exact Hnd|].
      intros Hin. apply in_map_iff in Hin as (call & Hcall & Hin).
      apply Hfresh. rewrite <- Hk, <- Hcall. apply Hc, Hin.
  - rewrite map_app, map_map. simpl. rewrite map_id. reflexivity.
Qed.

Lemma processGroups_ok (translateText : TranslateText)
      (gs : JsMap.t (list QueueItem.t)) :
  forall (now : Z) (c : CacheState) (log : BatchLog) (seen : list jsstring),
    NoDup (seen ++ JsMap.keys gs) -> Forall GroupOK gs -> LogOK seen log ->
    LogOK (seen ++ JsMap.keys gs)
          (snd (processGroups translateText gs (now, c, log)))
    /\ map fst (settled (snd (processGroups translateText gs (now, c, log))))
       = map fst (settled log) ++ List.concat (map snd gs).
Proof.
  unfold Middleware.processGroups.
  induction gs as [|[k g] gs IH]; intros now c log seen Hnd Hall Hlog.
  - simpl. rewrite !app_nil_r. auto.
  - inversion Hall as [|? ? Hg Hrest]; subst.
    cbn [fold_left snd].
    assert (Hfresh : ~ In k seen).
    { simpl in Hnd. apply NoDup_remove_2 in Hnd. intros Hin. apply Hnd.
      apply in_app_iff. left. exact Hin. }
    destruct (processGroup_ok translateText k g now c log seen Hg Hfresh Hlog)
      as [Hlog1 Hitems1].
    destruct (processGroup translateText g (now, c, log)) as [[now1 c1] log1].
    cbn [snd] in Hlog1, Hitems1.
    assert (Hassoc : seen ++ JsMap.keys ((k, g) :: gs)
                     = (seen ++ [k]) ++ JsMap.keys gs)
      by (rewrite <- app_assoc; reflexivity).
    rewrite Hassoc in Hnd |- *.
    destruct (IH now1 c1 log1 (seen ++ [k]) Hnd Hrest Hlog1) as [H1 H2].
    split; [exact H1|].
    rewrite H2, Hitems1. simpl. rewrite <- app_assoc. reflexivity.
Qed.

(** C3.  In a dispatched batch the calls made to the translate capability
    have pairwise different fingerprints, each the fingerprint of an item of
    the batch; every item is settled once; and two items of one fingerprint
    are settled alike, with the same result or with the same error. *)
Theorem one_call_per_fingerprint
        (translateText : TranslateText) (now : Z) (items : list QueueItem.t)
        (r : RateState) (c : CacheState) :
  let log := snd (processBatch translateText now items r c) in
  NoDup (map callKey (calls log))
  /\ (forall call, In call (calls log) ->
        exists item, In item items /\ fingerprint item = callKey call)
  /\ Permutation (map fst (settled log)) items
  /\ (forall item1 s1 item2 s2,
         In (item1, s1) (settled log) -> In (item2, s2) (settled log) ->
         fingerprint item1 = fingerprint item2 -> s1 = s2).
Proof.
  cbv zeta. unfold Middleware.processBatch.
  destruct items as [|item0 items0] eqn:Eitems.
  - cbn [snd calls settled map]. repeat split; try constructor; contradiction.
  - rewrite <- Eitems. clear Eitems item0 items0.
    destruct (groupItems_ok items) as (Hwf & Hall & Hperm).
    assert (Hlog0 : LogOK [] (mkLog [] [])).
    { repeat split; try constructor; contradiction. }
    destruct (processGroups_ok translateText (groupItems items) now c
                (mkLog [] []) [] Hwf Hall Hlog0) as [Hlog Hsettled].
    destruct (processGroups translateText (groupItems items)
                (now, c, mkLog [] [])) as [[now1 c1] log].
    cbn [snd] in *. simpl app in Hlog, Hsettled.
    destruct Hlog as (Hs & Hsame & Hc & Hnd).
    split; [exact Hnd|]. split; [|split; [|exact Hsame]].
    + intros call Hin. specialize (Hc _ Hin).
      apply in_map_iff in Hc as ([k g] & Hk & Hkg). simpl in Hk. subst k.
      rewrite Forall_forall in Hall. destruct (Hall _ Hkg) as [Hne Hfp].
      simpl in Hne, Hfp. destruct g as [|item g]; [contradiction|].
      exists item. split.
      * eapply Permutation_in; [exact Hperm|].
        apply in_concat. exists (item :: g). split; [|left; reflexivity].
        apply in_map_iff. exists (callKey call, item :: g). auto.
      * inversion Hfp; subst. assumption.
    + rewrite Hsettled. exact Hperm.
Qed.

End Host.

(** A batch of three items, the first and the last of one fingerprint, and
    a capability that answers after five milliseconds. *)
Definition sampleItem (handle : nat) (text : jsstring) : QueueItem.t :=
  QueueItem.mk handle (lit "id") text (lit "zh") 1 (estimateTokens text) 0.

Definition sampleBatch : list QueueItem.t :=
  [sampleItem 0 (lit "Hello"); sampleItem 1 (lit "bye");
   sampleItem 2 (lit " hello ")].

Definition echo : TranslateText :=
  fun now text _ => (Returned (text ++ lit "!"), now + 5).

Definition sampleLog : BatchLog :=
  snd (Middleware.processBatch asciiLower echo 0 sampleBatch initialRate
                               initialCache).

Lemma one_call_per_fingerprint_witness :
  calls sampleLog = [(lit "Hello", lit "zh"); (lit "bye", lit "zh")]
  /\ In (sampleItem 0 (lit "Hello"), Resolved (lit "Hello!")) (settled sampleLog)
  /\ In (sampleItem 2 (lit " hello "), Resolved (lit "Hello!"))
        (settled sampleLog)
  /\ Resolved (lit "Hello!") = Resolved (lit "Hello!")
  /\ (exists item,
         In item sampleBatch
         /\ fingerprint asciiLower item = callKey asciiLower (lit "bye", lit "zh")).
Proof.
  assert (H1 : In (sampleItem 0 (lit "Hello"), Resolved (lit "Hello!"))
                  (settled sampleLog)) by (left; reflexivity).
  assert (H2 : In (sampleItem 2 (lit " hello "), Resolved (lit "Hello!"))
                  (settled sampleLog)) by (right; left; reflexivity).
  assert (H3 : In (lit "bye", lit "zh") (calls sampleLog))
    by (right; left; reflexivity).
  pose proof (one_call_per_fingerprint asciiLower echo 0 sampleBatch initialRate
                                       initialCache) as (_ & Hcall & _ & Hsame).
  split; [reflexivity|]. split; [exact H1|]. split; [exact H2|].
  split; [exact (Hsame _ _ _ _ H1 H2 eq_refl)|].
  exact (Hcall _ H3).
Defined.

End DedupFacts.

Module SchedulerFacts.
Import Middleware.

(** The walk of [processQueue] as section 4.5 of the specification words
    it, for comparison with [collectBatch]: the admission check receives the
    tokens of the batch collected so far plus those of the candidate. *)
Fixpoint collectBatch_cumulative (cfg : RateLimitConfig.t) (now : Z)
         (items batchItems : list QueueItem.t) (totalEstimatedTokens : Z)
         (r : RateState) : list QueueItem.t * Z * RateState :=
  match items with
  | [] => (batchItems, totalEstimatedTokens, r)
  | item :: rest =>
      if RateLimitConfig.batchSize cfg <=? Z.of_nat (List.length batchItems)
      then (batchItems, totalEstimatedTokens, r)
      else if RateLimitConfig.tpm cfg
              <? 4 * (totalEstimatedTokens + QueueItem.estimatedTokens item)
      then (batchItems, totalEstimatedTokens, r)
      else
        let '(ok, r') :=
          canMakeRequest cfg now
            (totalEstimatedTokens + QueueItem.estimatedTokens item) r in
        if ok
        then collectBatch_cumulative cfg now rest (batchItems ++ [item])
               (totalEstimatedTokens + QueueItem.estimatedTokens item) r'
        else (batchItems, totalEstimatedTokens, r')
  end.

(** A capability that is out of quota. *)
Definition unavailable : TranslateText :=
  fun now _ _ => (Thrown (JsErr (lit "quota")), now).

(** A message of [n] ideographs. *)
Definition ideographs (n : Z) : jsstring := repeat 20320 (Z.to_nat n).

(** Five messages are sent within four seconds.  Each of the first three
    is dispatched at once and fails; the fourth is dispatched at once, and
    while it is in flight two more are queued; it fails too. *)
Definition fourBatches : list (Event) :=
  [ Enqueue 0 (lit "a") (ideographs 12500) (lit "en") 3;
    BatchDone unavailable 100;
    Enqueue 1000 (lit "b") (ideographs 12500) (lit "en") 3;
    BatchDone unavailable 1100;
    Enqueue 2000 (lit "c") (ideographs 12500) (lit "en") 3;
    BatchDone unavailable 2100;
    Enqueue 3000 (lit "d") (ideographs 6666) (lit "en") 3;
    Enqueue 3010 (lit "e") (ideographs 5333) (lit "en") 3;
    Enqueue 3020 (lit "f") (ideographs 5333) (lit "en") 3;
    BatchDone unavailable 3100 ].

Definition loaded : State := run asciiLower fourBatches initialState.

(** The state the rate limiter is left in by a check at [now]: it does not
    depend on the tokens asked for. *)
Definition pruned (now : Z) (r : RateState) : RateState :=
  mkRate (filter (inLastMinute now) (requestTimes r))
         (filter (fun usage => inLastMinute now (TokenUsage.timestamp usage))
                 (tokenUsage r))
         (activeRequests r).

Lemma canMakeRequest_pruned (cfg : RateLimitConfig.t) (now tokens : Z)
      (r : RateState) :
  canMakeRequest cfg now tokens r
  = (fst (canMakeRequest cfg now tokens r), pruned now r).
Proof.
  rewrite (surjective_pairing (canMakeRequest cfg now tokens r)) at 1.
  rewrite RateLimiterFacts.canMakeRequest_snd. reflexivity.
Qed.

Lemma canMakeRequest_after_pruning (cfg : RateLimitConfig.t) (now tokens : Z)
      (r : RateState) :
  fst (canMakeRequest cfg now tokens (pruned now r))
  = fst (canMakeRequest cfg now tokens r).
Proof.
  unfold canMakeRequest, pruned. cbn [requestTimes tokenUsage activeRequests].
  rewrite !RateLimiterFacts.filter_idem.
  repeat match goal with |- context [if ?b then _ else _] => destruct b end;
    reflexivity.
Qed.

(** Why the walk stands still at [item] with [batchItems] collected: the
    batch is full, the batch guard trips, or the item alone is refused. *)
Definition stopsAt (cfg : RateLimitConfig.t) (now : Z) (r : RateState)
           (batchItems : list QueueItem.t) (item : QueueItem.t) : Prop :=
  RateLimitConfig.batchSize cfg <= Z.of_nat (List.length batchItems)
  \/ RateLimitConfig.tpm cfg
     < 4 * (batchTokens batchItems + QueueItem.estimatedTokens item)
  \/ fst (canMakeRequest cfg now (QueueItem.estimatedTokens item) r) = false.

Lemma batchTokens_snoc (l : list QueueItem.t) (x : QueueItem.t) :
  batchTokens (l ++ [x]) = batchTokens l + QueueItem.estimatedTokens x.
Proof. unfold batchTokens. rewrite fold_left_app. reflexivity. Qed.

(** The batch is a prefix of the sorted queue: every item taken passed the
    admission check on its own tokens, and the item after the batch, if
    there is one, is where the walk stopped; nothing behind it is tried. *)
Lemma collectBatch_prefix (cfg : RateLimitConfig.t) (now : Z)
      (items : list QueueItem.t) :
  forall (batchItems : list QueueItem.t) (r : RateState),
  exists taken rest,
    items = taken ++ rest
    /\ fst (fst (collectBatch cfg now items batchItems
                              (batchTokens batchItems) r))
       = batchItems ++ taken
    /\ Forall (fun item =>
                 fst (canMakeRequest cfg now (QueueItem.estimatedTokens item) r)
                 = true) taken
    /\ match rest with
       | [] => True
       | item :: _ => stopsAt cfg now r (batchItems ++ taken) item
       end.
Proof.
  induction items as [|item items IH]; intros batchItems r.
  - exists [], []. simpl. rewrite app_nil_r. auto.
  - cbn [collectBatch].
    destruct (RateLimitConfig.batchSize cfg
              <=? Z.of_nat (List.length batchItems)) eqn:E1.
    { exists [], (item :: items). cbn [fst app]. rewrite app_nil_r.
      repeat split; auto. left. apply Z.leb_le, E1. }
    destruct (RateLimitConfig.tpm cfg
              <? 4 * (batchTokens batchItems + QueueItem.estimatedTokens item))
      eqn:E2.
    { exists [], (item :: items). cbn [fst app]. rewrite app_nil_r.
      repeat split; auto. right. left. apply Z.ltb_lt, E2. }
    rewrite canMakeRequest_pruned.
    destruct (fst (canMakeRequest cfg now (QueueItem.estimatedTokens item) r))
      eqn:E3.
    + rewrite <- batchTokens_snoc.
      destruct (IH (batchItems ++ [item]) (pruned now r))
        as (taken & rest & -> & Hbatch & Hall & Hstop).
      exists (item :: taken), rest. rewrite Hbatch, <- app_assoc.
      split; [reflexivity|]. split; [reflexivity|]. split.
      * constructor; [exact E3|].
        eapply Forall_impl; [|exact Hall]. intros x Hx. cbv beta in Hx.
        rewrite canMakeRequest_after_pruning in Hx. exact Hx.
      * destruct rest as [|next rest]; [exact I|].
        rewrite <- app_assoc in Hstop. simpl app in Hstop.
        destruct Hstop as [H|[H|H]]; [left; exact H|right; left; exact H|].
        right. right. rewrite canMakeRequest_after_pruning in H. exact H.
    + exists [], (item :: items). cbn [fst app]. rewrite app_nil_r.
      repeat split; auto. right. right. exact E3.
Qed.

(** C1 on the code.  With the default limits, after the five messages of
    [fourBatches] the tick at second 4 dispatches the two queued items in
    one batch: each alone fits under [tpm] (66249 + 8000), the batch is
    recorded with their sum, and the tokens of the trailing 60 seconds are
    82249, above the 75000 of [tpm].  Five requests were recorded, below
    [rpm]. *)
Theorem token_ceiling_exceeded :
  let st := step asciiLower loaded (Tick 4000) in
  rateLimitConfig st = defaultRateLimitConfig
  /\ map QueueItem.estimatedTokens (inFlight st) = [8000; 8000]
  /\ tokenUsageLastMinute 4000 (rate loaded) = 66249
  /\ tokenUsageLastMinute 4000 (rate st) = 82249
  /\ RateLimitConfig.tpm (rateLimitConfig st)
     < tokenUsageLastMinute 4000 (rate st)
  /\ requestsLastMinute 4000 (rate st) = 5.
Proof.
  vm_compute. repeat split; reflexivity.
Qed.

(** C2 on the code.  In the state [loaded] the queue holds two items of
    8000 tokens.  The walk of the source takes both, because the admission
    check is asked about 8000 tokens each time; asked about the 16000 of
    the batch it refuses, and the walk worded as in the specification takes
    the first item only. *)
Theorem admission_is_per_item :
  let cfg := rateLimitConfig loaded in
  let queue := sortByPriority (translationQueue loaded) in
  map QueueItem.estimatedTokens queue = [8000; 8000]
  /\ map QueueItem.estimatedTokens
         (fst (fst (collectBatch cfg 4000 queue [] 0 (rate loaded))))
     = [8000; 8000]
  /\ fst (canMakeRequest cfg 4000 8000 (rate loaded)) = true
  /\ fst (canMakeRequest cfg 4000 (8000 + 8000) (rate loaded)) = false
  /\ map QueueItem.estimatedTokens
         (fst (fst (collectBatch_cumulative cfg 4000 queue [] 0 (rate loaded))))
     = [8000].
Proof.
  vm_compute. repeat split; reflexivity.
Qed.

(** ** The request count of the trailing minute *)

Lemma filter_filter_weaker {A} (f g : A -> bool) (l : list A) :
  (forall x, f x = true -> g x = true) ->
  filter f (filter g l) = filter f l.
Proof.
  intros Hfg. induction l as [|x l IH]; [reflexivity|].
  simpl. destruct (g x) eqn:Eg; simpl.
  - rewrite IH. reflexivity.
  - destruct (f x) eqn:Ef; [|exact IH].
    rewrite (Hfg x Ef) in Eg. discriminate.
Qed.

Lemma filter_length_weaker {A} (f g : A -> bool) (l : list A) :
  (forall x, f x = true -> g x = true) ->
  (List.length (filter f l) <= List.length (filter g l))%nat.
Proof.
  intros Hfg. induction l as [|x l IH]; [constructor|].
  simpl. destruct (f x) eqn:Ef.
  - rewrite (Hfg x Ef). simpl. lia.
  - destruct (g x); simpl; lia.
Qed.

Lemma inLastMinute_later (now now' time : Z) :
  now <= now' -> inLastMinute now' time = true -> inLastMinute now time = true.
Proof. unfold inLastMinute. intros H H'. apply Z.ltb_lt in H'. apply Z.ltb_lt. lia. Qed.

Lemma count_pruned (now now' : Z) (r : RateState) :
  now <= now' ->
  requestsLastMinute now' (pruned now r) = requestsLastMinute now' r.
Proof.
  intros H. unfold requestsLastMinute, pruned. cbn [requestTimes].
  rewrite filter_filter_weaker; [reflexivity|].
  intros x. apply inLastMinute_later, H.
Qed.

Lemma count_later (now now' : Z) (r : RateState) :
  now <= now' -> requestsLastMinute now' r <= requestsLastMinute now r.
Proof.
  intros H. unfold requestsLastMinute. apply inj_le, filter_length_weaker.
  intros x. apply inLastMinute_later, H.
Qed.

Lemma count_recorded (now now' tokens : Z) (r : RateState) :
  requestsLastMinute now' (recordRequest now tokens r)
  <= requestsLastMinute now' r + 1.
Proof.
  unfold requestsLastMinute, recordRequest. cbn [requestTimes].
  rewrite filter_app, length_app. simpl.
  destruct (inLastMinute now' now); simpl; lia.
Qed.

Lemma admitted_below_rpm (cfg : RateLimitConfig.t) (now tokens : Z)
      (r : RateState) :
  fst (canMakeRequest cfg now tokens r) = true ->
  requestsLastMinute now r < RateLimitConfig.rpm cfg.
Proof.
  unfold canMakeRequest, requestsLastMinute.
  destruct (RateLimitConfig.rpm cfg
            <=? Z.of_nat (List.length (filter (inLastMinute now) (requestTimes r))))
    eqn:E; [discriminate|].
  intros _. apply Z.leb_gt, E.
Qed.

Lemma pruned_idem (now : Z) (r : RateState) :
  pruned now (pruned now r) = pruned now r.
Proof.
  unfold pruned. cbn [requestTimes tokenUsage activeRequests].
  rewrite !RateLimiterFacts.filter_idem. reflexivity.
Qed.

Lemma collectBatch_rate (cfg : RateLimitConfig.t) (now : Z)
      (items : list QueueItem.t) :
  forall batchItems total r,
    snd (collectBatch cfg now items batchItems total r) = r
    \/ snd (collectBatch cfg now items batchItems total r) = pruned now r.
Proof.
  induction items as [|item items IH]; intros batchItems total r;
    cbn [collectBatch]; [left; reflexivity|].
  destruct (RateLimitConfig.batchSize cfg
            <=? Z.of_nat (List.length batchItems)); [left; reflexivity|].
  destruct (RateLimitConfig.tpm cfg
            <? 4 * (total + QueueItem.estimatedTokens item));
    [left; reflexivity|].
  rewrite canMakeRequest_pruned.
  destruct (fst (canMakeRequest cfg now (QueueItem.estimatedTokens item) r));
    [|right; reflexivity].
  right.
  destruct (IH (batchItems ++ [item])
               (total + QueueItem.estimatedTokens item) (pruned now r))
    as [->| ->]; [reflexivity|apply pruned_idem].
Qed.

(** From time [t] on, the requests recorded within the trailing minute are
    at most [rpm]. *)
Definition Within (st : State) (t : Z) : Prop :=
  forall now,
    t <= now ->
    requestsLastMinute now (rate st) <= RateLimitConfig.rpm (rateLimitConfig st).

(** The events come in the order of their times, none before [t]. *)
Fixpoint inOrder (t : Z) (evs : list Event) : Prop :=
  match evs with
  | [] => True
  | ev :: evs' => t <= eventTime ev /\ inOrder (eventTime ev) evs'
  end.

Definition lastTime (t : Z) (evs : list Event) : Z :=
  fold_left (fun _ ev => eventTime ev) evs t.

Section Host.

Variable toLowerCase : jsstring -> jsstring.

Lemma processQueue_start_within (st : State) (t now : Z) :
  Within st t -> t <= now -> Within (processQueue_start now st) now.
Proof.
  intros Hin Ht. unfold processQueue_start.
  destruct (isProcessingQueue st
            || (Z.of_nat (List.length (translationQueue st)) =? 0)).
  { intros now' Hnow'. apply Hin. lia. }
  pose proof (collectBatch_prefix (rateLimitConfig st) now
                (sortByPriority (translationQueue st)) [] (rate st))
    as (taken & rest & _ & Hbatch & Hall & _).
  pose proof (collectBatch_rate (rateLimitConfig st) now
                (sortByPriority (translationQueue st)) [] 0 (rate st)) as Hrate.
  change (batchTokens []) with 0 in Hbatch.
  destruct (collectBatch (rateLimitConfig st) now
              (sortByPriority (translationQueue st)) [] 0 (rate st))
    as [[batchItems total] r1].
  cbn [fst snd app] in Hbatch, Hrate. subst batchItems.
  assert (Hr1 : forall now', now <= now' ->
                  requestsLastMinute now' r1
                  = requestsLastMinute now' (rate st)).
  { intros now' Hnow'. destruct Hrate as [->| ->];
      [reflexivity|apply count_pruned, Hnow']. }
  destruct taken as [|item taken]; intros now' Hnow';
    cbn [rate rateLimitConfig].
  - rewrite Hr1 by exact Hnow'. apply Hin. lia.
  - inversion Hall as [|? ? Hok _]; subst.
    apply admitted_below_rpm in Hok.
    pose proof (count_recorded now now'
                  (batchTokens (item :: taken)) r1) as Hrec.
    pose proof (count_later now now' (rate st) Hnow') as Hlater.
    rewrite Hr1 in Hrec by exact Hnow'. lia.
Qed.

Lemma step_within (st : State) (ev : Event) (t : Z) :
  Within st t -> t <= eventTime ev ->
  Within (step toLowerCase st ev) (eventTime ev)
  /\ rateLimitConfig (step toLowerCase st ev) = rateLimitConfig st.
Proof.
  intros Hin Ht. destruct ev as [now itemId text lang priority|now|api now];
    cbn [step eventTime] in *.
  - unfold queueTranslation.
    destruct (getFromCache toLowerCase now text lang (cache st))
      as [cachedResult c1].
    destruct (truthy cachedResult).
    { cbn [snd]. split; [|reflexivity].
      intros now' Hnow'. cbn [rate rateLimitConfig]. apply Hin. lia. }
    rewrite canMakeRequest_pruned.
    set (st1 := mkState _ _ _ _ _ _ _).
    assert (H1 : Within st1 now).
    { intros now' Hnow'. unfold st1. cbn [rate rateLimitConfig].
      rewrite count_pruned by exact Hnow'. apply Hin. lia. }
    cbn [snd].
    match goal with |- context [if ?b then _ else _] => destruct b end.
    + split; [apply (processQueue_start_within st1 now now H1); lia|].
      unfold processQueue_start.
      destruct (isProcessingQueue st1 || _); [reflexivity|].
      destruct (collectBatch _ _ _ _ _ _) as [[[|b bs] ?] ?]; reflexivity.
    + split; [exact H1|reflexivity].
  - split; [apply (processQueue_start_within st t now Hin Ht)|].
    unfold processQueue_start.
    destruct (isProcessingQueue st || _); [reflexivity|].
    destruct (collectBatch _ _ _ _ _ _) as [[[|b bs] ?] ?]; reflexivity.
  - unfold processQueue_finish. destruct (isProcessingQueue st).
    + destruct (processGroups toLowerCase api _ _) as [[now1 c1] log].
      cbn [fst]. split; [|reflexivity].
      intros now' Hnow'. cbn [rate rateLimitConfig].
      change (requestsLastMinute now' (completeRequest (rate st)))
        with (requestsLastMinute now' (rate st)).
      apply Hin. lia.
    + cbn [fst]. split; [|reflexivity]. intros now' Hnow'. apply Hin. lia.
Qed.

Lemma run_within (evs : list Event) :
  forall (st : State) (t : Z),
    Within st t -> inOrder t evs ->
    Within (run toLowerCase evs st) (lastTime t evs).
Proof.
  induction evs as [|ev evs IH]; intros st t Hin Hord; [exact Hin|].
  destruct Hord as [Ht Hord].
  destruct (step_within st ev t Hin Ht) as [Hstep _].
  exact (IH _ _ Hstep Hord).
Qed.

(** The request half of the rate ceiling.  Whatever is enqueued, ticked and
    completed, in the order of time, from the initial state: at the time of
    the last event and ever after, the requests recorded within the trailing
    60 seconds are at most [rpm]. *)
Lemma request_ceiling (evs : list Event) (t now : Z) :
  inOrder t evs -> lastTime t evs <= now ->
  requestsLastMinute now (rate (run toLowerCase evs initialState))
  <= RateLimitConfig.rpm defaultRateLimitConfig.
Proof.
  intros Hord Hnow.
  assert (H0 : Within initialState t).
  { intros now' _. vm_compute. discriminate. }
  pose proof (run_within evs initialState t H0 Hord now Hnow) as H.
  replace (rateLimitConfig (run toLowerCase evs initialState))
    with defaultRateLimitConfig in H; [exact H|].
  clear. change defaultRateLimitConfig with (rateLimitConfig initialState).
  generalize initialState as st.
  induction evs as [|ev evs IH]; intros st; [reflexivity|].
  cbn [run fold_left]. fold (run toLowerCase evs (step toLowerCase st ev)).
  rewrite <- IH.
  destruct ev as [now itemId text lang priority|now|api now]; cbn [step].
  - unfold queueTranslation.
    destruct (getFromCache toLowerCase now text lang (cache st)) as [cr c1].
    destruct (truthy cr); [reflexivity|].
    destruct (canMakeRequest _ _ _ _) as [ok r1]. cbn [snd].
    destruct (ok && negb (isProcessingQueue st)); [|reflexivity].
    unfold processQueue_start.
    match goal with |- context [if ?b then _ else _] => destruct b end;
      [reflexivity|].
    destruct (collectBatch _ _ _ _ _ _) as [[[|b bs] ?] ?]; reflexivity.
  - unfold processQueue_start.
    destruct (isProcessingQueue st || _); [reflexivity|].
    destruct (collectBatch _ _ _ _ _ _) as [[[|b bs] ?] ?]; reflexivity.
  - unfold processQueue_finish. destruct (isProcessingQueue st); [|reflexivity].
    destruct (processGroups toLowerCase api _ _) as [[now1 c1] log].
    reflexivity.
Qed.

End Host.

End SchedulerFacts.

Module ClassifierFacts.
Import Classifier.

(** ** Main-block ideographs survive the preprocessing *)

(** No main-block ideograph among the code units of [s]. *)
Definition plain (s : jsstring) : Prop := existsb isCJKMain s = false.

Lemma plain_cons (c : char16) (s : jsstring) :
  plain (c :: s) <-> isCJKMain c = false /\ plain s.
Proof. unfold plain. simpl. apply orb_false_iff. Qed.

Lemma plain_app (a b : jsstring) : plain (a ++ b) <-> plain a /\ plain b.
Proof. unfold plain. rewrite existsb_app. apply orb_false_iff. Qed.

Lemma plain_firstn (n : nat) (s : jsstring) : plain s -> plain (firstn n s).
Proof.
  revert s; induction n as [|n IH]; intros [|c s]; simpl; auto.
  - intros _. reflexivity.
  - rewrite !plain_cons. intros [H1 H2]. auto.
Qed.

Lemma plain_filter (s : jsstring) : plain s -> filter isCJKMain s = [].
Proof.
  induction s as [|c s IH]; [reflexivity|].
  rewrite plain_cons. intros [H1 H2]. simpl. rewrite H1. auto.
Qed.

Lemma filter_skipn_plain (n : nat) (s : jsstring) :
  plain (firstn n s) -> filter isCJKMain (skipn n s) = filter isCJKMain s.
Proof.
  revert s; induction n as [|n IH]; intros [|c s]; simpl; auto.
  rewrite plain_cons. intros [H1 H2]. rewrite H1. auto.
Qed.

Lemma whitespace_plain (c : char16) :
  isWhiteSpace c = true -> isCJKMain c = false.
Proof.
  unfold isWhiteSpace, isLineTerminator, isCJKMain. intros H.
  apply andb_false_iff.
  repeat (apply orb_true_iff in H; destruct H as [H|H]);
    try (apply andb_true_iff in H; destruct H as [H H']);
    lia.
Qed.

Lemma ascii_plain (c : char16) : c <= 127 -> isCJKMain c = false.
Proof. unfold isCJKMain. intros H. apply andb_false_iff. lia. Qed.

(** A greedy run of code units of a class without ideographs. *)
Lemma span_plain (p : char16 -> bool) (s : jsstring) :
  (forall c, p c = true -> isCJKMain c = false) ->
  plain (firstn (spanLen p s) s).
Proof.
  intros Hp. induction s as [|c s IH]; [reflexivity|].
  simpl. destruct (p c) eqn:E; [|reflexivity].
  simpl. apply plain_cons. auto.
Qed.

Lemma firstn_add {A} (a b : nat) (s : list A) :
  firstn (a + b) s = firstn a s ++ firstn b (skipn a s).
Proof.
  revert s; induction a as [|a IH]; intros [|c s]; simpl; auto.
  - rewrite firstn_nil. reflexivity.
  - rewrite IH. reflexivity.
Qed.

Lemma plain_firstn_split (a b n : nat) (s : jsstring) :
  n = (a + b)%nat ->
  plain (firstn a s) -> plain (firstn b (skipn a s)) -> plain (firstn n s).
Proof. intros -> Ha Hb. rewrite firstn_add. apply plain_app. auto. Qed.

Lemma stripPrefix_app (p s r : jsstring) :
  stripPrefix p s = Some r -> s = p ++ r.
Proof.
  revert s; induction p as [|x p IH]; intros s; simpl.
  - intros H. injection H as ->. reflexivity.
  - destruct s as [|y s]; [discriminate|].
    destruct (x =? y) eqn:E; [|discriminate].
    apply Z.eqb_eq in E. subst. intros H. rewrite (IH _ H). reflexivity.
Qed.

(** What a matcher must guarantee: the code units it consumes hold no
    main-block ideograph. *)
Definition Sparing (m : matcher) : Prop :=
  forall prev s n, m prev s = Some n -> plain (firstn n s).

Lemma replaceGo_sparing (m : matcher) (Hm : Sparing m) (s : jsstring) :
  forall prev skip,
    plain (firstn skip s) ->
    filter isCJKMain (replaceGo m prev skip s) = filter isCJKMain s.
Proof.
  induction s as [|c s IH]; intros prev skip Hskip; [reflexivity|].
  cbn [replaceGo]. destruct skip as [|k].
  - destruct (m prev (c :: s)) as [[|n]|] eqn:E.
    + simpl. rewrite IH; reflexivity.
    + apply Hm in E. simpl firstn in E. apply plain_cons in E as [Hc Hn].
      simpl. rewrite Hc. apply IH, Hn.
    + simpl. rewrite IH; reflexivity.
  - simpl firstn in Hskip. apply plain_cons in Hskip as [Hc Hk].
    simpl. rewrite Hc. apply IH, Hk.
Qed.

Lemma replaceAll_sparing (m : matcher) (s : jsstring) :
  Sparing m -> filter isCJKMain (replaceAll m s) = filter isCJKMain s.
Proof. intros Hm. apply replaceGo_sparing; [exact Hm|reflexivity]. Qed.

Lemma url_sparing : Sparing m_url.
Proof.
  intros prev s n. unfold m_url.
  destruct (stripPrefix (lit "http") s) as [r|] eqn:E0; [|discriminate].
  apply stripPrefix_app in E0. subst s.
  set (p := fun c => negb (isWhiteSpace c || isCJKMain c)).
  assert (Hp : forall c, p c = true -> isCJKMain c = false).
  { unfold p. intros c H. apply negb_true_iff, orb_false_iff in H. tauto. }
  destruct (stripPrefix (lit "s") r) as [r'|] eqn:Es.
  - apply stripPrefix_app in Es. subst r.
    destruct (stripPrefix (lit "://") r') as [r1|] eqn:E1; [|discriminate].
    apply stripPrefix_app in E1. subst r'.
    destruct (spanLen p r1) as [|k] eqn:Ek; [discriminate|].
    intros H. injection H as <-.
    change (lit "http" ++ lit "s" ++ lit "://" ++ r1)
      with (lit "https://" ++ r1).
    change (plain (lit "https://" ++ firstn (S k) r1)).
    apply plain_app. split; [reflexivity|].
    rewrite <- Ek. apply span_plain, Hp.
  - destruct (stripPrefix (lit "://") r) as [r1|] eqn:E1; [|discriminate].
    apply stripPrefix_app in E1. subst r.
    destruct (spanLen p r1) as [|k] eqn:Ek; [discriminate|].
    intros H. injection H as <-.
    change (lit "http" ++ lit "://" ++ r1) with (lit "http://" ++ r1).
    change (plain (lit "http://" ++ firstn (S k) r1)).
    apply plain_app. split; [reflexivity|].
    rewrite <- Ek. apply span_plain, Hp.
Qed.

Lemma letter_plain (c : char16) : isAsciiLetter c = true -> isCJKMain c = false.
Proof.
  unfold isAsciiLetter. intros H. apply ascii_plain.
  apply orb_true_iff in H as [H|H]; apply andb_true_iff in H as [_ H]; lia.
Qed.

Lemma digit_plain (c : char16) : isAsciiDigit c = true -> isCJKMain c = false.
Proof.
  unfold isAsciiDigit. intros H. apply ascii_plain.
  apply andb_true_iff in H as [_ H]. lia.
Qed.

Lemma winpath_sparing : Sparing m_winpath.
Proof.
  intros prev s n. unfold m_winpath.
  destruct s as [|c [|colon [|sep rest]]]; try discriminate.
  destruct (isAsciiLetter c && (colon =? 58) && ((sep =? 92) || (sep =? 47))
            && negb (existsb isCJKMain rest)) eqn:E; [|discriminate].
  apply andb_true_iff in E as [E Hrest].
  apply andb_true_iff in E as [E Hsep].
  apply andb_true_iff in E as [Hc Hcolon].
  apply negb_true_iff in Hrest.
  destruct (spanLen (fun c0 => negb (isWhiteSpace c0)) rest) as [|k];
    [discriminate|].
  intros H. injection H as <-.
  change (plain (c :: colon :: sep :: firstn (S k) rest)).
  repeat (apply plain_cons; split).
  - apply letter_plain, Hc.
  - apply ascii_plain. lia.
  - apply ascii_plain. lia.
  - apply plain_firstn, Hrest.
Qed.

Lemma stripPrefixCI_plain (p s r : jsstring) :
  (forall l, In l p -> l <= 127) ->
  stripPrefixCI p s = Some r ->
  exists pre, s = pre ++ r /\ List.length pre = List.length p /\ plain pre.
Proof.
  revert s; induction p as [|x p IH]; intros s Hp; simpl.
  - intros H. injection H as ->. exists []. repeat split; reflexivity.
  - destruct s as [|y s]; [discriminate|].
    destruct (ciEq x y) eqn:E; [|discriminate]. intros H.
    destruct (IH s (fun l Hl => Hp l (or_intror Hl)) H)
      as (pre & -> & Hlen & Hplain).
    exists (y :: pre). split; [reflexivity|]. split; [simpl; lia|].
    apply plain_cons. split; [|exact Hplain].
    apply ascii_plain. pose proof (Hp x (or_introl eq_refl)).
    unfold ciEq in E. lia.
Qed.

Lemma firstWord_plain (ws : list jsstring) (s r : jsstring) (w : nat) :
  (forall word, In word ws -> forall l, In l word -> l <= 127) ->
  firstWord ws s = Some (w, r) ->
  exists pre, s = pre ++ r /\ List.length pre = w /\ plain pre.
Proof.
  induction ws as [|word ws IH]; intros Hws; simpl; [discriminate|].
  destruct (stripPrefixCI word s) as [r'|] eqn:E.
  - intros H. injection H as <- <-.
    apply (stripPrefixCI_plain word s r' (Hws word (or_introl eq_refl))), E.
  - apply IH. intros word' Hin. apply Hws. right. exact Hin.
Qed.

Lemma errorWords_ascii :
  forall word, In word errorWords -> forall l, In l word -> l <= 127.
Proof.
  intros word Hw l Hl.
  assert (H : forallb (forallb (fun c => c <=? 127)) errorWords = true)
    by reflexivity.
  rewrite forallb_forall in H. specialize (H _ Hw).
  rewrite forallb_forall in H. apply Z.leb_le, H, Hl.
Qed.

Lemma firstn_app_exact {A} (a b : list A) (n : nat) :
  firstn (List.length a + n) (a ++ b) = a ++ firstn n b.
Proof. induction a as [|x a IH]; simpl; [reflexivity|]. rewrite IH. reflexivity. Qed.

Lemma errprefix_sparing : Sparing m_errprefix.
Proof.
  intros prev s n. unfold m_errprefix.
  destruct (atLineStart prev); [|discriminate].
  destruct (firstWord errorWords (skipn (spanLen isWhiteSpace s) s))
    as [[w r1]|] eqn:Ew; [|discriminate].
  destruct (firstWord_plain _ _ _ _ errorWords_ascii Ew)
    as (pre & Hs & Hlen & Hpre).
  destruct (stripPrefix (lit ":") r1) as [r2|] eqn:Ec; [|discriminate].
  apply stripPrefix_app in Ec. subst r1.
  destruct (existsb isCJKMain (skipn (spanLen isWhiteSpace r2) r2));
    [discriminate|].
  intros H. injection H as <-.
  replace (spanLen isWhiteSpace s + w + 1 + spanLen isWhiteSpace r2)%nat
    with (spanLen isWhiteSpace s + (w + (1 + spanLen isWhiteSpace r2)))%nat
    by lia.
  rewrite firstn_add, Hs, <- Hlen, firstn_app_exact.
  change (firstn (1 + spanLen isWhiteSpace r2) (lit ":" ++ r2))
    with (lit ":" ++ firstn (spanLen isWhiteSpace r2) r2).
  rewrite !plain_app. repeat split.
  - apply span_plain, whitespace_plain.
  - exact Hpre.
  - apply span_plain, whitespace_plain.
Qed.

Lemma fence_sparing : Sparing m_fence.
Proof.
  intros prev s n. unfold m_fence.
  destruct (stripPrefix fence s) as [rest|] eqn:E; [|discriminate].
  apply stripPrefix_app in E. subst s.
  destruct (existsb isCJKMain rest) eqn:Hrest; [discriminate|].
  destruct (findSub fence rest) as [j|]; [|discriminate].
  intros H. injection H as <-.
  change (plain (fence ++ firstn (j + 3) rest)).
  apply plain_app. split; [reflexivity|]. apply plain_firstn, Hrest.
Qed.

Lemma inline_sparing : Sparing m_inline.
Proof.
  intros prev s n. unfold m_inline.
  destruct (stripPrefix [96] s) as [rest|] eqn:E; [|discriminate].
  apply stripPrefix_app in E. subst s.
  destruct (spanLen (fun c => negb (c =? 96)) rest) as [|k]; [discriminate|].
  destruct (existsb isCJKMain (firstn (S k) rest)) eqn:Hbody; [discriminate|].
  destruct (stripPrefix [96] (skipn (S k) rest)) as [r|] eqn:Eclose;
    [|discriminate].
  apply stripPrefix_app in Eclose.
  intros H. injection H as <-.
  replace (S (k + 2)) with (S (S k + 1)) by lia.
  change (plain (96 :: firstn (S k + 1) rest)).
  rewrite firstn_add, Eclose. apply plain_cons. split; [reflexivity|].
  apply plain_app. split; [exact Hbody|reflexivity].
Qed.

Lemma domainTail_plain (s : jsstring) :
  forall consumed n,
    domainTail consumed s = Some n ->
    (consumed < n)%nat /\ plain (firstn (n - consumed) s).
Proof.
  induction s as [|c s IH]; intros consumed n; cbn [domainTail];
    [discriminate|].
  destruct (isDomainChar c) eqn:Ec; [|discriminate].
  assert (Hc : isCJKMain c = false).
  { apply ascii_plain.
    unfold isDomainChar, isAsciiLetter, isAsciiDigit in Ec.
    repeat (apply orb_true_iff in Ec; destruct Ec as [Ec|Ec]);
      try (apply andb_true_iff in Ec; destruct Ec as [Ec Ec']); lia. }
  destruct (domainTail (S consumed) s) as [n'|] eqn:E.
  - intros H. injection H as <-. destruct (IH _ _ E) as [Hlt Hplain].
    split; [lia|].
    replace (n' - consumed)%nat with (S (n' - S consumed)) by lia.
    simpl. apply plain_cons. auto.
  - destruct ((c =? 46) && (1 <=? consumed)%nat
              && (2 <=? spanLen isAsciiLetter s)%nat); [|discriminate].
    intros H. injection H as <-. split; [lia|].
    replace (consumed + 1 + spanLen isAsciiLetter s - consumed)%nat
      with (S (spanLen isAsciiLetter s)) by lia.
    simpl. apply plain_cons. split; [exact Hc|].
    apply span_plain, letter_plain.
Qed.

Lemma local_plain (c : char16) : isLocalChar c = true -> isCJKMain c = false.
Proof.
  unfold isLocalChar, isAsciiLetter, isAsciiDigit. intros H.
  apply ascii_plain.
  repeat (apply orb_true_iff in H; destruct H as [H|H]);
    try (apply andb_true_iff in H; destruct H as [H H']); lia.
Qed.

Lemma email_sparing : Sparing m_email.
Proof.
  intros prev s n. unfold m_email.
  destruct (spanLen isLocalChar s) as [|k] eqn:Ek; [discriminate|].
  destruct (stripPrefix (lit "@") (skipn (S k) s)) as [r1|] eqn:Eat;
    [|discriminate].
  apply stripPrefix_app in Eat.
  destruct (domainTail 0 r1) as [d|] eqn:Ed; [|discriminate].
  intros H. injection H as <-.
  destruct (domainTail_plain _ _ _ Ed) as [_ Hd].
  rewrite Nat.sub_0_r in Hd.
  apply (plain_firstn_split (S k) (1 + d)); [lia| |].
  - rewrite <- Ek. apply span_plain, local_plain.
  - rewrite Eat.
    change (firstn (1 + d) (lit "@" ++ r1)) with (lit "@" ++ firstn d r1).
    apply plain_app. split; [reflexivity|exact Hd].
Qed.

Lemma blank_sparing : Sparing m_blank.
Proof.
  intros prev s n. unfold m_blank.
  destruct (spanLen isWhiteSpace s) as [|k] eqn:Ek; [discriminate|].
  intros H. injection H as <-. rewrite <- Ek.
  apply span_plain, whitespace_plain.
Qed.

Lemma trimStart_sparing (s : jsstring) :
  filter isCJKMain (trimStart s) = filter isCJKMain s.
Proof.
  induction s as [|c s IH]; [reflexivity|].
  simpl. destruct (isWhiteSpace c) eqn:E; [|reflexivity].
  rewrite (whitespace_plain _ E). exact IH.
Qed.

Lemma trimEnd_sparing (s : jsstring) :
  filter isCJKMain (trimEnd s) = filter isCJKMain s.
Proof.
  induction s as [|c s IH]; [reflexivity|].
  simpl. destruct (trimEnd s) as [|d t].
  - simpl in IH. rewrite <- IH.
    destruct (isWhiteSpace c) eqn:E.
    + rewrite (whitespace_plain _ E). reflexivity.
    + reflexivity.
  - simpl in *. rewrite IH. reflexivity.
Qed.

(** The main-block ideographs of a text are those of its preprocessed
    form, one for one. *)
Lemma preprocess_sparing (text : jsstring) :
  filter isCJKMain (preprocess text) = filter isCJKMain text.
Proof.
  unfold preprocess, trim.
  rewrite trimEnd_sparing, trimStart_sparing.
  rewrite (replaceAll_sparing _ _ blank_sparing).
  rewrite (replaceAll_sparing _ _ email_sparing).
  rewrite (replaceAll_sparing _ _ inline_sparing).
  rewrite (replaceAll_sparing _ _ fence_sparing).
  rewrite (replaceAll_sparing _ _ errprefix_sparing).
  rewrite (replaceAll_sparing _ _ winpath_sparing).
  apply (replaceAll_sparing _ _ url_sparing).
Qed.

(** ** What the preprocessing can produce *)

Lemma replaceGo_from_input (m : matcher) (s : jsstring) :
  forall prev skip x,
    In x (replaceGo m prev skip s) -> x = 32 \/ In x s.
Proof.
  induction s as [|c s IH]; intros prev skip x; cbn [replaceGo];
    [contradiction|].
  destruct skip as [|k].
  - destruct (m prev (c :: s)) as [[|n]|]; simpl;
      intros [H|H]; auto; apply IH in H; tauto.
  - intros H. apply IH in H. simpl. tauto.
Qed.

Lemma trimStart_incl (s : jsstring) (x : char16) :
  In x (trimStart s) -> In x s.
Proof.
  induction s as [|c s IH]; simpl; [auto|].
  destruct (isWhiteSpace c); simpl; tauto.
Qed.

Lemma trimEnd_incl (s : jsstring) (x : char16) : In x (trimEnd s) -> In x s.
Proof.
  revert x. induction s as [|c s IH]; intros x; simpl; [auto|].
  destruct (trimEnd s) as [|d t].
  - destruct (isWhiteSpace c); simpl; tauto.
  - simpl. intros [H|H]; [auto|]. right. apply IH. exact H.
Qed.

Lemma trimStart_keeps (s : jsstring) (x : char16) :
  In x s -> isWhiteSpace x = false -> In x (trimStart s).
Proof.
  induction s as [|c s IH]; simpl; [auto|].
  intros [->|H] Hx.
  - rewrite Hx. left. reflexivity.
  - destruct (isWhiteSpace c); [auto|]. right. exact H.
Qed.

Lemma trimEnd_keeps (s : jsstring) (x : char16) :
  In x s -> isWhiteSpace x = false -> In x (trimEnd s).
Proof.
  induction s as [|c s IH]; simpl; [auto|].
  intros [->|H] Hx.
  - destruct (trimEnd s); [rewrite Hx|]; left; reflexivity.
  - specialize (IH H Hx). destruct (trimEnd s); [contradiction|].
    right. exact IH.
Qed.

Lemma preprocess_from_input (text : jsstring) (x : char16) :
  In x (preprocess text) -> x = 32 \/ In x text.
Proof.
  unfold preprocess, trim, replaceAll. intros H.
  apply trimEnd_incl, trimStart_incl in H.
  repeat (apply replaceGo_from_input in H; destruct H as [H|H]; [auto|]).
  auto.
Qed.

Lemma countClass_pos (p : char16 -> bool) (s : jsstring) :
  1 <= countClass p s <-> exists x, In x s /\ p x = true.
Proof.
  unfold countClass. split.
  - intros H. destruct (filter p s) as [|x l] eqn:E; [simpl in H; lia|].
    exists x. apply filter_In. rewrite E. left. reflexivity.
  - intros (x & Hin & Hp).
    assert (Hf : In x (filter p s)) by (apply filter_In; auto).
    destruct (filter p s); [contradiction|]. simpl List.length. lia.
Qed.

Lemma ideograph_not_blank (x : char16) :
  isCJKIdeograph x = true -> isWhiteSpace x = false /\ x <> 32.
Proof.
  unfold isCJKIdeograph, isCJKMain, isWhiteSpace, isLineTerminator.
  intros H.
  assert (Hx : 13312 <= x).
  { repeat (apply orb_true_iff in H; destruct H as [H|H]);
      apply andb_true_iff in H; lia. }
  assert (Hy : x <= 64255).
  { repeat (apply orb_true_iff in H; destruct H as [H|H]);
      apply andb_true_iff in H; lia. }
  split; [|lia].
  repeat (apply orb_false_iff; split); try (apply Z.eqb_neq; lia).
  apply andb_false_iff. lia.
Qed.

Lemma jslength_zero (s : jsstring) : (jslength s =? 0) = true -> s = [].
Proof.
  unfold jslength. destruct s; [reflexivity|]. simpl List.length.
  intros H. apply Z.eqb_eq in H. lia.
Qed.

(** An ideograph left by the preprocessing opens the way to the length
    test: the text is not blank and the first count is not zero. *)
Lemma guards_pass (text : jsstring) :
  1 <= countClass isCJKIdeograph (preprocess text) ->
  (jslength text =? 0) || (jslength (trim text) =? 0) = false
  /\ (countClass isCJKExtended text =? 0) = false.
Proof.
  intros H. apply countClass_pos in H as (x & Hin & Hx).
  destruct (ideograph_not_blank x Hx) as [Hws H32].
  apply preprocess_from_input in Hin as [?|Hin]; [contradiction|].
  split.
  - apply orb_false_iff. split.
    + destruct (jslength text =? 0) eqn:E; [|reflexivity].
      apply jslength_zero in E. subst. contradiction.
    + destruct (jslength (trim text) =? 0) eqn:E; [|reflexivity].
      apply jslength_zero in E.
      pose proof (trimEnd_keeps _ _ (trimStart_keeps _ _ Hin Hws) Hws) as Hk.
      unfold trim in E. rewrite E in Hk. contradiction.
  - apply Z.eqb_neq.
    assert (1 <= countClass isCJKExtended text); [|lia].
    apply countClass_pos. exists x. split; [exact Hin|].
    unfold isCJKExtended. rewrite Hx. reflexivity.
Qed.

Lemma main_count_preserved (text : jsstring) :
  1 <= countClass isCJKMain text ->
  1 <= countClass isCJKIdeograph (preprocess text).
Proof.
  intros H.
  assert (H' : 1 <= countClass isCJKMain (preprocess text)).
  { unfold countClass in *. rewrite preprocess_sparing. exact H. }
  apply countClass_pos in H' as (x & Hin & Hx).
  apply countClass_pos. exists x. split; [exact Hin|].
  unfold isCJKIdeograph. rewrite Hx. reflexivity.
Qed.

(** ** The classifier *)

(** The text [http://] followed by U+3400, an ideograph of Extension A. *)
Definition urlWithIdeograph : jsstring := lit "http://" ++ [13312].

(** C9, as stated, fails: a text of eight code units that holds the
    ideograph U+3400 is classified as not Chinese, because the URL pattern
    takes the ideograph with it; and the one-character text U+3002, the
    ideographic full stop that the first count accepts, is rejected by the
    second count. *)
Lemma short_text_with_ideograph_rejected :
  jslength urlWithIdeograph <= 20
  /\ countClass isCJKIdeograph urlWithIdeograph = 1
  /\ preprocess urlWithIdeograph = []
  /\ detectChineseContent urlWithIdeograph = false
  /\ countClass isCJKExtended [12290] = 1
  /\ detectChineseContent [12290] = false.
Proof.
  vm_compute. repeat split; try reflexivity. discriminate.
Qed.

(** C9, amended.  A text of at most 20 code units is classified as Chinese
    exactly when its preprocessed form holds an ideograph of U+4E00-9FFF,
    U+3400-4DBF or U+F900-FAFF; it is whenever the text itself holds one of
    U+4E00-9FFF, as the two-character greeting does.  A longer text is not
    when, after preprocessing, fewer than a tenth of its code units and
    fewer than five are such ideographs and fewer than eight hundredths of
    the raw code units are in the wider class of the first count, as for a
    thousand Latin letters followed by one ideograph. *)
Theorem detectChineseContent_thresholds :
  (forall text,
      jslength text <= 20 ->
      (detectChineseContent text = true
       <-> 1 <= countClass isCJKIdeograph (preprocess text)))
  /\ (forall text,
         jslength text <= 20 -> 1 <= countClass isCJKMain text ->
         detectChineseContent text = true)
  /\ detectChineseContent [20320; 22909] = true
  /\ (forall text,
         20 < jslength text ->
         10 * countClass isCJKIdeograph (preprocess text)
           < jslength (preprocess text) ->
         100 * countClass isCJKExtended text < 8 * jslength text ->
         countClass isCJKIdeograph (preprocess text) < 5 ->
         detectChineseContent text = false)
  /\ detectChineseContent (repeat 97 1000 ++ [20320]) = false.
Proof.
  assert (Hshort : forall text,
             jslength text <= 20 ->
             1 <= countClass isCJKIdeograph (preprocess text) ->
             detectChineseContent text = true).
  { intros text Hlen Hcount. unfold detectChineseContent.
    destruct (guards_pass text Hcount) as [-> ->].
    apply Z.leb_le in Hcount, Hlen. rewrite Hcount, Hlen. reflexivity. }
  split; [|split; [|split; [|split]]].
  - intros text Hlen. split; [|apply Hshort, Hlen].
    unfold detectChineseContent.
    destruct ((jslength text =? 0) || (jslength (trim text) =? 0));
      [discriminate|].
    destruct (countClass isCJKExtended text =? 0); [discriminate|].
    destruct (1 <=? countClass isCJKIdeograph (preprocess text)) eqn:E;
      [|discriminate].
    intros _. apply Z.leb_le, E.
  - intros text Hlen Hmain. apply Hshort; [exact Hlen|].
    apply main_count_preserved, Hmain.
  - reflexivity.
  - intros text Hlen Hratio Hraw Hfew. unfold detectChineseContent.
    destruct ((jslength text =? 0) || (jslength (trim text) =? 0));
      [reflexivity|].
    destruct (countClass isCJKExtended text =? 0); [reflexivity|].
    destruct (1 <=? countClass isCJKIdeograph (preprocess text));
      [|reflexivity].
    assert (E1 : (jslength text <=? 20) = false) by (apply Z.leb_gt; lia).
    assert (E2 : (0 <? jslength (preprocess text)) = true).
    { apply Z.ltb_lt. unfold countClass in Hratio. lia. }
    assert (E3 : (0 <? jslength text) = true) by (apply Z.ltb_lt; lia).
    rewrite E1, E2, E3. unfold ratioAtLeast. cbn [andb].
    repeat (apply orb_false_iff; split); apply Z.leb_gt; lia.
  - vm_compute. reflexivity.
Qed.

(** A sentence of forty-five code units, one of them an ideograph. *)
Definition pangram : jsstring :=
  lit "the quick brown fox jumps over the lazy dog " ++ [20320].

Lemma detectChineseContent_thresholds_witness :
  detectChineseContent ([20320] ++ lit " ok") = true
  /\ 1 <= countClass isCJKIdeograph (preprocess ([20320] ++ lit " ok"))
  /\ jslength pangram = 45
  /\ detectChineseContent pangram = false.
Proof.
  destruct detectChineseContent_thresholds as (H1 & H2 & _ & H4 & _).
  assert (Ha : detectChineseContent ([20320] ++ lit " ok") = true).
  { apply H2; vm_compute; discriminate. }
  split; [exact Ha|]. split.
  - apply (proj1 (H1 ([20320] ++ lit " ok")
                     ltac:(vm_compute; discriminate))), Ha.
  - split; [reflexivity|].
    apply H4; vm_compute; reflexivity.
Defined.

End ClassifierFacts.

Module EstimateFacts.
Import Classifier.

Lemma countClass_app (p : char16 -> bool) (a b : jsstring) :
  countClass p (a ++ b) = countClass p a + countClass p b.
Proof.
  unfold countClass. rewrite filter_app, length_app. lia.
Qed.

Lemma countClass_range (p : char16 -> bool) (s : jsstring) :
  0 <= countClass p s <= jslength s.
Proof.
  unfold countClass, jslength. split; [lia|].
  apply inj_le. induction s as [|c s IH]; simpl; [lia|].
  destruct (p c); simpl; lia.
Qed.

Lemma jslength_app (a b : jsstring) :
  jslength (a ++ b) = jslength a + jslength b.
Proof. unfold jslength. rewrite length_app. lia. Qed.

(** X1.  The token estimate of a text lies between a quarter of its length
    and one and a half times its length, both rounded up; it is zero for
    the empty text only. *)
Theorem estimateTokens_bounds (text : jsstring) :
  jslength text <= 4 * estimateTokens text
  /\ 4 * estimateTokens text <= 6 * jslength text + 3
  /\ (estimateTokens text = 0 <-> text = []).
Proof.
  unfold estimateTokens.
  pose proof (countClass_range isCJKMain text) as Hc.
  assert (Hn : text = [] <-> jslength text = 0).
  { unfold jslength. destruct text; simpl List.length; split;
      try reflexivity; try discriminate; lia. }
  remember (countClass isCJKMain text) as c.
  remember (jslength text) as n.
  split; [|split].
  - Z.div_mod_to_equations. lia.
  - Z.div_mod_to_equations. lia.
  - rewrite Hn. split; intros H; Z.div_mod_to_equations; lia.
Qed.

(** X2.  Appending to a text never lowers its estimate, and the estimate
    of a concatenation is at most the sum of the estimates of its parts:
    a batch total computed item by item never undercounts the joined
    text. *)
Theorem estimateTokens_append (a b : jsstring) :
  estimateTokens a <= estimateTokens (a ++ b)
  /\ estimateTokens (a ++ b) <= estimateTokens a + estimateTokens b.
Proof.
  unfold estimateTokens. rewrite countClass_app, jslength_app.
  pose proof (countClass_range isCJKMain a) as Ha.
  pose proof (countClass_range isCJKMain b) as Hb.
  remember (countClass isCJKMain a) as ca.
  remember (countClass isCJKMain b) as cb.
  remember (jslength a) as na.
  remember (jslength b) as nb.
  split; Z.div_mod_to_equations; lia.
Qed.

End EstimateFacts.

Module SortFacts.
Import Middleware.

(** Higher priority first: every item is followed by items of its
    priority or less. *)
Fixpoint descending (l : list QueueItem.t) : Prop :=
  match l with
  | [] => True
  | x :: l' =>
      Forall (fun y => QueueItem.priority y <= QueueItem.priority x) l'
      /\ descending l'
  end.

Definition hasPriority (p : Z) (item : QueueItem.t) : bool :=
  QueueItem.priority item =? p.

Lemma insertByPriority_perm (x : QueueItem.t) (l : list QueueItem.t) :
  Permutation (insertByPriority x l) (x :: l).
Proof.
  induction l as [|y l IH]; simpl; [apply Permutation_refl|].
  destruct (QueueItem.priority x <? QueueItem.priority y).
  - eapply Permutation_trans; [apply perm_skip, IH|apply perm_swap].
  - apply Permutation_refl.
Qed.

Lemma sortByPriority_perm (l : list QueueItem.t) :
  Permutation (sortByPriority l) l.
Proof.
  induction l as [|x l IH]; simpl; [constructor|].
  eapply Permutation_trans; [apply insertByPriority_perm|].
  apply perm_skip, IH.
Qed.

Lemma insertByPriority_descending (x : QueueItem.t) (l : list QueueItem.t) :
  descending l -> descending (insertByPriority x l).
Proof.
  induction l as [|y l IH]; simpl; intros H.
  - split; [constructor|exact I].
  - destruct H as [Hy Hl].
    destruct (QueueItem.priority x <? QueueItem.priority y) eqn:E.
    + apply Z.ltb_lt in E. simpl. split; [|apply IH, Hl].
      eapply Permutation_Forall;
        [apply Permutation_sym, insertByPriority_perm|].
      constructor; [lia|exact Hy].
    + apply Z.ltb_ge in E. simpl. split; [|split; assumption].
      constructor; [exact E|].
      eapply Forall_impl; [|exact Hy]. intros z Hz. cbv beta in Hz. lia.
Qed.

Lemma sortByPriority_descending (l : list QueueItem.t) :
  descending (sortByPriority l).
Proof.
  induction l as [|x l IH]; simpl; [exact I|].
  apply insertByPriority_descending, IH.
Qed.

Lemma insertByPriority_tier (p : Z) (x : QueueItem.t) (l : list QueueItem.t) :
  filter (hasPriority p) (insertByPriority x l)
  = filter (hasPriority p) (x :: l).
Proof.
  induction l as [|y l IH]; [reflexivity|].
  cbn [insertByPriority].
  destruct (QueueItem.priority x <? QueueItem.priority y) eqn:E;
    [|reflexivity].
  apply Z.ltb_lt in E. cbn [filter] in *. rewrite IH.
  unfold hasPriority.
  destruct (QueueItem.priority x =? p) eqn:Ex;
    destruct (QueueItem.priority y =? p) eqn:Ey; try reflexivity.
  apply Z.eqb_eq in Ex, Ey. lia.
Qed.

(** A queue already in order is left as it is. *)
Lemma sortByPriority_fixed (l : list QueueItem.t) :
  descending l -> sortByPriority l = l.
Proof.
  induction l as [|x l IH]; [reflexivity|].
  intros [Hx Hl]. simpl. rewrite (IH Hl).
  destruct l as [|y l]; [reflexivity|].
  inversion Hx as [|? ? Hy _]; subst. simpl.
  assert (E : (QueueItem.priority x <? QueueItem.priority y) = false)
    by (apply Z.ltb_ge; exact Hy).
  rewrite E. reflexivity.
Qed.

Lemma sortByPriority_tier (p : Z) (l : list QueueItem.t) :
  filter (hasPriority p) (sortByPriority l) = filter (hasPriority p) l.
Proof.
  induction l as [|x l IH]; [reflexivity|].
  cbn [sortByPriority]. rewrite insertByPriority_tier.
  cbn [filter]. rewrite IH. reflexivity.
Qed.

(** X3.  The order in which a tick walks the queue: the sorted queue holds
    the same items, higher priority first, and within one priority the
    items stand in the order they were enqueued. *)
Theorem sortByPriority_stable (l : list QueueItem.t) :
  Permutation (sortByPriority l) l
  /\ descending (sortByPriority l)
  /\ (forall p, filter (hasPriority p) (sortByPriority l)
                = filter (hasPriority p) l).
Proof.
  split; [apply sortByPriority_perm|].
  split; [apply sortByPriority_descending|].
  intros p. apply sortByPriority_tier.
Qed.

End SortFacts.

Module BatchFacts.
Import Middleware SchedulerFacts SortFacts.

Lemma collectBatch_limits (cfg : RateLimitConfig.t) (now : Z)
      (items : list QueueItem.t) :
  forall (batchItems : list QueueItem.t) (r : RateState),
    let result :=
      fst (collectBatch cfg now items batchItems (batchTokens batchItems) r) in
    snd result = batchTokens (fst result)
    /\ Z.of_nat (List.length (fst result))
       <= Z.max (Z.of_nat (List.length batchItems))
                (RateLimitConfig.batchSize cfg)
    /\ (batchItems = []
        \/ 4 * batchTokens batchItems <= RateLimitConfig.tpm cfg ->
        fst result = []
        \/ 4 * batchTokens (fst result) <= RateLimitConfig.tpm cfg).
Proof.
  induction items as [|item items IH]; intros batchItems r; cbv zeta;
    cbn [collectBatch].
  { cbn [fst snd]. repeat split; [lia|tauto]. }
  destruct (RateLimitConfig.batchSize cfg
            <=? Z.of_nat (List.length batchItems)) eqn:E1.
  { cbn [fst snd]. repeat split; [lia|tauto]. }
  destruct (RateLimitConfig.tpm cfg
            <? 4 * (batchTokens batchItems + QueueItem.estimatedTokens item))
    eqn:E2.
  { cbn [fst snd]. repeat split; [lia|tauto]. }
  rewrite canMakeRequest_pruned.
  destruct (fst (canMakeRequest cfg now (QueueItem.estimatedTokens item) r)).
  - rewrite <- batchTokens_snoc.
    destruct (IH (batchItems ++ [item]) (pruned now r)) as (H1 & H2 & H3).
    apply Z.leb_gt in E1. apply Z.ltb_ge in E2.
    split; [exact H1|]. split.
    + rewrite length_app in H2. simpl List.length in H2. lia.
    + intros _. apply H3. right. rewrite batchTokens_snoc. exact E2.
  - cbn [fst snd]. repeat split; [lia|tauto].
Qed.

(** X4.  Whatever the queue and the state of the limiter, the batch a tick
    assembles holds at most [batchSize] items and, when it is not empty, at
    most a quarter of [tpm] in estimated tokens; the running total the loop
    keeps is the token sum of the batch. *)
Theorem batch_within_limits (cfg : RateLimitConfig.t) (now : Z)
        (items : list QueueItem.t) (r : RateState) :
  let batchItems := fst (fst (collectBatch cfg now items [] 0 r)) in
  let total := snd (fst (collectBatch cfg now items [] 0 r)) in
  Z.of_nat (List.length batchItems) <= Z.max 0 (RateLimitConfig.batchSize cfg)
  /\ (batchItems = []
      \/ 4 * batchTokens batchItems <= RateLimitConfig.tpm cfg)
  /\ total = batchTokens batchItems.
Proof.
  cbv zeta.
  destruct (collectBatch_limits cfg now items [] r) as (H1 & H2 & H3).
  change (batchTokens []) with 0 in *. cbv zeta in *.
  split; [exact H2|]. split; [|exact H1].
  apply H3. left. reflexivity.
Qed.

Section Host.

Variable toLowerCase : jsstring -> jsstring.

(** X5.  A request that misses the cache and arrives at an idle scheduler
    with an empty queue is dispatched at once, in a batch of its own,
    provided the limiter admits it, its estimate is within a quarter of
    [tpm] and [batchSize] is at least one: the request is recorded with its
    estimate and the batch is in flight before [queueTranslation]
    returns its promise. *)
Theorem idle_enqueue_dispatches
        (now : Z) (itemId text lang : jsstring) (priority : Z) (st : State) :
  isProcessingQueue st = false ->
  translationQueue st = [] ->
  truthy (fst (getFromCache toLowerCase now text lang (cache st))) = false ->
  fst (canMakeRequest (rateLimitConfig st) now (estimateTokens text) (rate st))
  = true ->
  4 * estimateTokens text <= RateLimitConfig.tpm (rateLimitConfig st) ->
  1 <= RateLimitConfig.batchSize (rateLimitConfig st) ->
  let item := QueueItem.mk (nextHandle st) itemId text lang priority
                           (estimateTokens text) now in
  let st' := snd (queueTranslation toLowerCase now itemId text lang priority st) in
  fst (queueTranslation toLowerCase now itemId text lang priority st) = None
  /\ isProcessingQueue st' = true
  /\ inFlight st' = [item]
  /\ translationQueue st' = [item]
  /\ rate st' = recordRequest now (estimateTokens text) (pruned now (rate st)).
Proof.
  intros Hidle Hempty Hmiss Hok Htpm Hsize. cbv zeta.
  unfold queueTranslation.
  destruct (getFromCache toLowerCase now text lang (cache st)) as [cached c1].
  cbn [fst] in Hmiss. rewrite Hmiss.
  cbn [QueueItem.estimatedTokens].
  rewrite canMakeRequest_pruned, Hok, Hidle, Hempty.
  cbn [fst snd andb negb app].
  unfold processQueue_start.
  cbn [isProcessingQueue translationQueue rateLimitConfig rate orb
       List.length sortByPriority insertByPriority collectBatch
       QueueItem.estimatedTokens].
  assert (E1 : (RateLimitConfig.batchSize (rateLimitConfig st) <=? Z.of_nat 0)
               = false) by (apply Z.leb_gt; simpl; lia).
  assert (E2 : (RateLimitConfig.tpm (rateLimitConfig st)
                <? 4 * (0 + estimateTokens text)) = false)
    by (apply Z.ltb_ge; lia).
  change (Z.of_nat 1 =? 0) with false. cbn [orb].
  rewrite E1, E2, canMakeRequest_pruned, canMakeRequest_after_pruning, Hok.
  cbn [fst snd app collectBatch inFlight isProcessingQueue translationQueue
       rate].
  rewrite pruned_idem. unfold batchTokens. cbn [fold_left QueueItem.estimatedTokens].
  repeat split.
Qed.

End Host.

End BatchFacts.

Module BlockingFacts.
Import Middleware SchedulerFacts SortFacts BatchFacts.

Lemma idle_enqueue_dispatches_witness :
  isProcessingQueue
    (snd (queueTranslation asciiLower 0 (lit "id") [20320; 22909] (lit "en") 3
                           initialState)) = true
  /\ map QueueItem.estimatedTokens
       (inFlight (snd (queueTranslation asciiLower 0 (lit "id") [20320; 22909]
                                        (lit "en") 3 initialState))) = [3].
Proof.
  destruct (idle_enqueue_dispatches asciiLower 0 (lit "id") [20320; 22909]
              (lit "en") 3 initialState eq_refl eq_refl eq_refl eq_refl)
    as (_ & H1 & H2 & _).
  - vm_compute. discriminate.
  - vm_compute. discriminate.
  - split; [exact H1|]. rewrite H2. reflexivity.
Defined.

(** The head of the sorted queue is [item]. *)
Definition headIs (item : QueueItem.t) (queue : list QueueItem.t) : Prop :=
  exists rest, sortByPriority queue = item :: rest.

Lemma descending_head_max (x : QueueItem.t) (l : list QueueItem.t)
      (y : QueueItem.t) :
  descending (x :: l) -> In y (x :: l) ->
  QueueItem.priority y <= QueueItem.priority x.
Proof.
  intros [Hx _] [<-|Hin]; [lia|].
  rewrite Forall_forall in Hx. apply Hx, Hin.
Qed.

Lemma headIs_snoc (item new : QueueItem.t) (queue : list QueueItem.t) :
  headIs item queue ->
  QueueItem.priority new <= QueueItem.priority item ->
  headIs item (queue ++ [new]).
Proof.
  intros [rest Hsort] Hnew. unfold headIs.
  pose proof (sortByPriority_perm queue) as Hperm.
  pose proof (sortByPriority_descending queue) as Hdesc.
  rewrite Hsort in Hperm, Hdesc.
  pose proof (sortByPriority_perm (queue ++ [new])) as Hperm'.
  pose proof (sortByPriority_descending (queue ++ [new])) as Hdesc'.
  pose proof (sortByPriority_tier (QueueItem.priority item) (queue ++ [new]))
    as Htier'.
  pose proof (sortByPriority_tier (QueueItem.priority item) queue) as Htier.
  rewrite Hsort in Htier.
  destruct (sortByPriority (queue ++ [new])) as [|h t] eqn:E.
  { apply Permutation_nil in Hperm'. destruct queue; discriminate. }
  exists t. f_equal.
  assert (Hh : QueueItem.priority h = QueueItem.priority item).
  { apply Z.le_antisymm.
    - assert (Hin : In h (queue ++ [new])).
      { eapply Permutation_in; [exact Hperm'|]. left. reflexivity. }
      apply in_app_iff in Hin as [Hin|[<-|[]]]; [|exact Hnew].
      apply (descending_head_max item rest h Hdesc).
      eapply Permutation_in; [apply Permutation_sym, Hperm|exact Hin].
    - apply (descending_head_max h t item Hdesc').
      eapply Permutation_in; [apply Permutation_sym, Hperm'|].
      apply in_app_iff. left.
      eapply Permutation_in; [exact Hperm|]. left. reflexivity. }
  assert (Hitem : hasPriority (QueueItem.priority item) item = true)
    by apply Z.eqb_refl.
  assert (Hhp : hasPriority (QueueItem.priority item) h = true)
    by (unfold hasPriority; rewrite Hh; apply Z.eqb_refl).
  rewrite filter_app in Htier'. rewrite <- Htier in Htier'.
  cbn [filter] in Htier'. rewrite Hitem, Hhp in Htier'. cbn [app] in Htier'.
  injection Htier' as Hhead _. exact Hhead.
Qed.


(** The event enqueues nothing above the priority of [item]. *)
Definition noHigherThan (item : QueueItem.t) (ev : Event) : Prop :=
  match ev with
  | Enqueue _ _ _ _ priority => priority <= QueueItem.priority item
  | _ => True
  end.

(** No batch in flight, and the item a tick would try first is one whose
    estimate alone exceeds a quarter of [tpm]. *)
Definition blockedBy (item : QueueItem.t) (st : State) : Prop :=
  isProcessingQueue st = false
  /\ headIs item (translationQueue st)
  /\ RateLimitConfig.tpm (rateLimitConfig st)
     < 4 * QueueItem.estimatedTokens item.

Lemma headIs_nonempty (item : QueueItem.t) (queue : list QueueItem.t) :
  headIs item queue -> (Z.of_nat (List.length queue) =? 0) = false.
Proof.
  intros [rest Hsort]. destruct queue; [discriminate|reflexivity].
Qed.

(** A tick on a blocked scheduler sorts the queue and dispatches nothing. *)
Lemma processQueue_start_blocked (item : QueueItem.t) (now : Z) (st : State) :
  blockedBy item st ->
  processQueue_start now st
  = mkState (rateLimitConfig st) (rate st) (cache st)
            (sortByPriority (translationQueue st)) false [] (nextHandle st).
Proof.
  intros (Hidle & Hhead & Hbig). unfold processQueue_start.
  rewrite Hidle, (headIs_nonempty item _ Hhead). cbn [orb].
  destruct Hhead as [rest ->]. cbn [collectBatch].
  destruct (RateLimitConfig.batchSize (rateLimitConfig st)
            <=? Z.of_nat (List.length (@nil QueueItem.t))); [reflexivity|].
  assert (E : (RateLimitConfig.tpm (rateLimitConfig st)
               <? 4 * (0 + QueueItem.estimatedTokens item)) = true)
    by (apply Z.ltb_lt; lia).
  rewrite E. reflexivity.
Qed.

Lemma headIs_sorted (item : QueueItem.t) (queue : list QueueItem.t) :
  headIs item queue -> headIs item (sortByPriority queue).
Proof.
  intros [rest Hsort]. exists rest.
  rewrite sortByPriority_fixed; [exact Hsort|].
  apply sortByPriority_descending.
Qed.

Lemma incl_sorted (queue : list QueueItem.t) :
  incl queue (sortByPriority queue).
Proof.
  intros x Hx. eapply Permutation_in; [|exact Hx].
  apply Permutation_sym, sortByPriority_perm.
Qed.

Section Host.

Variable toLowerCase : jsstring -> jsstring.

Lemma step_blocked (item : QueueItem.t) (st : State) (ev : Event) :
  blockedBy item st -> noHigherThan item ev ->
  blockedBy item (step toLowerCase st ev)
  /\ incl (translationQueue st) (translationQueue (step toLowerCase st ev))
  /\ incl (requestTimes (rate (step toLowerCase st ev)))
          (requestTimes (rate st)).
Proof.
  intros Hb Hev. pose proof Hb as (Hidle & Hhead & Hbig).
  destruct ev as [now itemId text lang priority|now|translateText now];
    cbn [step noHigherThan] in *.
  - unfold queueTranslation.
    destruct (getFromCache toLowerCase now text lang (cache st))
      as [cached c1].
    destruct (truthy cached).
    { cbn [snd]. repeat split; try assumption; apply incl_refl. }
    rewrite canMakeRequest_pruned, Hidle.
    set (item' := QueueItem.mk (nextHandle st) itemId text lang priority
                               (estimateTokens text) now).
    set (st1 := mkState (rateLimitConfig st) (pruned now (rate st)) c1
                        (translationQueue st ++ [item']) false (inFlight st)
                        (S (nextHandle st))).
    assert (Hb1 : blockedBy item st1).
    { repeat split; [|exact Hbig]. apply headIs_snoc; assumption. }
    assert (Hpr : incl (requestTimes (pruned now (rate st)))
                       (requestTimes (rate st))).
    { intros x Hx. apply filter_In in Hx. apply Hx. }
    cbn [fst snd andb negb].
    destruct (fst (canMakeRequest (rateLimitConfig st) now
                     (QueueItem.estimatedTokens item') (rate st))).
    + cbn [andb snd]. rewrite (processQueue_start_blocked item now st1 Hb1).
      cbn [translationQueue rate rateLimitConfig st1].
      repeat split; cbn [isProcessingQueue translationQueue rateLimitConfig];
        try assumption.
      * apply headIs_sorted, headIs_snoc; assumption.
      * eapply incl_tran; [apply incl_appl, incl_refl|apply incl_sorted].
    + cbn [andb snd]. fold st1.
      repeat split; try apply Hb1; try assumption.
      apply incl_appl, incl_refl.
  - rewrite (processQueue_start_blocked item now st Hb).
    repeat split; cbn [isProcessingQueue translationQueue rateLimitConfig rate];
      try assumption.
    + apply headIs_sorted, Hhead.
    + apply incl_sorted.
    + apply incl_refl.
  - unfold processQueue_finish. rewrite Hidle. cbn [fst].
    repeat split; try assumption; apply incl_refl.
Qed.

(** X6.  Head-of-line blocking.  Once the item a tick would try first has
    an estimate above a quarter of [tpm] and no batch is in flight, no
    sequence of ticks, completions and enqueues at its priority or below
    ever dispatches anything again: the scheduler stays idle, that item
    stays first, every queued item stays queued, and no request is
    recorded. *)
Theorem oversized_head_blocks_queue
        (item : QueueItem.t) (evs : list Event) (st : State) :
  isProcessingQueue st = false ->
  (exists rest, sortByPriority (translationQueue st) = item :: rest) ->
  RateLimitConfig.tpm (rateLimitConfig st)
  < 4 * QueueItem.estimatedTokens item ->
  Forall (noHigherThan item) evs ->
  let st' := run toLowerCase evs st in
  isProcessingQueue st' = false
  /\ (exists rest, sortByPriority (translationQueue st') = item :: rest)
  /\ incl (translationQueue st) (translationQueue st')
  /\ incl (requestTimes (rate st')) (requestTimes (rate st)).
Proof.
  intros Hidle Hhead Hbig Hevs. cbv zeta.
  assert (Hb : blockedBy item st) by (repeat split; assumption).
  clear Hidle Hhead Hbig.
  revert st Hb. induction Hevs as [|ev evs Hev _ IH]; intros st Hb.
  - cbn [run fold_left]. destruct Hb as (H1 & H2 & _).
    repeat split; try assumption; apply incl_refl.
  - destruct (step_blocked item st ev Hb Hev) as (Hb' & Hq & Hr).
    destruct (IH _ Hb') as (H1 & H2 & H3 & H4).
    change (run toLowerCase (ev :: evs) st)
      with (run toLowerCase evs (step toLowerCase st ev)).
    repeat split; try assumption.
    + eapply incl_tran; eassumption.
    + eapply incl_tran; eassumption.
Qed.

End Host.

(** A message of 12501 ideographs, estimated at 18752 tokens, is enqueued
    on a fresh middleware; a short message follows. *)
Definition oversized : list Event :=
  [ Enqueue 0 (lit "a") (ideographs 12501) (lit "en") 3 ].

Definition afterOversized : list Event :=
  [ Tick 1000;
    Enqueue 1500 (lit "b") [20320; 22909] (lit "en") 3;
    Tick 2000 ].

Lemma oversized_head_blocks_queue_witness :
  isProcessingQueue
    (run asciiLower afterOversized (run asciiLower oversized initialState))
  = false
  /\ incl (translationQueue (run asciiLower oversized initialState))
          (translationQueue
             (run asciiLower afterOversized
                  (run asciiLower oversized initialState))).
Proof.
  destruct (oversized_head_blocks_queue asciiLower
              (QueueItem.mk 0 (lit "a") (ideographs 12501) (lit "en") 3
                            18752 0)
              afterOversized (run asciiLower oversized initialState))
    as (H1 & _ & H3 & _).
  - vm_compute. reflexivity.
  - exists []. vm_compute. reflexivity.
  - vm_compute. reflexivity.
  - repeat constructor; vm_compute; discriminate.
  - split; [exact H1|exact H3].
Defined.

End BlockingFacts.

Module CeilingFacts.
Import Middleware SchedulerFacts SortFacts BatchFacts EstimateFacts.

Lemma estimateTokens_nonneg (text : jsstring) : 0 <= estimateTokens text.
Proof.
  unfold estimateTokens.
  pose proof (countClass_range isCJKMain text) as Hc.
  Z.div_mod_to_equations. lia.
Qed.

Lemma fold_sum_shift (l : list TokenUsage.t) (a : Z) :
  fold_left (fun sum usage => sum + TokenUsage.tokens usage) l a
  = a + sumTokens l.
Proof.
  unfold sumTokens. revert a.
  induction l as [|u l IH]; intros a; cbn [fold_left]; [lia|].
  rewrite IH, (IH (0 + _)). lia.
Qed.

Lemma sumTokens_cons (u : TokenUsage.t) (l : list TokenUsage.t) :
  sumTokens (u :: l) = TokenUsage.tokens u + sumTokens l.
Proof.
  unfold sumTokens at 1. cbn [fold_left]. rewrite fold_sum_shift. lia.
Qed.

Lemma sumTokens_app (l l' : list TokenUsage.t) :
  sumTokens (l ++ l') = sumTokens l + sumTokens l'.
Proof.
  induction l as [|u l IH]; [reflexivity|].
  cbn [app]. rewrite !sumTokens_cons, IH. lia.
Qed.

Definition nonnegUsage (usage : TokenUsage.t) : Prop :=
  0 <= TokenUsage.tokens usage.

Definition nonnegItem (item : QueueItem.t) : Prop :=
  0 <= QueueItem.estimatedTokens item.

Definition recent (now : Z) (usage : TokenUsage.t) : bool :=
  inLastMinute now (TokenUsage.timestamp usage).

Lemma sumTokens_later (now now' : Z) (l : list TokenUsage.t) :
  now <= now' -> Forall nonnegUsage l ->
  sumTokens (filter (recent now') l) <= sumTokens (filter (recent now) l).
Proof.
  intros Hnow Hl. induction Hl as [|u l Hu _ IH]; [reflexivity|].
  cbn [filter].
  change (recent now' u) with (inLastMinute now' (TokenUsage.timestamp u)).
  change (recent now u) with (inLastMinute now (TokenUsage.timestamp u)).
  destruct (inLastMinute now' (TokenUsage.timestamp u)) eqn:E.
  - rewrite (inLastMinute_later now now' _ Hnow E), !sumTokens_cons. lia.
  - destruct (inLastMinute now (TokenUsage.timestamp u));
      [rewrite sumTokens_cons; unfold nonnegUsage in Hu; lia|exact IH].
Qed.

Lemma usage_later (now now' : Z) (r : RateState) :
  now <= now' -> Forall nonnegUsage (tokenUsage r) ->
  tokenUsageLastMinute now' r <= tokenUsageLastMinute now r.
Proof. intros H Hr. apply sumTokens_later; assumption. Qed.

Lemma usage_pruned (now now' : Z) (r : RateState) :
  now <= now' ->
  tokenUsageLastMinute now' (pruned now r) = tokenUsageLastMinute now' r.
Proof.
  intros H. unfold tokenUsageLastMinute, pruned. cbn [tokenUsage].
  rewrite filter_filter_weaker; [reflexivity|].
  intros x. apply inLastMinute_later, H.
Qed.

Lemma usage_recorded (now now' tokens : Z) (r : RateState) :
  0 <= tokens ->
  tokenUsageLastMinute now' (recordRequest now tokens r)
  <= tokenUsageLastMinute now' r + tokens.
Proof.
  intros Ht. unfold tokenUsageLastMinute, recordRequest. cbn [tokenUsage].
  rewrite filter_app, sumTokens_app. cbn [filter TokenUsage.timestamp].
  destruct (inLastMinute now' now);
    [rewrite sumTokens_cons; cbn [TokenUsage.tokens]|];
    change (sumTokens []) with 0; lia.
Qed.

Lemma admitted_below_tpm (cfg : RateLimitConfig.t) (now tokens : Z)
      (r : RateState) :
  fst (canMakeRequest cfg now tokens r) = true ->
  tokenUsageLastMinute now r + tokens <= RateLimitConfig.tpm cfg.
Proof.
  unfold canMakeRequest, tokenUsageLastMinute.
  destruct (RateLimitConfig.rpm cfg <=? _); [discriminate|].
  destruct (RateLimitConfig.tpm cfg <? _) eqn:E; [discriminate|].
  intros _. apply Z.ltb_ge, E.
Qed.

Lemma batchTokens_nonneg (items : list QueueItem.t) :
  Forall nonnegItem items -> 0 <= batchTokens items.
Proof.
  induction items as [|x items IH] using rev_ind; intros H;
    [reflexivity|].
  rewrite batchTokens_snoc. apply Forall_app in H as [H1 H2].
  inversion H2; subst. unfold nonnegItem in *. specialize (IH H1). lia.
Qed.

(** The token estimates on record and in the queue are not negative. *)
Definition NonNeg (st : State) : Prop :=
  Forall nonnegUsage (tokenUsage (rate st))
  /\ Forall nonnegItem (translationQueue st).

(** From time [t] on, the tokens recorded within the trailing minute are
    at most five quarters of [tpm]. *)
Definition TokensWithin (st : State) (t : Z) : Prop :=
  forall now,
    t <= now ->
    4 * tokenUsageLastMinute now (rate st)
    <= 5 * RateLimitConfig.tpm (rateLimitConfig st).

Lemma processQueue_start_tokens (st : State) (t now : Z) :
  NonNeg st -> TokensWithin st t -> t <= now ->
  NonNeg (processQueue_start now st)
  /\ TokensWithin (processQueue_start now st) now.
Proof.
  intros [Hu Hq] Hin Ht. unfold processQueue_start.
  destruct (isProcessingQueue st
            || (Z.of_nat (List.length (translationQueue st)) =? 0)).
  { split; [split; assumption|]. intros now' Hnow'. apply Hin. lia. }
  assert (Hsorted : Forall nonnegItem (sortByPriority (translationQueue st))).
  { eapply Permutation_Forall;
      [apply Permutation_sym, sortByPriority_perm|exact Hq]. }
  pose proof (collectBatch_prefix (rateLimitConfig st) now
                (sortByPriority (translationQueue st)) [] (rate st))
    as (taken & rest & Hsplit & Hbatch & Hall & _).
  pose proof (collectBatch_limits (rateLimitConfig st) now
                (sortByPriority (translationQueue st)) [] (rate st))
    as (_ & _ & Hlim).
  pose proof (collectBatch_rate (rateLimitConfig st) now
                (sortByPriority (translationQueue st)) [] 0 (rate st)) as Hrate.
  change (batchTokens []) with 0 in Hbatch, Hlim. cbv zeta in Hlim.
  destruct (collectBatch (rateLimitConfig st) now
              (sortByPriority (translationQueue st)) [] 0 (rate st))
    as [[batchItems total] r1].
  cbn [fst snd app] in Hbatch, Hrate, Hlim. subst batchItems.
  assert (Hr1 : forall now', now <= now' ->
                  tokenUsageLastMinute now' r1
                  = tokenUsageLastMinute now' (rate st)).
  { intros now' Hnow'. destruct Hrate as [->| ->];
      [reflexivity|apply usage_pruned, Hnow']. }
  assert (Hu1 : Forall nonnegUsage (tokenUsage r1)).
  { destruct Hrate as [->| ->]; [exact Hu|].
    unfold pruned. cbn [tokenUsage]. apply Forall_forall.
    intros x Hx. apply filter_In in Hx. rewrite Forall_forall in Hu.
    apply Hu, Hx. }
  assert (Htaken : Forall nonnegItem taken).
  { rewrite Hsplit in Hsorted. apply Forall_app in Hsorted. apply Hsorted. }
  destruct taken as [|item taken].
  - split; [split; assumption|].
    intros now' Hnow'. cbn [rate rateLimitConfig].
    rewrite Hr1 by exact Hnow'. apply Hin. lia.
  - pose proof (batchTokens_nonneg _ Htaken) as Hsum.
    split.
    + split; [|exact Hsorted]. cbn [rate].
      unfold recordRequest. cbn [tokenUsage]. apply Forall_app.
      split; [exact Hu1|]. constructor; [exact Hsum|constructor].
    + intros now' Hnow'. cbn [rate rateLimitConfig].
      inversion Hall as [|? ? Hok _]; subst.
      apply admitted_below_tpm in Hok.
      inversion Htaken as [|? ? Hitem _]; subst. unfold nonnegItem in Hitem.
      pose proof (usage_recorded now now' _ r1 Hsum) as Hrec.
      pose proof (usage_later now now' (rate st) Hnow' Hu) as Hlater.
      rewrite Hr1 in Hrec by exact Hnow'.
      destruct Hlim as [Hnil|Hlim]; [left; reflexivity|discriminate|].
      lia.
Qed.

Section Host.

Variable toLowerCase : jsstring -> jsstring.

Lemma step_tokens (st : State) (ev : Event) (t : Z) :
  NonNeg st -> TokensWithin st t -> t <= eventTime ev ->
  NonNeg (step toLowerCase st ev)
  /\ TokensWithin (step toLowerCase st ev) (eventTime ev).
Proof.
  intros Hnn Hin Ht. pose proof Hnn as [Hu Hq].
  destruct ev as [now itemId text lang priority|now|api now];
    cbn [step eventTime] in *.
  - unfold queueTranslation.
    destruct (getFromCache toLowerCase now text lang (cache st))
      as [cachedResult c1].
    destruct (truthy cachedResult).
    { cbn [snd]. split; [exact Hnn|].
      intros now' Hnow'. cbn [rate rateLimitConfig]. apply Hin. lia. }
    rewrite canMakeRequest_pruned.
    set (st1 := mkState _ _ _ _ _ _ _).
    assert (Hnn1 : NonNeg st1).
    { split; unfold st1; cbn [rate translationQueue].
      - unfold pruned. cbn [tokenUsage]. apply Forall_forall.
        intros x Hx. apply filter_In in Hx. rewrite Forall_forall in Hu.
        apply Hu, Hx.
      - apply Forall_app. split; [exact Hq|].
        constructor; [|constructor]. apply estimateTokens_nonneg. }
    assert (H1 : TokensWithin st1 now).
    { intros now' Hnow'. unfold st1. cbn [rate rateLimitConfig].
      rewrite usage_pruned by exact Hnow'. apply Hin. lia. }
    cbn [snd].
    match goal with |- context [if ?b then _ else _] => destruct b end.
    + apply (processQueue_start_tokens st1 now now Hnn1 H1). lia.
    + split; assumption.
  - apply (processQueue_start_tokens st t now Hnn Hin Ht).
  - unfold processQueue_finish. destruct (isProcessingQueue st).
    + destruct (processGroups toLowerCase api _ _) as [[now1 c1] log].
      cbn [fst]. split.
      * split; [exact Hu|]. cbn [translationQueue].
        apply Forall_forall. intros x Hx. apply filter_In in Hx.
        rewrite Forall_forall in Hq. apply Hq, Hx.
      * intros now' Hnow'. cbn [rate rateLimitConfig].
        change (tokenUsageLastMinute now' (completeRequest (rate st)))
          with (tokenUsageLastMinute now' (rate st)).
        apply Hin. lia.
    + cbn [fst]. split; [exact Hnn|]. intros now' Hnow'. apply Hin. lia.
Qed.

Lemma run_tokens (evs : list Event) :
  forall (st : State) (t : Z),
    NonNeg st -> TokensWithin st t -> inOrder t evs ->
    TokensWithin (run toLowerCase evs st) (lastTime t evs).
Proof.
  induction evs as [|ev evs IH]; intros st t Hnn Hin Hord; [exact Hin|].
  destruct Hord as [Ht Hord].
  destruct (step_tokens st ev t Hnn Hin Ht) as [Hnn' Hstep].
  exact (IH _ _ Hnn' Hstep Hord).
Qed.

Lemma run_config (evs : list Event) (st : State) :
  rateLimitConfig (run toLowerCase evs st) = rateLimitConfig st.
Proof.
  revert st. induction evs as [|ev evs IH]; intros st; [reflexivity|].
  cbn [run fold_left]. fold (run toLowerCase evs (step toLowerCase st ev)).
  rewrite IH.
  assert (Hq : forall now s,
             rateLimitConfig (processQueue_start now s) = rateLimitConfig s).
  { intros now s. unfold processQueue_start.
    destruct (isProcessingQueue s || _); [reflexivity|].
    destruct (collectBatch _ _ _ _ _ _) as [[[|b bs] ?] ?]; reflexivity. }
  destruct ev as [now itemId text lang priority|now|api now]; cbn [step].
  - unfold queueTranslation.
    destruct (getFromCache toLowerCase now text lang (cache st)) as [cr c1].
    destruct (truthy cr); [reflexivity|].
    destruct (canMakeRequest _ _ _ _) as [ok r1]. cbn [snd].
    destruct (ok && negb (isProcessingQueue st)); [|reflexivity].
    rewrite Hq. reflexivity.
  - apply Hq.
  - unfold processQueue_finish. destruct (isProcessingQueue st); [|reflexivity].
    destruct (processGroups toLowerCase api _ _) as [[now1 c1] log].
    reflexivity.
Qed.

(** X7.  What the limiter does guarantee.  Whatever is enqueued, ticked
    and completed, in the order of time, on a fresh middleware: at the
    time of the last event and ever after, the requests recorded within
    the trailing 60 seconds are at most [rpm] and the tokens recorded
    within them are at most five quarters of [tpm]. *)
Theorem trailing_minute_ceilings (evs : list Event) (t now : Z) :
  inOrder t evs -> lastTime t evs <= now ->
  requestsLastMinute now (rate (run toLowerCase evs initialState))
  <= RateLimitConfig.rpm defaultRateLimitConfig
  /\ 4 * tokenUsageLastMinute now (rate (run toLowerCase evs initialState))
     <= 5 * RateLimitConfig.tpm defaultRateLimitConfig.
Proof.
  intros Hord Hnow.
  split; [apply (request_ceiling toLowerCase evs t now Hord Hnow)|].
  assert (Hnn : NonNeg initialState) by (split; constructor).
  assert (H0 : TokensWithin initialState t).
  { intros now' _. vm_compute. discriminate. }
  pose proof (run_tokens evs initialState t Hnn H0 Hord now Hnow) as H.
  rewrite run_config in H. exact H.
Qed.

End Host.

Lemma trailing_minute_ceilings_witness :
  requestsLastMinute 4000 (rate loaded) <= 950
  /\ 4 * tokenUsageLastMinute 4000 (rate loaded) <= 5 * 75000.
Proof.
  apply (trailing_minute_ceilings asciiLower fourBatches 0 4000).
  - vm_compute. repeat split; discriminate.
  - vm_compute. discriminate.
Defined.

End CeilingFacts.

Module QueueFacts.
Import Middleware SchedulerFacts SortFacts DedupFacts.

Definition handles (items : list QueueItem.t) : list nat :=
  map QueueItem.handle items.

Lemma inBatch_spec (batchItems : list QueueItem.t) (item : QueueItem.t) :
  inBatch batchItems item = true
  <-> In (QueueItem.handle item) (handles batchItems).
Proof.
  unfold inBatch, handles. rewrite existsb_exists, in_map_iff.
  split; intros (b & H1 & H2).
  - exists b. apply Nat.eqb_eq in H2. auto.
  - exists b. split; [exact H2|]. apply Nat.eqb_eq, H1.
Qed.

Lemma filter_none {A} (f : A -> bool) (l : list A) :
  (forall x, In x l -> f x = false) -> filter f l = [].
Proof.
  induction l as [|x l IH]; intros H; [reflexivity|].
  cbn [filter]. rewrite (H x (or_introl eq_refl)).
  apply IH. intros y Hy. apply H. right. exact Hy.
Qed.

Lemma filter_all {A} (f : A -> bool) (l : list A) :
  (forall x, In x l -> f x = true) -> filter f l = l.
Proof.
  induction l as [|x l IH]; intros H; [reflexivity|].
  cbn [filter]. rewrite (H x (or_introl eq_refl)). f_equal.
  apply IH. intros y Hy. apply H. right. exact Hy.
Qed.

Lemma NoDup_app_disjoint {A} (l l' : list A) (x : A) :
  NoDup (l ++ l') -> In x l -> In x l' -> False.
Proof.
  induction l as [|y l IH]; intros Hnd Hl Hl'; [contradiction|].
  cbn [app] in Hnd. inversion Hnd as [|? ? Hy Hrest]; subst.
  destruct Hl as [->|Hl]; [|exact (IH Hrest Hl Hl')].
  apply Hy, in_app_iff. right. exact Hl'.
Qed.

(** With distinct handles, filtering the batch out of a queue that begins
    with it leaves what stood behind it. *)
Lemma filter_out_batch (batchItems rest : list QueueItem.t) :
  NoDup (handles (batchItems ++ rest)) ->
  filter (fun item => negb (inBatch batchItems item)) (batchItems ++ rest)
  = rest.
Proof.
  intros Hnd. rewrite filter_app.
  rewrite filter_none, filter_all; [reflexivity| |].
  - intros x Hx. destruct (inBatch batchItems x) eqn:E; [|reflexivity].
    apply inBatch_spec in E. exfalso.
    unfold handles in Hnd. rewrite map_app in Hnd.
    apply (NoDup_app_disjoint _ _ _ Hnd E), in_map, Hx.
  - intros x Hx. apply negb_false_iff, inBatch_spec, in_map, Hx.
Qed.

(** What holds of the scheduler in every state it reaches. *)
Definition Inv (st : State) : Prop :=
  NoDup (handles (translationQueue st))
  /\ Forall (fun item => (QueueItem.handle item < nextHandle st)%nat)
            (translationQueue st)
  /\ (if isProcessingQueue st
      then activeRequests (rate st) = 1
           /\ inFlight st <> []
           /\ exists rest, translationQueue st = inFlight st ++ rest
      else activeRequests (rate st) = 0 /\ inFlight st = []).

Lemma processQueue_start_inv (now : Z) (st : State) :
  Inv st -> Inv (processQueue_start now st)
            /\ nextHandle (processQueue_start now st) = nextHandle st.
Proof.
  intros (Hnd & Hlt & Hflag). unfold processQueue_start.
  destruct (isProcessingQueue st) eqn:Eflag; cbn [orb].
  { split; [|reflexivity]. repeat split; try assumption.
    rewrite Eflag. exact Hflag. }
  destruct (Z.of_nat (List.length (translationQueue st)) =? 0).
  { split; [|reflexivity]. repeat split; try assumption.
    rewrite Eflag. exact Hflag. }
  destruct Hflag as [Hactive _].
  pose proof (sortByPriority_perm (translationQueue st)) as Hperm.
  assert (Hnd' : NoDup (handles (sortByPriority (translationQueue st)))).
  { eapply Permutation_NoDup; [|exact Hnd].
    apply Permutation_map, Permutation_sym, Hperm. }
  assert (Hlt' : Forall (fun item => (QueueItem.handle item < nextHandle st)%nat)
                        (sortByPriority (translationQueue st))).
  { eapply Permutation_Forall; [apply Permutation_sym, Hperm|exact Hlt]. }
  pose proof (collectBatch_prefix (rateLimitConfig st) now
                (sortByPriority (translationQueue st)) [] (rate st))
    as (taken & rest & Hsplit & Hbatch & _ & _).
  pose proof (collectBatch_rate (rateLimitConfig st) now
                (sortByPriority (translationQueue st)) [] 0 (rate st)) as Hrate.
  change (batchTokens []) with 0 in Hbatch.
  destruct (collectBatch (rateLimitConfig st) now
              (sortByPriority (translationQueue st)) [] 0 (rate st))
    as [[batchItems total] r1].
  cbn [fst snd app] in Hbatch, Hrate. subst batchItems.
  assert (Hr1 : activeRequests r1 = 0).
  { destruct Hrate as [->| ->]; exact Hactive. }
  destruct taken as [|item taken]; (split; [|reflexivity]).
  - repeat split; cbn [translationQueue nextHandle isProcessingQueue rate
                       inFlight]; assumption.
  - repeat split; cbn [translationQueue nextHandle isProcessingQueue rate
                       inFlight recordRequest activeRequests];
      try assumption.
    + rewrite Hr1. reflexivity.
    + discriminate.
    + exists rest. exact Hsplit.
Qed.

Section Host.

Variable toLowerCase : jsstring -> jsstring.

Lemma step_inv (st : State) (ev : Event) :
  Inv st -> Inv (step toLowerCase st ev).
Proof.
  intros Hinv. pose proof Hinv as (Hnd & Hlt & Hflag).
  destruct ev as [now itemId text lang priority|now|api now]; cbn [step].
  - unfold queueTranslation.
    destruct (getFromCache toLowerCase now text lang (cache st))
      as [cachedResult c1].
    destruct (truthy cachedResult); [exact Hinv|].
    rewrite canMakeRequest_pruned.
    set (st1 := mkState _ _ _ _ _ _ _).
    assert (H1 : Inv st1).
    { unfold st1. repeat split;
        cbn [translationQueue nextHandle isProcessingQueue rate inFlight].
      - unfold handles. rewrite map_app. apply NoDup_snoc; [exact Hnd|].
        cbn [map QueueItem.handle]. intros Hin.
        apply in_map_iff in Hin as (x & Hx & Hin).
        rewrite Forall_forall in Hlt. specialize (Hlt _ Hin). lia.
      - apply Forall_app. split.
        + eapply Forall_impl; [|exact Hlt]. intros x Hx. cbv beta in Hx. lia.
        + constructor; [cbn [QueueItem.handle]; lia|constructor].
      - destruct (isProcessingQueue st).
        + destruct Hflag as (Ha & Hne & rest & Hq).
          repeat split; [exact Ha|exact Hne|].
          exists (rest ++ [QueueItem.mk (nextHandle st) itemId text lang
                                         priority (estimateTokens text) now]).
          rewrite Hq, app_assoc. reflexivity.
        + exact Hflag. }
    cbn [snd].
    match goal with |- context [if ?b then _ else _] => destruct b end;
      [apply processQueue_start_inv, H1|exact H1].
  - apply processQueue_start_inv, Hinv.
  - unfold processQueue_finish.
    destruct (isProcessingQueue st); [|exact Hinv].
    destruct (processGroups toLowerCase api _ _) as [[now1 c1] log].
    cbn [fst]. destruct Hflag as (Ha & _ & rest & Hq).
    rewrite Hq in Hnd, Hlt |- *. rewrite (filter_out_batch _ _ Hnd).
    repeat split;
      cbn [translationQueue nextHandle isProcessingQueue rate inFlight
           completeRequest activeRequests].
    + unfold handles in *. rewrite map_app in Hnd.
      apply NoDup_app_remove_l in Hnd. exact Hnd.
    + apply Forall_app in Hlt. apply Hlt.
    + rewrite Ha. reflexivity.
Qed.

Lemma run_inv (evs : list Event) (st : State) :
  Inv st -> Inv (run toLowerCase evs st).
Proof.
  revert st. induction evs as [|ev evs IH]; intros st H; [exact H|].
  apply (IH (step toLowerCase st ev)), step_inv, H.
Qed.

Lemma initial_inv : Inv initialState.
Proof. repeat split; constructor. Qed.


(** X9.  Completion removes the batch and nothing else.  In every state a
    fresh middleware reaches, the queue items carry distinct handles; while
    a batch is in flight it stands at the front of the queue, in order; and
    when it completes, whatever the capability answers, every item of the
    batch is settled, the queue is left with exactly the items behind the
    batch, and the scheduler is idle again. *)
Theorem completion_removes_the_batch
        (evs : list Event) (translateText : TranslateText) (now : Z) :
  let st := run toLowerCase evs initialState in
  let st' := fst (processQueue_finish toLowerCase translateText now st) in
  let log := snd (processQueue_finish toLowerCase translateText now st) in
  NoDup (handles (translationQueue st))
  /\ translationQueue st = inFlight st ++ translationQueue st'
  /\ Permutation (map fst (settled log)) (inFlight st)
  /\ isProcessingQueue st' = false.
Proof.
  cbv zeta.
  pose proof (run_inv evs initialState initial_inv) as (Hnd & _ & Hflag).
  split; [exact Hnd|].
  unfold processQueue_finish.
  destruct (isProcessingQueue (run toLowerCase evs initialState)) eqn:Eflag.
  - destruct Hflag as (_ & _ & rest & Hq).
    destruct (groupItems_ok toLowerCase
                (inFlight (run toLowerCase evs initialState)))
      as (Hwf & Hall & Hperm).
    assert (Hlog0 : LogOK toLowerCase [] (mkLog [] [])).
    { repeat split; try constructor; contradiction. }
    destruct (processGroups_ok toLowerCase translateText
                (groupItems toLowerCase
                   (inFlight (run toLowerCase evs initialState)))
                now (cache (run toLowerCase evs initialState))
                (mkLog [] []) [] Hwf Hall Hlog0) as [_ Hsettled].
    destruct (processGroups toLowerCase translateText _ _)
      as [[now1 c1] log].
    cbn [fst snd translationQueue isProcessingQueue] in *.
    rewrite Hq in Hnd. rewrite Hq at 2. rewrite (filter_out_batch _ _ Hnd).
    repeat split; [exact Hq|].
    rewrite Hsettled. exact Hperm.
  - destruct Hflag as (_ & He). cbn [fst snd settled map]. rewrite He.
    repeat split; [constructor|exact Eflag].
Qed.

End Host.

End QueueFacts.

Module TrimFacts.

Definition blank (s : jsstring) : Prop := forallb isWhiteSpace s = true.

Lemma trimStart_blank (ws : jsstring) : blank ws -> trimStart ws = [].
Proof.
  unfold blank. induction ws as [|c ws IH]; [reflexivity|].
  cbn [forallb trimStart]. intros H. apply andb_true_iff in H as [-> H].
  apply IH, H.
Qed.

Lemma trimEnd_blank (ws : jsstring) : blank ws -> trimEnd ws = [].
Proof.
  unfold blank. induction ws as [|c ws IH]; [reflexivity|].
  cbn [forallb trimEnd]. intros H. apply andb_true_iff in H as [-> H].
  rewrite (IH H). reflexivity.
Qed.

Lemma trimStart_app_blank (ws s : jsstring) :
  blank ws -> trimStart (ws ++ s) = trimStart s.
Proof.
  unfold blank. induction ws as [|c ws IH]; [reflexivity|].
  cbn [forallb app trimStart]. intros H.
  apply andb_true_iff in H as [-> H]. apply IH, H.
Qed.

Lemma trimEnd_app_blank (s ws : jsstring) :
  blank ws -> trimEnd (s ++ ws) = trimEnd s.
Proof.
  intros H. induction s as [|c s IH].
  - apply trimEnd_blank, H.
  - cbn [app trimEnd]. rewrite IH. reflexivity.
Qed.

Lemma trimStart_app_end (s ws : jsstring) :
  blank ws -> trimEnd (trimStart (s ++ ws)) = trimEnd (trimStart s).
Proof.
  intros H. induction s as [|c s IH].
  - cbn [app]. rewrite (trimStart_blank ws H). reflexivity.
  - cbn [app trimStart]. destruct (isWhiteSpace c); [exact IH|].
    apply (trimEnd_app_blank (c :: s) ws H).
Qed.

Lemma trim_padding (ws s ws' : jsstring) :
  blank ws -> blank ws' -> trim (ws ++ s ++ ws') = trim s.
Proof.
  intros H H'. unfold trim.
  rewrite trimStart_app_blank by exact H. apply trimStart_app_end, H'.
Qed.

Lemma trimEnd_idem (s : jsstring) : trimEnd (trimEnd s) = trimEnd s.
Proof.
  induction s as [|c s IH]; [reflexivity|].
  cbn [trimEnd]. destruct (trimEnd s) as [|d t] eqn:E.
  - destruct (isWhiteSpace c) eqn:Ec; [reflexivity|].
    cbn [trimEnd]. rewrite Ec. reflexivity.
  - cbn [trimEnd] in *. rewrite IH. reflexivity.
Qed.

Lemma trimStart_head (s : jsstring) :
  trimStart s = []
  \/ exists c t, trimStart s = c :: t /\ isWhiteSpace c = false.
Proof.
  induction s as [|c s IH]; [left; reflexivity|].
  cbn [trimStart]. destruct (isWhiteSpace c) eqn:E; [exact IH|].
  right. exists c, s. auto.
Qed.

Lemma trimStart_trim (s : jsstring) : trimStart (trim s) = trim s.
Proof.
  unfold trim. destruct (trimStart_head s) as [->|(c & t & -> & Hc)];
    [reflexivity|].
  cbn [trimEnd]. destruct (trimEnd t); rewrite ?Hc; cbn [trimStart];
    rewrite Hc; reflexivity.
Qed.

Lemma trim_idem (s : jsstring) : trim (trim s) = trim s.
Proof.
  unfold trim at 1. rewrite trimStart_trim. unfold trim. apply trimEnd_idem.
Qed.

End TrimFacts.

Module CacheKeyFacts.
Import Middleware JsStringFacts JsMapFacts CacheFacts TrimFacts MiddlewareMore.

Lemma colon_split (l1 l2 t1 t2 : jsstring) :
  ~ In 58 l1 -> ~ In 58 l2 ->
  l1 ++ 58 :: t1 = l2 ++ 58 :: t2 -> l1 = l2 /\ t1 = t2.
Proof.
  revert l2. induction l1 as [|c l1 IH]; intros [|d l2] H1 H2 H;
    cbn [app] in H.
  - injection H as ->. auto.
  - injection H as <- _. exfalso. apply H2. left. reflexivity.
  - injection H as -> _. exfalso. apply H1. left. reflexivity.
  - injection H as -> H.
    destruct (IH l2) as [-> ->]; auto.
    + intros Hin. apply H1. right. exact Hin.
    + intros Hin. apply H2. right. exact Hin.
Qed.

Section Host.

Variable toLowerCase : jsstring -> jsstring.

Local Abbreviation getCacheKey := (Middleware.getCacheKey toLowerCase).
Local Abbreviation getFromCache := (Middleware.getFromCache toLowerCase).
Local Abbreviation storeToCache := (Middleware.storeToCache toLowerCase).

Lemma getCacheKey_padding (ws text ws' lang : jsstring) :
  blank ws -> blank ws' ->
  getCacheKey (ws ++ text ++ ws') lang = getCacheKey text lang.
Proof.
  intros H H'. unfold Middleware.getCacheKey.
  rewrite trim_padding by assumption. reflexivity.
Qed.

(** X10.  What a cache key identifies.  White space around the text does
    not change the key, and the key of the trimmed text is the key of the
    text.  For target languages written without a colon, two requests
    have one key only if they name the same target language and their
    trimmed texts have the same lower-case form. *)
Theorem cache_key_identifies (text lang : jsstring) :
  (forall ws ws',
      blank ws -> blank ws' ->
      getCacheKey (ws ++ text ++ ws') lang = getCacheKey text lang)
  /\ getCacheKey (trim text) lang = getCacheKey text lang
  /\ (forall text' lang',
         ~ In 58 lang -> ~ In 58 lang' ->
         getCacheKey text lang = getCacheKey text' lang' ->
         lang = lang'
         /\ toLowerCase (trim text) = toLowerCase (trim text')).
Proof.
  split; [|split].
  - intros ws ws'. apply getCacheKey_padding.
  - unfold Middleware.getCacheKey. rewrite trim_idem. reflexivity.
  - intros text' lang' H H'. unfold Middleware.getCacheKey. cbn [app].
    apply colon_split; assumption.
Qed.

(** X11.  Round trip through the cache.  What [storeToCache] stored for a
    text at [T] is what [getFromCache] returns for that text, with any
    white space around it, at every time before [T] plus one hour; the
    lookup counts one hit and leaves the entries as they are. *)
Theorem stored_translation_is_returned
        (T now : Z) (text lang result : jsstring) (tokens : Z)
        (c : CacheState) (ws ws' : jsstring) :
  blank ws -> blank ws' -> now - T < cacheTtl ->
  let stored := storeToCache T text lang result tokens c in
  getFromCache now (ws ++ text ++ ws') lang stored
  = (Some result,
     mkCache (translationCache stored) (cacheHitCount c + 1)
             (cacheMissCount c)).
Proof.
  intros H H' Hfresh. cbv zeta. unfold Middleware.getFromCache.
  rewrite getCacheKey_padding by assumption.
  unfold Middleware.storeToCache at 1. cbn [translationCache].
  rewrite get_set_same. cbn [CacheEntry.timestamp CacheEntry.result].
  assert (E : (now - T <? cacheTtl) = true) by (apply Z.ltb_lt; exact Hfresh).
  rewrite E. reflexivity.
Qed.

End Host.

Lemma cache_key_identifies_witness :
  Middleware.getCacheKey asciiLower (lit "  Hello" ++ [10]) (lit "zh")
  = Middleware.getCacheKey asciiLower (lit "Hello") (lit "zh")
  /\ lit "zh" = lit "zh"
  /\ asciiLower (trim (lit "Hello")) = asciiLower (trim (lit " hello")).
Proof.
  destruct (cache_key_identifies asciiLower (lit "Hello") (lit "zh"))
    as (H1 & _ & H3).
  split.
  - apply (H1 (lit "  ") [10]); reflexivity.
  - apply (H3 (lit " hello") (lit "zh")).
    + vm_compute. intuition discriminate.
    + vm_compute. intuition discriminate.
    + reflexivity.
Defined.

Lemma stored_translation_is_returned_witness :
  fst (Middleware.getFromCache asciiLower 3599999
         (lit " " ++ lit "Hello" ++ [10]) (lit "zh")
         (Middleware.storeToCache asciiLower 0 (lit "Hello") (lit "zh")
                                  [20320; 22909] 2 initialCache))
  = Some [20320; 22909].
Proof.
  rewrite (stored_translation_is_returned asciiLower 0 3599999 (lit "Hello")
             (lit "zh") [20320; 22909] 2 initialCache (lit " ") [10]);
    reflexivity.
Defined.

End CacheKeyFacts.

Module CleanupFacts.
Import Middleware JsStringFacts JsMapFacts CacheFacts MiddlewareMore.

Definition deleteAll {V} (ks : list jsstring) (m : JsMap.t V) : JsMap.t V :=
  fold_left (fun m key => JsMap.delete key m) ks m.

Lemma deleteAll_skip {V} (ks : list jsstring) (k : jsstring) (v : V)
      (m : JsMap.t V) :
  ~ In k ks -> deleteAll ks ((k, v) :: m) = (k, v) :: deleteAll ks m.
Proof.
  revert m. induction ks as [|k' ks IH]; intros m H; [reflexivity|].
  cbn [deleteAll fold_left JsMap.delete].
  assert (E : JsString.eqb k' k = false).
  { apply eqb_neq. intros ->. apply H. left. reflexivity. }
  rewrite E. apply IH. intros Hin. apply H. right. exact Hin.
Qed.

(** Deleting the collected keys one by one keeps exactly the entries that
    were not collected, in their order. *)
Lemma cleanup_filter (now : Z) (m : JsMap.t CacheEntry.t) :
  wf m ->
  deleteAll (map fst (filter (isExpired now) m)) m
  = filter (fun kv => negb (isExpired now kv)) m.
Proof.
  unfold wf. induction m as [|[k v] m IH]; intros Hwf; [reflexivity|].
  cbn [JsMap.keys map] in Hwf. inversion Hwf as [|? ? Hk Hm]; subst.
  cbn [filter]. destruct (isExpired now (k, v)) eqn:E; cbn [negb map fst].
  - cbn [deleteAll fold_left]. rewrite delete_head. apply IH, Hm.
  - rewrite deleteAll_skip; [f_equal; apply IH, Hm|].
    intros Hin. apply Hk. apply in_map_iff in Hin as (kv & <- & Hin).
    apply filter_In in Hin. apply in_map, Hin.
Qed.

Lemma get_filter {V} (p : jsstring * V -> bool) (k : jsstring)
      (m : JsMap.t V) :
  wf m ->
  JsMap.get k (filter p m)
  = match JsMap.get k m with
    | Some v => if p (k, v) then Some v else None
    | None => None
    end.
Proof.
  unfold wf. induction m as [|[k' v'] m IH]; intros Hwf; [reflexivity|].
  cbn [JsMap.keys map] in Hwf. inversion Hwf as [|? ? Hk Hm]; subst.
  cbn [filter JsMap.get fst].
  destruct (JsString.eqb k k') eqn:E.
  - apply eqb_spec in E. subst k'.
    destruct (p (k, v')); cbn [JsMap.get]; [rewrite eqb_refl; reflexivity|].
    rewrite (IH Hm).
    assert (Hnone : JsMap.get k m = None) by (apply get_none_notin, Hk).
    rewrite Hnone. reflexivity.
  - destruct (p (k', v')); cbn [JsMap.get]; rewrite ?E; apply IH, Hm.
Qed.

Section Host.

Variable toLowerCase : jsstring -> jsstring.

Local Abbreviation getFromCache := (Middleware.getFromCache toLowerCase).

(** X12.  The periodic cleanup.  In a cache where every key occurs once,
    [cleanupCache] keeps exactly the entries stored at most one hour
    before, in their order, and leaves the counters alone; and a lookup
    made at the time of the cleanup answers the same with and without
    it. *)
Theorem cleanupCache_keeps_fresh_entries (now : Z) (c : CacheState) :
  wf (translationCache c) ->
  translationCache (cleanupCache now c)
  = filter (fun kv => now - CacheEntry.timestamp (snd kv) <=? cacheTtl)
           (translationCache c)
  /\ cacheHitCount (cleanupCache now c) = cacheHitCount c
  /\ cacheMissCount (cleanupCache now c) = cacheMissCount c
  /\ (forall text lang,
         fst (getFromCache now text lang (cleanupCache now c))
         = fst (getFromCache now text lang c)).
Proof.
  intros Hwf.
  assert (Hmap : translationCache (cleanupCache now c)
                 = filter (fun kv => negb (isExpired now kv))
                          (translationCache c)).
  { unfold cleanupCache. cbn [translationCache].
    apply (cleanup_filter now _ Hwf). }
  split; [|split; [reflexivity|split; [reflexivity|]]].
  - rewrite Hmap. apply filter_ext. intros kv. unfold isExpired.
    rewrite Z.leb_antisym. reflexivity.
  - intros text lang. unfold Middleware.getFromCache.
    rewrite Hmap, get_filter by exact Hwf.
    destruct (JsMap.get _ (translationCache c)) as [entry|]; [|reflexivity].
    unfold isExpired. cbn [snd].
    destruct (cacheTtl <? now - CacheEntry.timestamp entry) eqn:E;
      cbn [negb].
    + assert (E' : (now - CacheEntry.timestamp entry <? cacheTtl) = false)
        by (apply Z.ltb_ge; apply Z.ltb_lt in E; lia).
      rewrite E'. reflexivity.
    + destruct (now - CacheEntry.timestamp entry <? cacheTtl); reflexivity.
Qed.

End Host.

Lemma cleanupCache_keeps_fresh_entries_witness :
  map fst (translationCache (cleanupCache 3600002 (afterPuts asciiLower threePuts)))
  = [lit "zh:two"; lit "zh:three"].
Proof.
  assert (Hwf : wf (translationCache (afterPuts asciiLower threePuts))).
  { apply distinctKeys_NoDup. vm_compute. reflexivity. }
  rewrite (proj1 (cleanupCache_keeps_fresh_entries asciiLower 3600002
                    (afterPuts asciiLower threePuts) Hwf)).
  reflexivity.
Defined.

End CleanupFacts.

Module CachingFacts.
Import Middleware JsStringFacts JsMapFacts CacheFacts DedupFacts.

Section Host.

Variable toLowerCase : jsstring -> jsstring.

Local Abbreviation getCacheKey := (Middleware.getCacheKey toLowerCase).
Local Abbreviation getFromCache := (Middleware.getFromCache toLowerCase).
Local Abbreviation storeToCache := (Middleware.storeToCache toLowerCase).
Local Abbreviation processGroup := (Middleware.processGroup toLowerCase).
Local Abbreviation queueTranslation :=
  (Middleware.queueTranslation toLowerCase).

(** The cache a group leaves behind. *)
Definition cacheAfter (translateText : TranslateText)
           (duplicateItems : list QueueItem.t) (now : Z) (c : CacheState)
  : CacheState :=
  snd (fst (processGroup translateText duplicateItems (now, c, mkLog [] []))).

Lemma getFromCache_same_key (now : Z) (text text' lang : jsstring)
      (c : CacheState) :
  getCacheKey text' lang = getCacheKey text lang ->
  getFromCache now text' lang c = getFromCache now text lang c.
Proof. intros H. unfold Middleware.getFromCache. rewrite H. reflexivity. Qed.

(** X13.  A translation is fetched once an hour.  When a group misses the
    cache and the capability answers with a non-empty text, every request
    of the same cache key made within one hour of the answer is served
    that text by [queueTranslation] at once: nothing is queued and the
    limiter is not consulted. *)
Theorem answered_from_cache_within_the_hour
        (translateText : TranslateText) (firstItem : QueueItem.t)
        (others : list QueueItem.t) (now now' : Z) (c : CacheState)
        (translated : jsstring)
        (later : Z) (itemId text' : jsstring) (priority : Z) (st : State) :
  truthy (fst (getFromCache now (QueueItem.text firstItem)
                 (QueueItem.targetLanguage firstItem) c)) = false ->
  translateText now (QueueItem.text firstItem)
                (QueueItem.targetLanguage firstItem)
  = (Returned translated, now') ->
  translated <> [] ->
  getCacheKey text' (QueueItem.targetLanguage firstItem)
  = getCacheKey (QueueItem.text firstItem)
                (QueueItem.targetLanguage firstItem) ->
  later - now' < cacheTtl ->
  cache st = cacheAfter translateText (firstItem :: others) now c ->
  let result :=
    queueTranslation later itemId text' (QueueItem.targetLanguage firstItem)
                     priority st in
  fst result = Some translated
  /\ translationQueue (snd result) = translationQueue st
  /\ rate (snd result) = rate st
  /\ isProcessingQueue (snd result) = isProcessingQueue st.
Proof.
  intros Hmiss Hcall Hne Hkey Hfresh Hcache. cbv zeta.
  assert (Hstored : exists c1,
             cache st
             = storeToCache now' (QueueItem.text firstItem)
                 (QueueItem.targetLanguage firstItem) translated
                 (QueueItem.estimatedTokens firstItem) c1).
  { rewrite Hcache. unfold cacheAfter, Middleware.processGroup.
    destruct (getFromCache now (QueueItem.text firstItem)
                (QueueItem.targetLanguage firstItem) c) as [cached c1].
    cbn [fst] in Hmiss. rewrite Hmiss. cbn [negb]. rewrite Hcall.
    destruct translated as [|ch translated]; [contradiction|].
    cbn [truthy stringOf fst snd]. exists c1. reflexivity. }
  destruct Hstored as [c1 Hstored].
  unfold Middleware.queueTranslation.
  rewrite (getFromCache_same_key later _ _ _ _ Hkey), Hstored.
  unfold Middleware.getFromCache, Middleware.storeToCache.
  cbn [translationCache]. rewrite get_set_same.
  cbn [CacheEntry.timestamp CacheEntry.result].
  assert (E : (later - now' <? cacheTtl) = true)
    by (apply Z.ltb_lt; exact Hfresh).
  rewrite E. destruct translated as [|ch translated]; [contradiction|].
  cbn [truthy fst snd translationQueue rate isProcessingQueue].
  repeat split.
Qed.

(** X14.  A failure is not cached.  In a cache where every key occurs
    once, when a group misses the cache and the capability throws or
    answers with the empty text, no later lookup under the key of the
    group finds a usable entry: the next request for it gets a pending
    promise from [queueTranslation], not an answer. *)
Theorem failure_is_not_cached
        (translateText : TranslateText) (firstItem : QueueItem.t)
        (others : list QueueItem.t) (now now' : Z) (c : CacheState)
        (reply : Completion jsstring)
        (later : Z) (itemId : jsstring) (priority : Z) (st : State) :
  wf (translationCache c) ->
  truthy (fst (getFromCache now (QueueItem.text firstItem)
                 (QueueItem.targetLanguage firstItem) c)) = false ->
  translateText now (QueueItem.text firstItem)
                (QueueItem.targetLanguage firstItem)
  = (reply, now') ->
  (forall translated, reply = Returned translated -> translated = []) ->
  cache st = cacheAfter translateText (firstItem :: others) now c ->
  truthy (fst (getFromCache later (QueueItem.text firstItem)
                 (QueueItem.targetLanguage firstItem) (cache st))) = false
  /\ fst (queueTranslation later itemId (QueueItem.text firstItem)
            (QueueItem.targetLanguage firstItem) priority st) = None.
Proof.
  intros Hwf Hmiss Hcall Hfail Hcache.
  assert (Hlookup :
            truthy (fst (getFromCache later (QueueItem.text firstItem)
                           (QueueItem.targetLanguage firstItem) (cache st)))
            = false).
  { rewrite Hcache. unfold cacheAfter, Middleware.processGroup.
    assert (Hc1 : truthy (fst (getFromCache later (QueueItem.text firstItem)
                                 (QueueItem.targetLanguage firstItem)
                                 (snd (getFromCache now
                                         (QueueItem.text firstItem)
                                         (QueueItem.targetLanguage firstItem)
                                         c)))) = false).
    { revert Hmiss. unfold Middleware.getFromCache.
      destruct (JsMap.get _ (translationCache c)) as [entry|] eqn:Eget.
      - destruct (now - CacheEntry.timestamp entry <? cacheTtl).
        + cbn [fst snd translationCache]. intros Hempty. rewrite Eget.
          destruct (later - CacheEntry.timestamp entry <? cacheTtl);
            [exact Hempty|reflexivity].
        + intros _. cbn [fst snd translationCache].
          rewrite (get_delete_same _ _ Hwf). reflexivity.
      - intros _. cbn [fst snd translationCache]. rewrite Eget. reflexivity. }
    destruct (getFromCache now (QueueItem.text firstItem)
                (QueueItem.targetLanguage firstItem) c) as [cached c1].
    cbn [fst snd] in Hmiss, Hc1. rewrite Hmiss. cbn [negb]. rewrite Hcall.
    destruct reply as [translated|error].
    - rewrite (Hfail translated eq_refl). cbn [truthy fst snd]. exact Hc1.
    - cbn [fst snd]. exact Hc1. }
  split; [exact Hlookup|].
  unfold Middleware.queueTranslation.
  destruct (getFromCache later (QueueItem.text firstItem)
              (QueueItem.targetLanguage firstItem) (cache st))
    as [cached c1].
  cbn [fst] in Hlookup. rewrite Hlookup.
  destruct (canMakeRequest _ _ _ _) as [ok r1]. reflexivity.
Qed.

End Host.

(** An idle scheduler whose cache is the one a batch of one greeting left
    behind. *)
Definition afterGreeting (translateText : TranslateText) : State :=
  mkState defaultRateLimitConfig initialRate
          (cacheAfter asciiLower translateText [sampleItem 0 (lit "Hello")]
                      0 initialCache)
          [] false [] 1.

Lemma answered_from_cache_within_the_hour_witness :
  fst (Middleware.queueTranslation asciiLower 1000 (lit "id") (lit " hello ")
         (lit "zh") 2 (afterGreeting echo))
  = Some (lit "Hello!")
  /\ translationQueue
       (snd (Middleware.queueTranslation asciiLower 1000 (lit "id")
               (lit " hello ") (lit "zh") 2 (afterGreeting echo))) = [].
Proof.
  destruct (answered_from_cache_within_the_hour asciiLower echo
              (sampleItem 0 (lit "Hello")) [] 0 5 initialCache (lit "Hello!")
              1000 (lit "id") (lit " hello ") 2 (afterGreeting echo))
    as (H1 & H2 & _); try reflexivity.
  - discriminate.
  - split; [exact H1|exact H2].
Defined.

Lemma failure_is_not_cached_witness :
  fst (Middleware.queueTranslation asciiLower 1000 (lit "id") (lit "Hello")
         (lit "zh") 2 (afterGreeting OrchestratorFacts.outOfQuota))
  = None.
Proof.
  apply (failure_is_not_cached asciiLower OrchestratorFacts.outOfQuota
           (sampleItem 0 (lit "Hello")) [] 0 30 initialCache
           (Thrown (JsErr (lit "quota"))) 1000 (lit "id") 2
           (afterGreeting OrchestratorFacts.outOfQuota)).
  - constructor.
  - reflexivity.
  - reflexivity.
  - intros translated H. discriminate H.
  - reflexivity.
Defined.

End CachingFacts.

Module EntryPointFacts.
Import Middleware SlashCommand JsStringFacts MiddlewareMore.

Section Host.

Variable toLowerCase : jsstring -> jsstring.
Variable detectTextLanguage : jsstring -> Completion jsstring.

Local Abbreviation translateUserInput :=
  (Middleware.translateUserInput toLowerCase detectTextLanguage).
Local Abbreviation translateOrdinaryInput :=
  (Middleware.translateOrdinaryInput toLowerCase detectTextLanguage).
Local Abbreviation detectLanguage :=
  (Middleware.detectLanguage detectTextLanguage).
Local Abbreviation translateClaudeResponse :=
  (MiddlewareMore.translateClaudeResponse detectTextLanguage).
Local Abbreviation translateErrorMessage :=
  (MiddlewareMore.translateErrorMessage detectTextLanguage).
Local Abbreviation translateErrorMessages :=
  (MiddlewareMore.translateErrorMessages detectTextLanguage).

(** [shouldTranslate] of [translateUserInput]. *)
Definition shouldTranslate (userInput : jsstring) : bool :=
  detectChineseContent userInput
  || (startsWith (lit "zh") (toLowerCase (detectLanguage userInput))
      && negb (forallb (fun c => c <=? 127) userInput)).

Lemma translateOrdinaryInput_direct (userInput : jsstring) :
  shouldTranslate userInput = false ->
  translateOrdinaryInput userInput
  = ret (untranslated userInput (detectLanguage userInput)).
Proof.
  unfold Middleware.translateOrdinaryInput, shouldTranslate.
  intros ->. reflexivity.
Qed.

Lemma translateOrdinaryInput_queued (userInput : jsstring) :
  shouldTranslate userInput = true ->
  exists k,
    translateOrdinaryInput userInput = AwaitQueue userInput (lit "en") 3 k
    /\ (forall e,
           k (Thrown e) = ret (untranslated userInput (detectLanguage userInput)))
    /\ (forall r,
           k (Returned r)
           = if truthy (Some r)
                && negb (JsString.eqb (trim r) (trim userInput))
             then ret (mkResult r userInput true (detectLanguage userInput))
             else ret (untranslated userInput (detectLanguage userInput))).
Proof.
  unfold Middleware.translateOrdinaryInput, shouldTranslate.
  intros ->. cbn [awaitQueueTranslation bind tryCatch].
  eexists. split; [reflexivity|]. split.
  - intros e. reflexivity.
  - intros r. cbn [bind tryCatch].
    destruct (truthy (Some r)
              && negb (JsString.eqb (trim r) (trim userInput)));
      reflexivity.
Qed.

(** X15.  What [translateUserInput] returns.  Whatever the input, the
    configuration and the way the queued translation settles, the call
    returns a result whose [originalText] is the input; when
    [wasTranslated] is false the text returned is the input itself; and
    [wasTranslated] is true only with translation enabled, for an input
    that is no control command, and for a translation that is not empty
    and differs from the input after trimming. *)
Theorem translateUserInput_result_contract
        (enabled : bool) (userInput : jsstring) :
  always
    (fun r =>
       originalText r = userInput
       /\ (wasTranslated r = false -> translatedText r = userInput)
       /\ (wasTranslated r = true ->
           enabled = true
           /\ isSlashCommand userInput = false
           /\ translatedText r <> []
           /\ trim (translatedText r) <> trim userInput))
    (translateUserInput enabled userInput).
Proof.
  assert (Hplain : forall language,
             originalText (untranslated userInput language) = userInput
             /\ (wasTranslated (untranslated userInput language) = false ->
                 translatedText (untranslated userInput language) = userInput)
             /\ (wasTranslated (untranslated userInput language) = true ->
                 enabled = true
                 /\ isSlashCommand userInput = false
                 /\ translatedText (untranslated userInput language) <> []
                 /\ trim (translatedText (untranslated userInput language))
                    <> trim userInput)).
  { intros language. cbn [untranslated originalText wasTranslated
                          translatedText].
    split; [reflexivity|]. split; [reflexivity|discriminate]. }
  unfold Middleware.translateUserInput.
  destruct (isSlashCommand userInput) eqn:Eslash; [apply Hplain|].
  destruct enabled; cbn [negb]; [|apply Hplain].
  destruct (shouldTranslate userInput) eqn:Eshould.
  - destruct (translateOrdinaryInput_queued userInput Eshould)
      as (k & -> & Hthrow & Hret).
    cbn [always]. intros [r|e]; [|rewrite Hthrow; apply Hplain].
    rewrite Hret.
    destruct (truthy (Some r)) eqn:Etruthy; cbn [andb]; [|apply Hplain].
    destruct (JsString.eqb (trim r) (trim userInput)) eqn:Eeq; cbn [negb];
      [apply Hplain|].
    cbn [always ret originalText wasTranslated translatedText].
    split; [reflexivity|]. split; [discriminate|]. intros _.
    repeat split.
    + intros ->. discriminate.
    + apply eqb_neq, Eeq.
  - rewrite (translateOrdinaryInput_direct userInput Eshould). apply Hplain.
Qed.

(** The response is long enough, translation is enabled and the response
    was detected as English. *)
Definition responseIsQueued (enabled : bool) (claudeResponse : jsstring)
  : bool :=
  enabled && (3 <=? jslength (trim claudeResponse))
  && JsString.eqb (detectLanguage claudeResponse) (lit "en").

Lemma trim_length_le (s : jsstring) : jslength (trim s) <= jslength s.
Proof.
  assert (Hend : forall t, (List.length (trimEnd t) <= List.length t)%nat).
  { induction t as [|c t IH]; [constructor|].
    cbn [trimEnd]. destruct (trimEnd t) as [|d u].
    - destruct (isWhiteSpace c); simpl; lia.
    - simpl in *. lia. }
  assert (Hstart : forall t, (List.length (trimStart t) <= List.length t)%nat).
  { induction t as [|c t IH]; [constructor|].
    cbn [trimStart]. destruct (isWhiteSpace c); simpl; lia. }
  unfold trim, jslength. specialize (Hend (trimStart s)).
  specialize (Hstart s). lia.
Qed.

Lemma translateClaudeResponse_direct
      (enabled : bool) (claudeResponse : jsstring) :
  responseIsQueued enabled claudeResponse = false ->
  exists language,
    translateClaudeResponse enabled claudeResponse
    = ret (untranslated claudeResponse language).
Proof.
  unfold responseIsQueued, MiddlewareMore.translateClaudeResponse.
  pose proof (trim_length_le claudeResponse) as Hle.
  intros H.
  destruct ((jslength claudeResponse =? 0)
            || (jslength (trim claudeResponse) =? 0)); [eauto|].
  destruct (jslength (trim claudeResponse) <? 3) eqn:E3; [eauto|].
  destruct enabled; cbn [negb]; [|eauto].
  rewrite Z.leb_antisym, E3 in H. cbn [negb andb] in H. rewrite H.
  cbn [tryCatch]. eexists. reflexivity.
Qed.

Lemma translateClaudeResponse_queued
      (enabled : bool) (claudeResponse : jsstring) :
  responseIsQueued enabled claudeResponse = true ->
  exists k,
    translateClaudeResponse enabled claudeResponse
    = AwaitQueue claudeResponse (lit "zh") 2 k
    /\ (forall e, k (Thrown e)
                  = ret (untranslated claudeResponse
                                      (detectLanguage claudeResponse)))
    /\ (forall r, k (Returned r)
                  = ret (mkResult r claudeResponse true
                                  (detectLanguage claudeResponse))).
Proof.
  unfold responseIsQueued, MiddlewareMore.translateClaudeResponse.
  intros H. apply andb_true_iff in H as [H Hen].
  apply andb_true_iff in H as [-> H3].
  assert (E0 : (jslength claudeResponse =? 0)
               || (jslength (trim claudeResponse) =? 0) = false).
  { pose proof (trim_length_le claudeResponse) as Hle.
    apply Z.leb_le in H3.
    apply orb_false_iff. split; apply Z.eqb_neq; lia. }
  assert (E3 : (jslength (trim claudeResponse) <? 3) = false)
    by (apply Z.ltb_ge, Z.leb_le, H3).
  rewrite E0, E3, Hen. cbn [negb awaitQueueTranslation bind tryCatch].
  eexists. split; [reflexivity|]. split; intros; reflexivity.
Qed.

(** X16.  What [translateClaudeResponse] returns and when it queues.  The
    call never throws and its result names the response as
    [originalText]; with [wasTranslated] false the text returned is the
    response itself.  It reaches the queue exactly when translation is
    enabled, the trimmed response has at least three code units and the
    detected language is ["en"]; the request is then for ["zh"] at
    priority 2, a rejection gives the response back, and whatever the
    queue resolves with, the empty text and the response itself
    included, is returned with [wasTranslated] true. *)
Theorem translateClaudeResponse_contract
        (enabled : bool) (claudeResponse : jsstring) :
  always
    (fun r =>
       originalText r = claudeResponse
       /\ (wasTranslated r = false -> translatedText r = claudeResponse))
    (translateClaudeResponse enabled claudeResponse)
  /\ (queuesNothing (translateClaudeResponse enabled claudeResponse)
      <-> responseIsQueued enabled claudeResponse = false)
  /\ (responseIsQueued enabled claudeResponse = true ->
      exists k,
        translateClaudeResponse enabled claudeResponse
        = AwaitQueue claudeResponse (lit "zh") 2 k
        /\ (forall e,
               k (Thrown e)
               = ret (untranslated claudeResponse (lit "en")))
        /\ (forall r,
               k (Returned r)
               = ret (mkResult r claudeResponse true (lit "en")))).
Proof.
  destruct (responseIsQueued enabled claudeResponse) eqn:E.
  - destruct (translateClaudeResponse_queued enabled claudeResponse E)
      as (k & Hk & Hthrow & Hret).
    assert (Hen : detectLanguage claudeResponse = lit "en").
    { unfold responseIsQueued in E. apply andb_true_iff in E as [_ E].
      apply eqb_spec, E. }
    rewrite Hen in Hthrow, Hret.
    split; [|split].
    + rewrite Hk. cbn [always]. intros [r|e].
      * rewrite Hret. cbn. split; [reflexivity|discriminate].
      * rewrite Hthrow. cbn. split; reflexivity.
    + rewrite Hk. cbn [queuesNothing]. split; [contradiction|discriminate].
    + intros _. exists k. auto.
  - destruct (translateClaudeResponse_direct enabled claudeResponse E)
      as (language & ->).
    split; [|split].
    + cbn. split; reflexivity.
    + cbn [queuesNothing ret]. split; auto.
    + discriminate.
Qed.

Lemma translateErrorMessage_finish
      (enabled : bool) (message : jsstring) (o : Completion jsstring) :
  finish (translateErrorMessage enabled message) o = Returned message
  \/ exists r, o = Returned r /\ r <> []
               /\ finish (translateErrorMessage enabled message) o
                  = Returned r.
Proof.
  unfold MiddlewareMore.translateErrorMessage.
  destruct (negb enabled || (jslength message =? 0)
            || (jslength (trim message) =? 0)); [left; reflexivity|].
  destruct (JsString.eqb (detectLanguage message) (lit "en"));
    [|left; reflexivity].
  cbn [awaitQueueTranslation bind tryCatch finish].
  destruct o as [r|e]; cbn [bind tryCatch finish ret];
    [|left; reflexivity].
  destruct r as [|c r]; cbn [truthy]; [left; reflexivity|].
  right. exists (c :: r). repeat split. discriminate.
Qed.

(** X17.  [translateErrorMessage] never throws: it returns the message
    itself or, when the queue resolved with a non-empty text, that text.
    It reaches the queue only with translation enabled, for a message
    that is not blank and was detected as ["en"]; the request is then the
    message, for ["zh"], at priority 2. *)
Theorem translateErrorMessage_contract
        (enabled : bool) (message : jsstring) :
  always (fun r => r = message \/ r <> [])
         (translateErrorMessage enabled message)
  /\ (forall o,
         finish (translateErrorMessage enabled message) o = Returned message
         \/ exists r, o = Returned r /\ r <> []
                      /\ finish (translateErrorMessage enabled message) o
                         = Returned r)
  /\ match translateErrorMessage enabled message with
     | Done _ => True
     | AwaitQueue text lang priority _ =>
         text = message /\ lang = lit "zh" /\ priority = 2
         /\ enabled = true /\ trim message <> []
         /\ detectLanguage message = lit "en"
     end.
Proof.
  unfold MiddlewareMore.translateErrorMessage.
  destruct enabled; cbn [negb orb];
    [|split; [left; reflexivity|split; [left; reflexivity|exact I]]].
  destruct ((jslength message =? 0) || (jslength (trim message) =? 0))
    eqn:E0;
    [split; [left; reflexivity|split; [left; reflexivity|exact I]]|].
  destruct (JsString.eqb (detectLanguage message) (lit "en")) eqn:Een;
    [|split; [left; reflexivity|split; [left; reflexivity|exact I]]].
  cbn [awaitQueueTranslation bind tryCatch always finish].
  split; [|split].
  - intros [r|e]; cbn [bind tryCatch always ret].
    + destruct r as [|c r]; cbn [truthy]; [left; reflexivity|].
      right. discriminate.
    + left. reflexivity.
  - intros [r|e]; cbn [bind tryCatch finish ret].
    + destruct r as [|c r]; cbn [truthy]; [left; reflexivity|].
      right. exists (c :: r). repeat split. discriminate.
    + left. reflexivity.
  - repeat split.
    + apply orb_false_iff in E0 as [_ E0]. intros Hnil.
      rewrite Hnil in E0. discriminate.
    + apply eqb_spec, Een.
Qed.

Lemma promiseAll_map_Returned {A} (rs : list A) :
  promiseAll (map Returned rs) = Returned rs.
Proof.
  induction rs as [|r rs IH]; [reflexivity|].
  cbn [map promiseAll]. rewrite IH. reflexivity.
Qed.

Lemma promiseAll_Returned {A} (l : list (Completion A)) (rs : list A) :
  promiseAll l = Returned rs -> l = map Returned rs.
Proof.
  revert rs. induction l as [|[a|e] l IH]; intros rs H; cbn [promiseAll] in H.
  - injection H as <-. reflexivity.
  - destruct (promiseAll l) as [rest|e]; [|discriminate].
    injection H as <-. cbn [map]. f_equal. apply IH. reflexivity.
  - discriminate.
Qed.

Lemma promiseAll_Thrown {A} (l : list (Completion A)) (e : JsError) :
  In (Thrown e) l -> exists e', promiseAll l = Thrown e'.
Proof.
  induction l as [|[a|e0] l IH]; intros H; [contradiction| |].
  - destruct H as [H|H]; [discriminate|].
    destruct (IH H) as [e' He']. cbn [promiseAll]. rewrite He'. eauto.
  - cbn [promiseAll]. eauto.
Qed.

(** The results that stand where the valid texts stood, in order. *)
Definition validSlots (texts results : list jsstring) : list jsstring :=
  map snd (filter (fun p => isValidText (fst p)) (combine texts results)).

Lemma reassemble_length (texts translatedTexts : list jsstring) :
  List.length (reassemble texts translatedTexts) = List.length texts.
Proof.
  revert translatedTexts. induction texts as [|t texts IH];
    intros translatedTexts; [reflexivity|].
  cbn [reassemble]. destruct (isValidText t).
  - destruct translatedTexts; cbn [List.length]; rewrite IH; reflexivity.
  - cbn [List.length]. rewrite IH. reflexivity.
Qed.

Lemma reassemble_blank (texts translatedTexts : list jsstring) :
  Forall2 (fun original result => isValidText original = false ->
                                  result = original)
          texts (reassemble texts translatedTexts).
Proof.
  revert translatedTexts. induction texts as [|t texts IH];
    intros translatedTexts; [constructor|].
  cbn [reassemble]. destruct (isValidText t) eqn:E.
  - destruct translatedTexts; (constructor; [congruence|apply IH]).
  - constructor; [reflexivity|apply IH].
Qed.

Lemma reassemble_valid (texts translatedTexts : list jsstring) :
  List.length translatedTexts = List.length (filter isValidText texts) ->
  validSlots texts (reassemble texts translatedTexts) = translatedTexts.
Proof.
  unfold validSlots. revert translatedTexts.
  induction texts as [|t texts IH]; intros translatedTexts H.
  - destruct translatedTexts; [reflexivity|discriminate].
  - cbn [reassemble filter] in *. destruct (isValidText t) eqn:E.
    + destruct translatedTexts as [|r rs]; [discriminate|].
      cbn [combine filter fst]. rewrite E. cbn [map snd]. f_equal.
      apply IH. cbn [List.length] in H. lia.
    + cbn [combine filter fst]. rewrite E. apply IH, H.
Qed.

Lemma Forall2_same {A} (P : A -> A -> Prop) (l : list A) :
  (forall x, P x x) -> Forall2 P l l.
Proof. intros H. induction l; constructor; auto. Qed.

(** X18.  [translateBatch] is all or nothing.  The result has one entry
    per text and leaves every blank text where it was.  It is the list of
    texts itself when translation is disabled, when no text is valid, or
    when the translation of any one valid text was rejected; otherwise
    every valid text is replaced, in order, by what its own request
    resolved with. *)
Theorem translateBatch_all_or_nothing
        (enabled : bool) (texts : list jsstring)
        (outcome : nat -> Completion jsstring) :
  let validTexts := filter isValidText texts in
  let result := translateBatch enabled texts outcome in
  List.length result = List.length texts
  /\ Forall2 (fun original translated =>
                isValidText original = false -> translated = original)
             texts result
  /\ (enabled = false \/ validTexts = []
      \/ (exists i e, (i < List.length validTexts)%nat
                      /\ outcome i = Thrown e) ->
      result = texts)
  /\ (forall translatedTexts,
         enabled = true ->
         map outcome (seq 0 (List.length validTexts))
         = map Returned translatedTexts ->
         validSlots texts result = translatedTexts).
Proof.
  cbv zeta. unfold translateBatch.
  assert (Hsame : Forall2 (fun original translated : jsstring =>
                             isValidText original = false ->
                             translated = original) texts texts)
    by (apply Forall2_same; reflexivity).
  split; [|split; [|split]].
  - destruct enabled; cbn [negb]; [|reflexivity].
    destruct (filter isValidText texts); [reflexivity|].
    destruct (promiseAll _); [apply reassemble_length|reflexivity].
  - destruct enabled; cbn [negb]; [|exact Hsame].
    destruct (filter isValidText texts); [exact Hsame|].
    destruct (promiseAll _); [apply reassemble_blank|exact Hsame].
  - intros [->|[Hnone|(i & e & Hi & Hthrown)]]; [reflexivity| |].
    + destruct enabled; cbn [negb]; [|reflexivity].
      rewrite Hnone. reflexivity.
    + destruct enabled; cbn [negb]; [|reflexivity].
      destruct (filter isValidText texts) as [|v vs] eqn:Ev; [reflexivity|].
      destruct (promiseAll_Thrown
                  (map outcome (seq 0 (List.length (v :: vs)))) e)
        as [e' ->]; [|reflexivity].
      rewrite <- Hthrown. apply in_map, in_seq. lia.
  - intros translatedTexts -> Hall. cbn [negb].
    assert (Hlen : List.length translatedTexts
                   = List.length (filter isValidText texts)).
    { apply (f_equal (@List.length _)) in Hall.
      rewrite !length_map, length_seq in Hall. symmetry. exact Hall. }
    destruct (filter isValidText texts) as [|v vs] eqn:Ev.
    + destruct translatedTexts; [|discriminate].
      unfold validSlots.
      assert (Hnone : forall l : list jsstring,
                 filter isValidText l = [] ->
                 filter (fun p : jsstring * jsstring => isValidText (fst p))
                        (combine l l) = []).
      { induction l as [|x l IH]; [reflexivity|].
        cbn [filter combine fst]. destruct (isValidText x); [discriminate|].
        exact IH. }
      rewrite (Hnone texts Ev). reflexivity.
    + rewrite Hall, promiseAll_map_Returned.
      apply reassemble_valid. rewrite Ev. exact Hlen.
Qed.

Lemma errorMessages_settle (messages : list jsstring)
      (outcome : nat -> Completion jsstring) (start : nat) :
  exists results,
    promiseAll
      (map (fun im : nat * jsstring =>
              finish (translateErrorMessage true (snd im)) (outcome (fst im)))
           (combine (seq start (List.length messages)) messages))
    = Returned results
    /\ Forall2 (fun message result => result = message \/ result <> [])
               messages results.
Proof.
  revert start. induction messages as [|message messages IH]; intros start.
  - exists []. split; [reflexivity|constructor].
  - cbn [List.length seq combine map promiseAll fst snd].
    destruct (IH (S start)) as (rest & -> & Hrest).
    destruct (translateErrorMessage_finish true message (outcome start))
      as [->|(r & _ & Hr & ->)].
    + exists (message :: rest). split; [reflexivity|].
      constructor; [left; reflexivity|exact Hrest].
    + exists (r :: rest). split; [reflexivity|].
      constructor; [right; exact Hr|exact Hrest].
Qed.


End Host.

Section Caller.

Variable toLowerCase : jsstring -> jsstring.
Variable detectTextLanguage : jsstring -> Completion jsstring.


End Caller.

(** The response path on a host without a language detector. *)
Lemma translateClaudeResponse_contract_witness :
  exists k,
    MiddlewareMore.translateClaudeResponse OrchestratorFacts.noDetector true
                                           (lit "Hello world")
    = AwaitQueue (lit "Hello world") (lit "zh") 2 k
    /\ k (Returned (lit "Hello world"))
       = ret (mkResult (lit "Hello world") (lit "Hello world") true (lit "en")).
Proof.
  destruct (proj2 (proj2 (translateClaudeResponse_contract
                            OrchestratorFacts.noDetector true
                            (lit "Hello world"))) eq_refl)
    as (k & Hk & _ & Hret).
  exists k. split; [exact Hk|apply Hret].
Defined.


(** Three texts, the second blank; the two requests resolve. *)
Definition sampleTexts : list jsstring := [lit "one"; lit "  "; lit "two"].

Definition sampleOutcome (i : nat) : Completion jsstring :=
  match i with
  | O => Returned (lit "yi")
  | _ => Returned (lit "er")
  end.

Lemma translateBatch_all_or_nothing_witness :
  translateBatch false sampleTexts sampleOutcome = sampleTexts
  /\ validSlots sampleTexts (translateBatch true sampleTexts sampleOutcome)
     = [lit "yi"; lit "er"].
Proof.
  destruct (translateBatch_all_or_nothing false sampleTexts sampleOutcome)
    as (_ & _ & Hback & _).
  destruct (translateBatch_all_or_nothing true sampleTexts sampleOutcome)
    as (_ & _ & _ & Hall).
  split.
  - apply Hback. left. reflexivity.
  - apply Hall; reflexivity.
Defined.

End EntryPointFacts.

Module DetectionFacts.
Import Middleware SlashCommand JsStringFacts ClassifierFacts MiddlewareMore
       EntryPointFacts.

Lemma countClass_weaker (p q : char16 -> bool) (s : jsstring) :
  (forall c, p c = true -> q c = true) -> countClass p s <= countClass q s.
Proof.
  intros H. unfold countClass. apply inj_le.
  apply SchedulerFacts.filter_length_weaker, H.
Qed.

Lemma main_is_ideograph (c : char16) :
  isCJKMain c = true -> isCJKIdeograph c = true.
Proof. unfold isCJKIdeograph. intros ->. reflexivity. Qed.

Lemma main_count_kept (text : jsstring) :
  countClass isCJKMain text <= countClass isCJKIdeograph (preprocess text).
Proof.
  replace (countClass isCJKMain text)
    with (countClass isCJKMain (preprocess text))
    by (unfold countClass; rewrite preprocess_sparing; reflexivity).
  apply countClass_weaker, main_is_ideograph.
Qed.

Lemma five_ideographs_detected (text : jsstring) :
  5 <= countClass isCJKMain text -> detectChineseContent text = true.
Proof.
  intros H. pose proof (main_count_kept text) as Hkept.
  unfold detectChineseContent.
  destruct (guards_pass text ltac:(lia)) as [-> ->].
  assert (E1 : (1 <=? countClass isCJKIdeograph (preprocess text)) = true)
    by (apply Z.leb_le; lia).
  assert (E5 : (5 <=? countClass isCJKIdeograph (preprocess text)) = true)
    by (apply Z.leb_le; lia).
  rewrite E1, E5.
  destruct ((jslength text <=? 20) && true); [reflexivity|].
  rewrite !orb_true_r. reflexivity.
Qed.

Lemma ascii_not_extended (c : char16) : c <= 127 -> isCJKExtended c = false.
Proof.
  intros H. unfold isCJKExtended, isCJKIdeograph, isCJKMain.
  repeat match goal with
         | |- context [?a <=? c] =>
             let E := fresh in
             assert (E : (a <=? c) = false) by (apply Z.leb_gt; lia);
             rewrite E; clear E
         end.
  reflexivity.
Qed.

Lemma ascii_not_detected (text : jsstring) :
  forallb (fun c => c <=? 127) text = true -> detectChineseContent text = false.
Proof.
  intros H. unfold detectChineseContent.
  destruct ((jslength text =? 0) || (jslength (trim text) =? 0));
    [reflexivity|].
  assert (E : countClass isCJKExtended text = 0).
  { unfold countClass. rewrite QueueFacts.filter_none; [reflexivity|].
    intros c Hc. rewrite forallb_forall in H.
    apply ascii_not_extended, Z.leb_le, H, Hc. }
  rewrite E. reflexivity.
Qed.

Section Host.

Variable toLowerCase : jsstring -> jsstring.
Variable detectTextLanguage : jsstring -> Completion jsstring.

Local Abbreviation translateUserInput :=
  (Middleware.translateUserInput toLowerCase detectTextLanguage).
Local Abbreviation detectLanguage :=
  (Middleware.detectLanguage detectTextLanguage).

(** X21.  Five ideographs are enough.  Preprocessing removes no code unit
    of U+4E00-9FFF, so a text of any length that holds five of them is
    classified as Chinese; with translation enabled such an input, unless
    it is a control command, is queued for translation to English at
    priority 3 whatever the language detector answered. *)
Theorem five_ideographs_are_translated (userInput : jsstring) :
  filter isCJKMain (preprocess userInput) = filter isCJKMain userInput
  /\ (5 <= countClass isCJKMain userInput ->
      detectChineseContent userInput = true
      /\ (isSlashCommand userInput = false ->
          exists k,
            translateUserInput true userInput
            = AwaitQueue userInput (lit "en") 3 k)).
Proof.
  split; [apply preprocess_sparing|].
  intros H. pose proof (five_ideographs_detected userInput H) as Hd.
  split; [exact Hd|]. intros Hslash.
  unfold Middleware.translateUserInput. rewrite Hslash. cbn [negb].
  destruct (translateOrdinaryInput_queued toLowerCase detectTextLanguage
              userInput) as (k & Hk & _).
  { unfold shouldTranslate. rewrite Hd. reflexivity. }
  exists k. exact Hk.
Qed.

(** X22.  ASCII input is never translated.  A text of code units up to
    U+007F is not classified as Chinese, and [translateUserInput] returns
    it unchanged without reaching the queue, whatever the configuration
    and whatever the language detector answered, ["zh"] included. *)
Theorem ascii_input_is_never_translated
        (enabled : bool) (userInput : jsstring) :
  forallb (fun c => c <=? 127) userInput = true ->
  detectChineseContent userInput = false
  /\ translateUserInput enabled userInput
     = ret (untranslated userInput (detectLanguage userInput)).
Proof.
  intros H. pose proof (ascii_not_detected userInput H) as Hd.
  split; [exact Hd|].
  unfold Middleware.translateUserInput.
  destruct (isSlashCommand userInput); [reflexivity|].
  destruct enabled; cbn [negb]; [|reflexivity].
  apply translateOrdinaryInput_direct.
  unfold shouldTranslate. rewrite Hd, H. cbn [negb orb].
  apply andb_false_r.
Qed.

End Host.

(** A detector that answers ["zh"] for every text. *)
Definition alwaysChinese : jsstring -> Completion jsstring :=
  fun _ => Returned (lit "zh").

(** Forty Latin letters followed by five ideographs. *)
Definition mostlyLatin : jsstring := repeat 97 40 ++ repeat 20320 5.

Lemma five_ideographs_are_translated_witness :
  detectChineseContent mostlyLatin = true
  /\ exists k,
      Middleware.translateUserInput asciiLower OrchestratorFacts.noDetector
                                    true mostlyLatin
      = AwaitQueue mostlyLatin (lit "en") 3 k.
Proof.
  destruct (proj2 (five_ideographs_are_translated
                     asciiLower OrchestratorFacts.noDetector mostlyLatin))
    as [H1 H2].
  - vm_compute. discriminate.
  - split; [exact H1|]. apply H2. reflexivity.
Defined.

Lemma ascii_input_is_never_translated_witness :
  Middleware.translateUserInput asciiLower alwaysChinese true
                                (lit "ni hao")
  = ret (untranslated (lit "ni hao") (lit "zh")).
Proof.
  apply (ascii_input_is_never_translated asciiLower alwaysChinese true
           (lit "ni hao")).
  reflexivity.
Defined.

End DetectionFacts.

Module DispatchFacts.
Import Middleware SchedulerFacts SortFacts.

Lemma descending_app (a b : list QueueItem.t) (x y : QueueItem.t) :
  descending (a ++ b) -> In x a -> In y b ->
  QueueItem.priority y <= QueueItem.priority x.
Proof.
  induction a as [|z a IH]; intros Hd Hx Hy; [contradiction|].
  cbn [app descending] in Hd. destruct Hd as [Hz Hd].
  destruct Hx as [->|Hx]; [|exact (IH Hd Hx Hy)].
  rewrite Forall_forall in Hz. apply Hz, in_app_iff. right. exact Hy.
Qed.

(** X23.  A tick dispatches from the front, by priority.  On an idle
    scheduler a tick leaves the queue sorted and takes its batch from the
    front of it: nothing left behind has a higher priority than anything
    dispatched, and the flag is set exactly when something was taken.  The
    first item of the sorted queue is taken whenever [batchSize] is at
    least one, its estimate is within a quarter of [tpm] and the limiter
    admits it. *)
Theorem tick_dispatches_by_priority (now : Z) (st : State) :
  isProcessingQueue st = false ->
  inFlight st = [] ->
  let st' := processQueue_start now st in
  translationQueue st' = sortByPriority (translationQueue st)
  /\ (exists rest, translationQueue st' = inFlight st' ++ rest
                   /\ forall x y, In x (inFlight st') -> In y rest ->
                                  QueueItem.priority y <= QueueItem.priority x)
  /\ (isProcessingQueue st' = true <-> inFlight st' <> [])
  /\ (forall item others,
         sortByPriority (translationQueue st) = item :: others ->
         1 <= RateLimitConfig.batchSize (rateLimitConfig st) ->
         4 * QueueItem.estimatedTokens item
         <= RateLimitConfig.tpm (rateLimitConfig st) ->
         fst (canMakeRequest (rateLimitConfig st) now
                (QueueItem.estimatedTokens item) (rate st)) = true ->
         exists more, inFlight st' = item :: more).
Proof.
  intros Hidle Hnone. cbv zeta. unfold processQueue_start. rewrite Hidle.
  cbn [orb].
  destruct (translationQueue st) as [|q0 queue] eqn:Equeue.
  { cbn [List.length Z.of_nat Z.eqb]. rewrite Equeue, Hnone, Hidle.
    split; [reflexivity|]. split.
    - exists []. split; [reflexivity|]. intros x y [].
    - split; [split; [discriminate|intros H; contradiction]|].
      intros item others H. discriminate H. }
  rewrite <- Equeue.
  assert (E0 : (Z.of_nat (List.length (translationQueue st)) =? 0) = false)
    by (rewrite Equeue; reflexivity).
  rewrite E0.
  pose proof (sortByPriority_descending (translationQueue st)) as Hdesc.
  pose proof (collectBatch_prefix (rateLimitConfig st) now
                (sortByPriority (translationQueue st)) [] (rate st))
    as (taken & rest & Hsplit & Hbatch & _ & _).
  change (batchTokens []) with 0 in Hbatch.
  assert (Hhead : forall item others,
             sortByPriority (translationQueue st) = item :: others ->
             1 <= RateLimitConfig.batchSize (rateLimitConfig st) ->
             4 * QueueItem.estimatedTokens item
             <= RateLimitConfig.tpm (rateLimitConfig st) ->
             fst (canMakeRequest (rateLimitConfig st) now
                    (QueueItem.estimatedTokens item) (rate st)) = true ->
             exists more, taken = item :: more).
  { intros item others Hsort Hsize Htpm Hok.
    rewrite Hsort in Hbatch. cbn [collectBatch] in Hbatch.
    assert (E1 : (RateLimitConfig.batchSize (rateLimitConfig st)
                  <=? Z.of_nat (List.length (@nil QueueItem.t))) = false)
      by (apply Z.leb_gt; simpl; lia).
    assert (E2 : (RateLimitConfig.tpm (rateLimitConfig st)
                  <? 4 * (0 + QueueItem.estimatedTokens item)) = false)
      by (apply Z.ltb_ge; lia).
    rewrite E1, E2, canMakeRequest_pruned, Hok in Hbatch.
    destruct (collectBatch_prefix (rateLimitConfig st) now others [item]
                (pruned now (rate st)))
      as (taken' & rest' & _ & Hbatch' & _ & _).
    change (batchTokens [item]) with (0 + QueueItem.estimatedTokens item)
      in Hbatch'.
    cbn [app] in Hbatch, Hbatch'. rewrite Hbatch' in Hbatch.
    exists taken'. symmetry. exact Hbatch. }
  destruct (collectBatch (rateLimitConfig st) now
              (sortByPriority (translationQueue st)) [] 0 (rate st))
    as [[batchItems total] r1].
  cbn [fst snd app] in Hbatch. subst batchItems.
  assert (Horder : forall x y, In x taken -> In y rest ->
                               QueueItem.priority y <= QueueItem.priority x).
  { intros x y. apply descending_app. rewrite <- Hsplit. exact Hdesc. }
  destruct taken as [|item taken];
    cbn [translationQueue inFlight isProcessingQueue].
  - split; [reflexivity|]. split; [exists rest; auto|].
    split; [split; [discriminate|intros H; contradiction]|].
    intros item others H1 H2 H3 H4.
    destruct (Hhead item others H1 H2 H3 H4) as [more Hmore].
    discriminate Hmore.
  - split; [reflexivity|]. split; [exists rest; auto|].
    split; [split; [discriminate|reflexivity]|].
    exact Hhead.
Qed.

(** Two requests wait on an idle scheduler, the later one more urgent. *)
Definition twoWaiting : State :=
  mkState defaultRateLimitConfig initialRate initialCache
          [ QueueItem.mk 0 (lit "a") (lit "later") (lit "zh") 1 2 0;
            QueueItem.mk 1 (lit "b") (lit "first") (lit "zh") 3 2 5 ]
          false [] 2.

Lemma tick_dispatches_by_priority_witness :
  isProcessingQueue (processQueue_start 1000 twoWaiting) = true
  /\ exists more,
      inFlight (processQueue_start 1000 twoWaiting)
      = QueueItem.mk 1 (lit "b") (lit "first") (lit "zh") 3 2 5 :: more.
Proof.
  destruct (tick_dispatches_by_priority 1000 twoWaiting eq_refl eq_refl)
    as (_ & _ & Hflag & Hhead).
  destruct (Hhead (QueueItem.mk 1 (lit "b") (lit "first") (lit "zh") 3 2 5)
                  [QueueItem.mk 0 (lit "a") (lit "later") (lit "zh") 1 2 0]
                  eq_refl) as [more Hmore].
  - vm_compute. discriminate.
  - vm_compute. discriminate.
  - reflexivity.
  - split; [|exists more; exact Hmore].
    apply Hflag. rewrite Hmore. discriminate.
Defined.

End DispatchFacts.

Module AdmissionFacts.
Import Middleware SchedulerFacts CeilingFacts.

(** X24.  Admission is monotone.  With no negative token count on record,
    a request the limiter admits is also admitted at any later time and
    for any smaller estimate, as long as nothing is recorded in between:
    pruning only lowers the two counts of the trailing minute. *)
Theorem admission_is_monotone
        (cfg : RateLimitConfig.t) (now now' tokens tokens' : Z)
        (r : RateState) :
  Forall nonnegUsage (tokenUsage r) ->
  now <= now' -> tokens' <= tokens ->
  fst (canMakeRequest cfg now tokens r) = true ->
  fst (canMakeRequest cfg now' tokens' r) = true.
Proof.
  intros Hnn Hnow Htok. unfold canMakeRequest.
  pose proof (count_later now now' r Hnow) as Hcount.
  pose proof (usage_later now now' r Hnow Hnn) as Husage.
  unfold requestsLastMinute in Hcount. unfold tokenUsageLastMinute in Husage.
  destruct (RateLimitConfig.rpm cfg
            <=? Z.of_nat (List.length (filter (inLastMinute now)
                                              (requestTimes r)))) eqn:E1;
    [discriminate|].
  destruct (RateLimitConfig.tpm cfg
            <? sumTokens
                 (filter (fun usage =>
                            inLastMinute now (TokenUsage.timestamp usage))
                         (tokenUsage r)) + tokens) eqn:E2;
    [discriminate|].
  destruct (RateLimitConfig.maxConcurrent cfg <=? activeRequests r) eqn:E3;
    [discriminate|].
  intros _. apply Z.leb_gt in E1. apply Z.ltb_ge in E2.
  assert (E1' : (RateLimitConfig.rpm cfg
                 <=? Z.of_nat (List.length (filter (inLastMinute now')
                                                   (requestTimes r))))
                = false) by (apply Z.leb_gt; lia).
  assert (E2' : (RateLimitConfig.tpm cfg
                 <? sumTokens
                      (filter (fun usage =>
                                 inLastMinute now' (TokenUsage.timestamp usage))
                              (tokenUsage r)) + tokens') = false)
    by (apply Z.ltb_ge; unfold recent in Husage; lia).
  rewrite E1', E2'. reflexivity.
Qed.

Lemma admission_is_monotone_witness :
  fst (canMakeRequest defaultRateLimitConfig 70000 100
         (recordRequest 0 74000 initialRate)) = true.
Proof.
  apply (admission_is_monotone defaultRateLimitConfig 1000 70000 1000 100
           (recordRequest 0 74000 initialRate)).
  - repeat constructor. vm_compute. discriminate.
  - lia.
  - lia.
  - reflexivity.
Defined.

End AdmissionFacts.

Module CacheInvariantFacts.
Import Middleware JsStringFacts JsMapFacts CacheFacts MiddlewareMore
       CleanupFacts.

(** Every key occurs once, at most [maxCacheSize] entries are held, and no
    entry holds the empty text. *)
Definition CacheOK (c : CacheState) : Prop :=
  wf (translationCache c)
  /\ JsMap.size (translationCache c) <= maxCacheSize
  /\ Forall (fun kv => CacheEntry.result (snd kv) <> []) (translationCache c).

Lemma size_delete_le {V} (k : jsstring) (m : JsMap.t V) :
  JsMap.size (JsMap.delete k m) <= JsMap.size m.
Proof.
  unfold JsMap.size. apply inj_le.
  induction m as [|[k' v'] m IH]; [constructor|].
  cbn [JsMap.delete]. destruct (JsString.eqb k k'); simpl; lia.
Qed.

Lemma Forall_delete {V} (P : jsstring * V -> Prop) (k : jsstring)
      (m : JsMap.t V) :
  Forall P m -> Forall P (JsMap.delete k m).
Proof.
  induction m as [|[k' v'] m IH]; intros H; [exact H|].
  inversion H; subst. cbn [JsMap.delete].
  destruct (JsString.eqb k k'); [assumption|constructor; auto].
Qed.

Lemma filter_wf {V} (p : jsstring * V -> bool) (m : JsMap.t V) :
  wf m -> wf (filter p m).
Proof.
  unfold wf, JsMap.keys. induction m as [|kv m IH]; intros H; [exact H|].
  cbn [map] in H. inversion H as [|? ? Hk Hm]; subst.
  cbn [filter]. destruct (p kv); [|exact (IH Hm)].
  cbn [map]. constructor; [|exact (IH Hm)].
  intros Hin. apply Hk. apply in_map_iff in Hin as (x & <- & Hin).
  apply filter_In in Hin. apply in_map, Hin.
Qed.

Lemma filter_size_le {V} (p : jsstring * V -> bool) (m : JsMap.t V) :
  JsMap.size (filter p m) <= JsMap.size m.
Proof. unfold JsMap.size. apply inj_le, filter_length_le. Qed.

Lemma Forall_filter {A} (P : A -> Prop) (p : A -> bool) (l : list A) :
  Forall P l -> Forall P (filter p l).
Proof.
  intros H. apply Forall_forall. intros x Hx. apply filter_In in Hx.
  rewrite Forall_forall in H. apply H, Hx.
Qed.

Lemma cleanupCache_ok (now : Z) (c : CacheState) :
  CacheOK c -> CacheOK (cleanupCache now c).
Proof.
  intros (Hwf & Hsize & Hres). unfold CacheOK, cleanupCache.
  cbn [translationCache].
  change (fold_left (fun m key => JsMap.delete key m)
            (map fst (filter (isExpired now) (translationCache c)))
            (translationCache c))
    with (deleteAll (map fst (filter (isExpired now) (translationCache c)))
                    (translationCache c)).
  rewrite (cleanup_filter now _ Hwf).
  split; [apply filter_wf, Hwf|]. split.
  - pose proof (filter_size_le (fun kv => negb (isExpired now kv))
                  (translationCache c)). lia.
  - apply Forall_filter, Hres.
Qed.

Section Host.

Variable toLowerCase : jsstring -> jsstring.

Local Abbreviation getFromCache := (Middleware.getFromCache toLowerCase).
Local Abbreviation storeToCache := (Middleware.storeToCache toLowerCase).
Local Abbreviation processGroup := (Middleware.processGroup toLowerCase).
Local Abbreviation processGroups := (Middleware.processGroups toLowerCase).

Lemma getFromCache_ok (now : Z) (text lang : jsstring) (c : CacheState) :
  CacheOK c -> CacheOK (snd (getFromCache now text lang c)).
Proof.
  intros (Hwf & Hsize & Hres). unfold CacheOK.
  split; [apply getFromCache_wf, Hwf|].
  unfold Middleware.getFromCache.
  destruct (JsMap.get _ (translationCache c)) as [cached|];
    [|split; assumption].
  destruct (now - CacheEntry.timestamp cached <? cacheTtl);
    [split; assumption|].
  cbn [snd translationCache]. split.
  - pose proof (size_delete_le
                  (Middleware.getCacheKey toLowerCase text lang)
                  (translationCache c)). lia.
  - apply Forall_delete, Hres.
Qed.

Lemma storeToCache_ok (now : Z) (text lang result : jsstring) (tokens : Z)
      (c : CacheState) :
  CacheOK c -> result <> [] ->
  CacheOK (storeToCache now text lang result tokens c).
Proof.
  intros (Hwf & Hsize & Hres) Hne. unfold CacheOK.
  split; [apply storeToCache_wf, Hwf|]. split.
  - apply (put_bound toLowerCase c (mkPut now text lang result tokens) Hsize).
  - unfold Middleware.storeToCache. cbn [translationCache].
    apply DedupFacts.Forall_set; [|exact Hne].
    destruct (maxCacheSize <=? JsMap.size (translationCache c)); [|exact Hres].
    unfold evictOldest. destruct (JsMap.keys (translationCache c));
      [exact Hres|apply Forall_delete, Hres].
Qed.

(** Every settlement of the log resolves with a text that is not empty,
    or rejects. *)
Definition Answered (log : BatchLog) : Prop :=
  Forall (fun settlement =>
            match snd settlement with
            | Resolved result => result <> []
            | Rejected _ => True
            end) (settled log).

Lemma settleAll_answered (items : list QueueItem.t) (s : Settlement)
      (log : BatchLog) :
  Answered log ->
  match s with Resolved result => result <> [] | Rejected _ => True end ->
  Answered (settleAll items s log).
Proof.
  intros Hlog Hs. unfold Answered, settleAll. cbn [settled].
  apply Forall_app. split; [exact Hlog|].
  apply Forall_forall. intros x Hx.
  apply in_map_iff in Hx as (item & <- & _). exact Hs.
Qed.

Lemma truthy_nonempty (r : option jsstring) :
  truthy r = true -> stringOf r <> [].
Proof. destruct r as [[|c r]|]; discriminate. Qed.

Lemma processGroup_keeps_cache (translateText : TranslateText)
      (duplicateItems : list QueueItem.t) (now : Z) (c : CacheState)
      (log : BatchLog) :
  CacheOK c -> Answered log ->
  CacheOK (snd (fst (processGroup translateText duplicateItems (now, c, log))))
  /\ Answered (snd (processGroup translateText duplicateItems (now, c, log))).
Proof.
  intros Hc Hlog. unfold Middleware.processGroup.
  destruct duplicateItems as [|firstItem others]; [split; assumption|].
  pose proof (getFromCache_ok now (QueueItem.text firstItem)
                (QueueItem.targetLanguage firstItem) c Hc) as Hc1.
  destruct (getFromCache now (QueueItem.text firstItem)
              (QueueItem.targetLanguage firstItem) c) as [cached c1].
  cbn [snd] in Hc1.
  destruct (truthy cached) eqn:Ecached; cbn [negb].
  - rewrite Ecached. cbn [fst snd]. split; [exact Hc1|].
    apply settleAll_answered; [exact Hlog|].
    apply truthy_nonempty, Ecached.
  - destruct (translateText now (QueueItem.text firstItem)
                (QueueItem.targetLanguage firstItem))
      as [[translated|error] now'].
    + destruct (truthy (Some translated)) eqn:Et; cbn [fst snd].
      * split.
        -- apply storeToCache_ok; [exact Hc1|].
           apply (truthy_nonempty (Some translated)), Et.
        -- apply settleAll_answered; [exact Hlog|].
           apply (truthy_nonempty (Some translated)), Et.
      * split; [exact Hc1|].
        apply settleAll_answered; [exact Hlog|exact I].
    + cbn [fst snd]. split; [exact Hc1|].
      apply settleAll_answered; [exact Hlog|exact I].
Qed.

Lemma processGroups_keep_cache (translateText : TranslateText)
      (groups : JsMap.t (list QueueItem.t)) :
  forall (now : Z) (c : CacheState) (log : BatchLog),
    CacheOK c -> Answered log ->
    CacheOK (snd (fst (processGroups translateText groups (now, c, log))))
    /\ Answered (snd (processGroups translateText groups (now, c, log))).
Proof.
  unfold Middleware.processGroups.
  induction groups as [|[k g] groups IH]; intros now c log Hc Hlog;
    [split; assumption|].
  cbn [fold_left snd].
  destruct (processGroup_keeps_cache translateText g now c log Hc Hlog) as [Hc1 Hlog1].
  destruct (processGroup translateText g (now, c, log)) as [[now1 c1] log1].
  apply IH; assumption.
Qed.

Lemma processQueue_start_cache (now : Z) (st : State) :
  cache (processQueue_start now st) = cache st.
Proof.
  unfold processQueue_start.
  destruct (isProcessingQueue st || _); [reflexivity|].
  destruct (collectBatch _ _ _ _ _ _) as [[[|b bs] ?] ?]; reflexivity.
Qed.

Lemma stepOp_ok (st : State) (op : Op) :
  CacheOK (cache st) -> CacheOK (cache (stepOp toLowerCase st op)).
Proof.
  intros Hc. destruct op as [[now itemId text lang priority|now|api now]|now];
    cbn [stepOp step].
  - unfold queueTranslation.
    pose proof (getFromCache_ok now text lang (cache st) Hc) as Hc1.
    destruct (getFromCache now text lang (cache st)) as [cached c1].
    cbn [snd] in Hc1.
    destruct (truthy cached); [exact Hc1|].
    destruct (canMakeRequest _ _ _ _) as [ok r1]. cbn [snd].
    destruct (ok && negb (isProcessingQueue st)); [|exact Hc1].
    rewrite processQueue_start_cache. exact Hc1.
  - rewrite processQueue_start_cache. exact Hc.
  - unfold processQueue_finish. destruct (isProcessingQueue st); [|exact Hc].
    assert (Hlog0 : Answered (mkLog [] [])) by constructor.
    destruct (processGroups_keep_cache api (groupItems toLowerCase (inFlight st))
                now (cache st) (mkLog [] []) Hc Hlog0) as [Hc1 _].
    destruct (processGroups api _ _) as [[now1 c1] log]. exact Hc1.
  - cbn [cache]. apply cleanupCache_ok, Hc.
Qed.

(** X25.  The cache of a running middleware.  Whatever is enqueued,
    ticked, completed and cleaned up on a fresh middleware, with any
    translate capability: every cache key occurs once, the cache holds at
    most [maxCacheSize] entries and no entry holds the empty text; an
    answer [queueTranslation] gives at once is therefore never empty, and
    when a batch completes every promise is resolved with a text that is
    not empty or rejected. *)
Theorem cache_of_a_running_middleware
        (ops : list Op) (translateText : TranslateText) (now : Z)
        (itemId text lang : jsstring) (priority : Z) :
  let st := runOps toLowerCase ops initialState in
  wf (translationCache (cache st))
  /\ JsMap.size (translationCache (cache st)) <= maxCacheSize
  /\ Forall (fun kv => CacheEntry.result (snd kv) <> [])
            (translationCache (cache st))
  /\ fst (queueTranslation toLowerCase now itemId text lang priority st)
     <> Some []
  /\ Answered (snd (processQueue_finish toLowerCase translateText now st)).
Proof.
  cbv zeta.
  assert (Hc : CacheOK (cache (runOps toLowerCase ops initialState))).
  { unfold runOps.
    assert (H0 : CacheOK (cache initialState)).
    { split; [constructor|]. split; [vm_compute; discriminate|constructor]. }
    revert H0. generalize initialState as st.
    induction ops as [|op ops IH]; intros st H; [exact H|].
    cbn [fold_left]. apply IH, stepOp_ok, H. }
  destruct Hc as (Hwf & Hsize & Hres).
  split; [exact Hwf|]. split; [exact Hsize|]. split; [exact Hres|]. split.
  - unfold queueTranslation.
    destruct (getFromCache now text lang _) as [cached c1].
    destruct (truthy cached) eqn:E; cbn [fst].
    + intros ->. discriminate E.
    + destruct (canMakeRequest _ _ _ _) as [ok r1]. discriminate.
  - unfold processQueue_finish.
    destruct (isProcessingQueue _); [|constructor].
    assert (Hlog0 : Answered (mkLog [] [])) by constructor.
    destruct (processGroups_keep_cache translateText
                (groupItems toLowerCase
                   (inFlight (runOps toLowerCase ops initialState)))
                now (cache (runOps toLowerCase ops initialState))
                (mkLog [] []) (conj Hwf (conj Hsize Hres)) Hlog0)
      as [_ Hlog].
    destruct (processGroups translateText _ _) as [[now1 c1] log].
    exact Hlog.
Qed.

End Host.

End CacheInvariantFacts.
